(** * node-opcua: the factory code generator and the subscription counters

    A shallow embedding of [lib/misc/factory_code_generator.js] and of
    [Subscription]: its sequence-number counter, its two queues and its
    publishing cycle.

    [produce_code] emits the text of a JavaScript class.  The embedding keeps
    the emitted program as data: one constructor of [ctor_stmt], [enc_stmt] or
    [dec_stmt] per line that [produce_code] writes, in the order it writes
    them.  The emitted statements are then run by [construct],
    [encode_method] and [decode_method] over a model of JavaScript values and
    of a byte stream.  Collaborators that live in other files of the
    repository (the built-in type table, the enumeration registry, the schema
    helpers, the node-id catalog) are fields of [Externals]; the few whose
    behaviour the development fixes (the type registry, the id counter, the
    array framing, the lookup of an enumeration member, the root class) are
    marked as modelled from the spec. *)

From Stdlib Require Import ZArith List String Bool Lia PeanoNat.
From Stdlib Require Import Strings.Byte.
Import ListNotations.
Local Open Scope string_scope.
Local Open Scope Z_scope.
Set Warnings "-register-all".

(* ================================================================== *)
(** ** Subscription: sequence numbers *)
(* ================================================================== *)

Module Subscription.

(** The counters that [function Subscription(options)] initialises. *)
Record t := mk {
  publishingInterval : Z;
  maxKeepAliveCount : Z;
  _keep_alive_counter : Z;
  maxLifeTimeCount : Z;
  _life_time_counter : Z;
  currentTick : Z;
  __next_sequence_number : Z
}.

(** [x || d] on numbers: 0 is falsy. *)
Definition or_default (o : option Z) (d : Z) : Z :=
  match o with
  | Some x => if x =? 0 then d else x
  | None => d
  end.

Record options := mk_options {
  opt_publishingInterval : option Z;
  opt_maxKeepAliveCount : option Z;
  opt_maxLifeTimeCount : option Z
}.

(** [function Subscription(options)] *)
Definition new (o : options) : t :=
  let keep := or_default (opt_maxKeepAliveCount o) 10 in
  {| publishingInterval := or_default (opt_publishingInterval o) 1000;
     maxKeepAliveCount := keep;
     _keep_alive_counter := keep;
     maxLifeTimeCount := or_default (opt_maxLifeTimeCount o) keep;
     _life_time_counter := 0;
     currentTick := 0;
     __next_sequence_number := 0 |}.

Definition set_next_sequence_number (s : t) (n : Z) : t :=
  {| publishingInterval := publishingInterval s;
     maxKeepAliveCount := maxKeepAliveCount s;
     _keep_alive_counter := _keep_alive_counter s;
     maxLifeTimeCount := maxLifeTimeCount s;
     _life_time_counter := _life_time_counter s;
     currentTick := currentTick s;
     __next_sequence_number := n |}.

(** [Subscription.prototype._get_next_sequence_number]: the returned
    number and the subscription after the call. *)
Definition _get_next_sequence_number (s : t) : Z * t :=
  let s1 := set_next_sequence_number s (__next_sequence_number s + 1) in
  let s2 := if __next_sequence_number s1 >? 4000000000
            then set_next_sequence_number s1 1 else s1 in
  (__next_sequence_number s2, s2).

(** [Subscription.prototype._get_future_sequence_number] *)
Definition _get_future_sequence_number (s : t) : Z * t :=
  let next := __next_sequence_number s + 1 in
  (if next >? 4000000000 then 1 else next, s).

Definition resetKeepAliveCounter (s : t) : t :=
  {| publishingInterval := publishingInterval s;
     maxKeepAliveCount := maxKeepAliveCount s;
     _keep_alive_counter := 0;
     maxLifeTimeCount := maxLifeTimeCount s;
     _life_time_counter := _life_time_counter s;
     currentTick := currentTick s;
     __next_sequence_number := __next_sequence_number s |}.

Definition increaseKeepAliveCounter (s : t) : t :=
  {| publishingInterval := publishingInterval s;
     maxKeepAliveCount := maxKeepAliveCount s;
     _keep_alive_counter := _keep_alive_counter s + 1;
     maxLifeTimeCount := maxLifeTimeCount s;
     _life_time_counter := _life_time_counter s;
     currentTick := currentTick s;
     __next_sequence_number := __next_sequence_number s |}.

Definition resetLifeTimeCounter (s : t) : t :=
  {| publishingInterval := publishingInterval s;
     maxKeepAliveCount := maxKeepAliveCount s;
     _keep_alive_counter := _keep_alive_counter s;
     maxLifeTimeCount := maxLifeTimeCount s;
     _life_time_counter := 0;
     currentTick := currentTick s;
     __next_sequence_number := __next_sequence_number s |}.

Definition increaseLifeTimeCounter (s : t) : t :=
  {| publishingInterval := publishingInterval s;
     maxKeepAliveCount := maxKeepAliveCount s;
     _keep_alive_counter := _keep_alive_counter s;
     maxLifeTimeCount := maxLifeTimeCount s;
     _life_time_counter := _life_time_counter s + 1;
     currentTick := currentTick s;
     __next_sequence_number := __next_sequence_number s |}.

Definition ping_from_client (s : t) : t := resetLifeTimeCounter s.


End Subscription.

(* ================================================================== *)
(** ** JavaScript values, errors, results *)
(* ================================================================== *)

(** The values the generated classes handle.  An object carries the name of
    the class it was created by ([new T] gives class [T]; an options literal
    has class ["Object"]) and its own properties in insertion order. *)
Inductive value : Type :=
| VUndefined
| VNull
| VNum (n : Z)
| VStr (s : string)
| VEnum (key : string) (ordinal : Z)
| VArr (elements : list value)
| VObj (o : obj)
with obj : Type :=
| Obj (cls : string) (props : list (string * value)).

Definition obj_class (o : obj) : string := let (c, _) := o in c.
Definition obj_props (o : obj) : list (string * value) := let (_, p) := o in p.

(** What the code throws.  JavaScript has one [Error] class here; the
    constructors keep the message apart.  [OutOfFuel] is not a JavaScript
    error: it is the answer of an interpreter below whose recursion budget
    was too small. *)
Inductive error : Type :=
| CannotFindSchema (schema_name : string)
    (* " Cannot find schema <schema_name> in <path>" *)
| NoEncodingDefaultBinary (name : string)
    (* "<name> has no _Encoding_DefaultBinary id ..." *)
| DecodeRequiresDecodeDebug (name : string)
    (* "schema decode requires also to provide a decode_debug <name>" *)
| CannotCoerce (fieldType : string) (v : value)
    (* "value cannot be coerced to <fieldType>: <value>" *)
| AssertionError (what : string)
| TypeError (what : string)
| ReferenceError (identifier : string)
| NotFoundError (name : string)
| ConflictError (name : string)
| ExternalError (what : string)
| OutOfFuel.

(** The error classes of the design notes, as sets of thrown errors. *)
Definition ConfigurationError (e : error) : Prop :=
  match e with
  | NoEncodingDefaultBinary _ | DecodeRequiresDecodeDebug _ => True
  | _ => False
  end.


Inductive result (A : Type) : Type :=
| OK (a : A)
| Err (e : error).
Arguments OK {A} a.
Arguments Err {A} e.

Definition bind {A B : Type} (m : result A) (k : A -> result B) : result B :=
  match m with
  | OK a => k a
  | Err e => Err e
  end.

Notation "x <- m ;; k" := (bind m (fun x => k))
  (at level 61, m at next level, right associativity).
Notation "' p <- m ;; k" := (bind m (fun x => let p := x in k))
  (at level 61, p pattern, m at next level, right associativity).

Definition is_ok {A : Type} (m : result A) : bool :=
  match m with OK _ => true | Err _ => false end.

(** A loop body run over the elements of a list, left to right, stopping at
    the first throw. *)
Fixpoint foldM {A S : Type} (f : S -> A -> result S) (l : list A) (s : S) : result S :=
  match l with
  | [] => OK s
  | a :: l' => s' <- f s a ;; foldM f l' s'
  end.

(** *** Properties of an object *)

Fixpoint assoc {A : Type} (k : string) (l : list (string * A)) : option A :=
  match l with
  | [] => None
  | (k', a) :: l' => if String.eqb k k' then Some a else assoc k l'
  end.

(** Assignment to a property: in place when the object has it, appended
    otherwise. *)
Fixpoint assoc_set {A : Type} (k : string) (a : A) (l : list (string * A)) : list (string * A) :=
  match l with
  | [] => [(k, a)]
  | (k', a') :: l' =>
      if String.eqb k k' then (k, a) :: l' else (k', a') :: assoc_set k a l'
  end.

Definition raw_get (o : obj) (k : string) : value :=
  match assoc k (obj_props o) with
  | Some v => v
  | None => VUndefined
  end.

Definition raw_set (o : obj) (k : string) (v : value) : obj :=
  Obj (obj_class o) (assoc_set k v (obj_props o)).

(** JavaScript truthiness, for [options || {}] and [(options.m) ? .. : ..]. *)
Definition truthy (v : value) : bool :=
  match v with
  | VUndefined | VNull => false
  | VNum n => negb (n =? 0)
  | VStr s => negb (String.eqb s "")
  | VEnum _ _ | VArr _ | VObj _ => true
  end.

Definition stream := list byte.

(* ================================================================== *)
(** ** Subscription: the publishing cycle *)
(* ================================================================== *)

Module Publishing.

(** What [addNotificationMessage] looks at in its argument: whether it is
    a [NotificationMessage], and its own property [sequenceNumber] when it
    has one. *)
Record message := mk_message {
  instanceof_NotificationMessage : bool;
  msg_sequenceNumber : option Z
}.

(** An element of [_pending_notifications] and of [_sent_notifications]. *)
Record entry := mk_entry {
  notification : message;
  start_tick : Z;
  sequenceNumber : Z
}.

(** A subscription: the counters of [Subscription.t], the handle of the
    interval timer and the two queues. *)
Record sub := mk {
  sub_id : string;
  counters : Subscription.t;
  timerId : Z;
  _pending_notifications : list entry;
  _sent_notifications : list entry
}.

(** What [_tick] emits. *)
Inductive event : Type :=
| perform_update
| expired
| notification_event (n : entry)
| keepalive (future_sequence_number : Z).

Definition set_counters (s : sub) (c : Subscription.t) : sub :=
  {| sub_id := sub_id s;
     counters := c;
     timerId := timerId s;
     _pending_notifications := _pending_notifications s;
     _sent_notifications := _sent_notifications s |}.

Definition set_sent (s : sub) (l : list entry) : sub :=
  {| sub_id := sub_id s;
     counters := counters s;
     timerId := timerId s;
     _pending_notifications := _pending_notifications s;
     _sent_notifications := l |}.

(** [options.id || "<invalid_id>"] *)
Definition id_or_default (o : option string) : string :=
  match o with
  | Some x => if String.eqb x "" then "<invalid_id>" else x
  | None => "<invalid_id>"
  end.

(** [function Subscription(options)]; [interval] is the handle that
    [setInterval] returned.  The timer and [setImmediate] call [_tick]
    later: see [run]. *)
Definition new (o : Subscription.options) (id : option string) (interval : Z) : sub :=
  {| sub_id := id_or_default id;
     counters := Subscription.new o;
     timerId := interval;
     _pending_notifications := [];
     _sent_notifications := [] |}.

Definition resetKeepAliveCounter (s : sub) : sub :=
  set_counters s (Subscription.resetKeepAliveCounter (counters s)).

Definition increaseKeepAliveCounter (s : sub) : sub :=
  set_counters s (Subscription.increaseKeepAliveCounter (counters s)).

Definition keepAliveCounterHasExpired (s : sub) : bool :=
  Subscription._keep_alive_counter (counters s)
    >=? Subscription.maxKeepAliveCount (counters s).

Definition resetLifeTimeCounter (s : sub) : sub :=
  set_counters s (Subscription.resetLifeTimeCounter (counters s)).

Definition increaseLifeTimeCounter (s : sub) : sub :=
  set_counters s (Subscription.increaseLifeTimeCounter (counters s)).

(** [lifeTimeHasExpired]: the assertion, then the comparison. *)
Definition lifeTimeHasExpired (s : sub) : result bool :=
  if Subscription.maxLifeTimeCount (counters s) >? 0
  then OK (Subscription._life_time_counter (counters s)
             >=? Subscription.maxLifeTimeCount (counters s))
  else Err (AssertionError "self.maxLifeTimeCount>0").

Definition ping_from_client (s : sub) : sub := resetLifeTimeCounter s.

(** [terminate]: the timer is cleared and its handle forgotten. *)
Definition terminate (s : sub) : sub :=
  {| sub_id := sub_id s;
     counters := counters s;
     timerId := 0;
     _pending_notifications := _pending_notifications s;
     _sent_notifications := _sent_notifications s |}.

Definition pendingNotificationsCount (s : sub) : nat :=
  List.length (_pending_notifications s).

Definition hasPendingNotification (s : sub) : bool :=
  (0 <? pendingNotificationsCount s)%nat.

Definition sentNotificationsCount (s : sub) : nat :=
  List.length (_sent_notifications s).

(** A method that may throw returns what it threw or returned, and the
    subscription as the call left it. *)
Definition addNotificationMessage (s : sub) (notification_message : message)
  : result unit * sub :=
  if negb (instanceof_NotificationMessage notification_message)
  then (Err (AssertionError "notification_message instanceof NotificationMessage"), s)
  else
    match msg_sequenceNumber notification_message with
    | None =>
        (Err (AssertionError "notification_message.hasOwnProperty(sequenceNumber)"), s)
    | Some n =>
        (OK tt,
         {| sub_id := sub_id s;
            counters := counters s;
            timerId := timerId s;
            _pending_notifications :=
              (_pending_notifications s
                 ++ [ {| notification := notification_message;
                         start_tick := Subscription.currentTick (counters s);
                         sequenceNumber := n |} ])%list;
            _sent_notifications := _sent_notifications s |})
    end.

(** [popNotificationToSend]: [shift] from the pending queue, [push] onto
    the sent queue. *)
Definition popNotificationToSend (s : sub) : result entry * sub :=
  if hasPendingNotification s
  then
    match _pending_notifications s with
    | notification_message :: rest =>
        (OK notification_message,
         {| sub_id := sub_id s;
            counters := counters s;
            timerId := timerId s;
            _pending_notifications := rest;
            _sent_notifications :=
              (_sent_notifications s ++ [notification_message])%list |})
    | [] => (Err (AssertionError "self.pendingNotificationsCount >0"), s)
    end
  else (Err (AssertionError "self.pendingNotificationsCount >0"), s).

(** [notificationHasExpired]; its two assertions hold of every [entry]. *)
Definition notificationHasExpired (s : sub) (n : entry) : bool :=
  start_tick n + Subscription.maxKeepAliveCount (counters s)
    <? Subscription.currentTick (counters s).

(** The loop of [acknowledgeNotification]: the callback given to [_.find]
    returns nothing, so [_.find] visits every element, and [foundIndex] is
    overwritten at each element with the sequence number. *)
Fixpoint find_index (sequenceNumber0 : Z) (l : list entry) (index : nat)
    (foundIndex : option nat) : option nat :=
  match l with
  | [] => foundIndex
  | e :: l' =>
      find_index sequenceNumber0 l' (S index)
        (if sequenceNumber e =? sequenceNumber0 then Some index else foundIndex)
  end.

(** [array.splice(i, 1)] *)
Definition splice1 {A : Type} (i : nat) (l : list A) : list A :=
  (firstn i l ++ skipn (S i) l)%list.

Definition acknowledgeNotification (s : sub) (sequenceNumber0 : Z)
  : result unit * sub :=
  match find_index sequenceNumber0 (_sent_notifications s) 0 None with
  | None => (Err (AssertionError "foundIndex != -1"), s)
  | Some foundIndex =>
      (OK tt, set_sent s (splice1 foundIndex (_sent_notifications s)))
  end.

(** The [forEach] of [discardOldSentNotifications]. *)
Fixpoint acknowledge_each (arr : list entry) (s : sub) : result unit * sub :=
  match arr with
  | [] => (OK tt, s)
  | n :: arr' =>
      match acknowledgeNotification s (sequenceNumber n) with
      | (OK _, s') => acknowledge_each arr' s'
      | (Err e, s') => (Err e, s')
      end
  end.

Definition discardOldSentNotifications (s : sub) : result unit * sub :=
  let arr := filter (notificationHasExpired s) (_sent_notifications s) in
  acknowledge_each arr s.

(** [self.currentTick += 1] *)
Definition increaseCurrentTick (c : Subscription.t) : Subscription.t :=
  {| Subscription.publishingInterval := Subscription.publishingInterval c;
     Subscription.maxKeepAliveCount := Subscription.maxKeepAliveCount c;
     Subscription._keep_alive_counter := Subscription._keep_alive_counter c;
     Subscription.maxLifeTimeCount := Subscription.maxLifeTimeCount c;
     Subscription._life_time_counter := Subscription._life_time_counter c;
     Subscription.currentTick := Subscription.currentTick c + 1;
     Subscription.__next_sequence_number := Subscription.__next_sequence_number c |}.

(** What a call of [_tick] leaves: what it threw, the subscription, and
    the events it emitted itself, in order. *)
Record outcome := mk_outcome {
  thrown : option error;
  after : sub;
  events : list event
}.

Section Listeners.

(** [emit] runs the listeners of the event at once; what they do to the
    subscription is theirs.  A listener that throws is not modelled. *)
Variable listeners : event -> sub -> sub.

Definition emit (e : event) (s : sub) : sub := listeners e s.

(** [Subscription.prototype._tick] *)
Definition _tick (self : sub) : outcome :=
  let s1 := set_counters self (increaseCurrentTick (counters self)) in
  let s2 := emit perform_update s1 in
  let s3 := increaseLifeTimeCounter s2 in
  match discardOldSentNotifications s3 with
  | (Err e, s4) => mk_outcome (Some e) s4 [perform_update]
  | (OK _, s4) =>
      match lifeTimeHasExpired s4 with
      | Err e => mk_outcome (Some e) s4 [perform_update]
      | OK true =>
          mk_outcome None (terminate (emit expired s4)) [perform_update; expired]
      | OK false =>
          if hasPendingNotification s4
          then
            match popNotificationToSend s4 with
            | (Err e, s5) => mk_outcome (Some e) s5 [perform_update]
            | (OK n, s5) =>
                mk_outcome None
                  (resetKeepAliveCounter (emit (notification_event n) s5))
                  [perform_update; notification_event n]
            end
          else
            let s5 := increaseKeepAliveCounter s4 in
            if keepAliveCounterHasExpired s5
            then
              let future_sequence_number :=
                fst (Subscription._get_future_sequence_number (counters s5)) in
              mk_outcome None
                (resetKeepAliveCounter (emit (keepalive future_sequence_number) s5))
                [perform_update; keepalive future_sequence_number]
            else mk_outcome None s5 [perform_update]
      end
  end.

(** The interval timer: it calls [_tick] again and again until
    [terminate] has cleared it, or a call throws. *)
Fixpoint run (n : nat) (s : sub) : outcome :=
  match n with
  | O => mk_outcome None s []
  | S n' =>
      if timerId s =? 0 then mk_outcome None s []
      else
        let o := _tick s in
        match thrown o with
        | Some e => o
        | None =>
            let o' := run n' (after o) in
            mk_outcome (thrown o') (after o') (events o ++ events o')%list
        end
  end.

(** A tick before which the client was heard from. *)
Definition pinged_tick (s : sub) : sub := after (_tick (ping_from_client s)).

End Listeners.

(** Listeners that leave the counters and the timer alone: they do not
    ping, terminate or draw a sequence number. *)
Definition keeps_counters (listeners : event -> sub -> sub) : Prop :=
  forall e s,
    counters (listeners e s) = counters s /\ timerId (listeners e s) = timerId s.

(** How many entries carry the sequence number [n]. *)
Definition seq_count (n : Z) (l : list entry) : nat :=
  count_occ Z.eq_dec (map sequenceNumber l) n.

(** Two subscriptions that differ in the sent queue at most. *)
Definition same_but_sent (s s' : sub) : Prop :=
  sub_id s' = sub_id s /\ counters s' = counters s /\ timerId s' = timerId s
  /\ _pending_notifications s' = _pending_notifications s.

(** Listeners that only look. *)
Definition observers (listeners : event -> sub -> sub) : Prop :=
  forall e s, listeners e s = s.

Definition is_expired (e : event) : bool :=
  match e with expired => true | _ => false end.

Definition is_keepalive (e : event) : bool :=
  match e with keepalive _ => true | _ => false end.

(** The entries of the [notification] events, in order. *)
Fixpoint notifications (l : list event) : list entry :=
  match l with
  | [] => []
  | notification_event n :: l' => n :: notifications l'
  | _ :: l' => notifications l'
  end.

(** Concrete subscriptions. *)
Definition nobody (e : event) (s : sub) : sub := s.

Definition a_message (n : Z) : message :=
  {| instanceof_NotificationMessage := true; msg_sequenceNumber := Some n |}.

Definition defaults : Subscription.options :=
  Subscription.mk_options None None None.

Definition three_ticks : Subscription.options :=
  Subscription.mk_options None (Some 3) None.

Definition no_life_time : Subscription.options :=
  Subscription.mk_options None None (Some (-1)).

(** A subscription with two notifications pending. *)
Definition backlog : sub :=
  {| sub_id := "s";
     counters := Subscription.new defaults;
     timerId := 1;
     _pending_notifications :=
       [ mk_entry (a_message 5) 0 5; mk_entry (a_message 6) 0 6;
         mk_entry (a_message 7) 0 7 ];
     _sent_notifications := [] |}.

(** A subscription that has just sent something: keep-alive after 3 ticks,
    life time of 10. *)
Definition rested : sub :=
  resetKeepAliveCounter
    (new (Subscription.mk_options None (Some 3) (Some 10)) None 1).

(** A sent queue in which two entries carry the sequence number 7. *)
Definition two_sevens : sub :=
  {| sub_id := "s";
     counters := Subscription.new defaults;
     timerId := 1;
     _pending_notifications := [];
     _sent_notifications :=
       [ mk_entry (a_message 7) 0 7; mk_entry (a_message 8) 1 8;
         mk_entry (a_message 7) 2 7; mk_entry (a_message 9) 3 9 ] |}.

(** A subscription at tick 6 that keeps entries for 3 ticks: the entries
    queued at ticks 1 and 2 have expired. *)
Definition aged : sub :=
  {| sub_id := "s";
     counters :=
       increaseCurrentTick (increaseCurrentTick (increaseCurrentTick
         (increaseCurrentTick (increaseCurrentTick (increaseCurrentTick
           (Subscription.new three_ticks))))));
     timerId := 1;
     _pending_notifications := [];
     _sent_notifications :=
       [ mk_entry (a_message 1) 1 1; mk_entry (a_message 3) 3 3;
         mk_entry (a_message 2) 2 2; mk_entry (a_message 4) 9 4 ] |}.

End Publishing.

(* ================================================================== *)
(** ** Schemas *)
(* ================================================================== *)

Inductive Category : Type := basic | complex | enumeration.

(** [field.defaultValue]: a literal, or a function called to get the value. *)
Inductive default_value : Type :=
| Literal (v : value)
| Generator (g : unit -> value).

(** A resolved field descriptor.  [defaultValue = None] is a descriptor
    without the property ([field.hasOwnProperty("defaultValue")] is false);
    [Some (Literal VNull)] is [defaultValue: null]. *)
Record FieldDescriptor : Type := {
  f_name : string;
  fieldType : string;
  category : Category;
  isArray : bool;
  defaultValue : option default_value;
  f_decode : option (stream -> result (value * stream));
  f_documentation : option string
}.

(** A schema.  A hook is [None] when [_.isFunction] is false of it.  An
    [encode] hook answers the bytes it writes to the stream; a [decode] hook
    answers the filled object and the rest of the stream. *)
Record Schema : Type := {
  name : string;
  schema_id : option Z;
  baseType : option string;
  fields : list FieldDescriptor;
  generate_source : option string;
  construct_hook : option (value -> result value);
  encode : option (obj -> result stream);
  decode : option (obj -> stream -> result (obj * stream));
  decode_debug : option (obj -> stream -> result (obj * stream));
  isValid : option (obj -> bool);
  documentation : option string
}.

Definition RUNTIME_GENERATED_ID : Z := -1.

Record ExpandedNodeId : Type := {
  value_ : Z;
  namespace : Z
}.

(** Modelled from the spec: [ec.makeExpandedNodeId] (lib/misc/encode_decode),
    the composite discriminator made of a numeric id and a namespace index;
    a bare number is in namespace 0. *)
Definition makeExpandedNodeId (v : Z) (ns : Z) : ExpandedNodeId :=
  {| value_ := v; namespace := ns |}.

(** Modelled from the spec: [BaseUAObject] (lib/misc/factories_baseobject),
    the root of every inheritance chain.  It declares no field: its
    constructor, its [encode] and its [decode] do nothing. *)
Definition is_root (cls : string) : bool := String.eqb cls "BaseUAObject".
Arguments is_root : simpl never.

(** [schema.baseType || "BaseUAObject"] *)
Definition baseType_or_default (s : Schema) : string :=
  match baseType s with
  | Some b => if String.eqb b "" then "BaseUAObject" else b
  | None => "BaseUAObject"
  end.

(* ================================================================== *)
(** ** The emitted program *)
(* ================================================================== *)

(** One constructor per statement that [write_enumeration], [write_complex]
    and [write_basic] emit into the class constructor. *)
Inductive ctor_stmt : Type :=
| CtorInitField (member : string) (i : nat) (option_name : string)
    (* self.<member> = initialize_field(schema.fields[<i>], options.<name>); *)
| CtorInitFieldArray (member : string) (i : nat) (option_name : string)
    (* self.<member> = initialize_field_array(schema.fields[<i>], options.<name>); *)
| CtorComplexArray (member : string) (T : string) (has_default : bool)
    (* self.<member> = null;     (has_default)
       self.<member> = [];       (otherwise)
       if (options.<member>) {
           assert(_.isArray(options.<member>));
           self.<member> = options.<member>.map(function(e){ return new <T>(e); } );
       } *)
| CtorComplexNullable (member : string) (T : string)
    (* self.<member> = (options.<member>) ? new <T>( options.<member>) : null; *)
| CtorComplexNew (member : string) (T : string)
    (* self.<member> =  new <T>( options.<member>); *).

(** The statements of the emitted [encode]. *)
Inductive enc_stmt : Type :=
| EncBase (baseclass : string)
    (* <baseclass>.prototype.encode.call(this,stream,options); *)
| EncArray (member : string) (T : string)
    (* encodeArray(this.<member>, stream, encode_<T>); *)
| EncField (member : string) (T : string)
    (* encode_<T>(this.<member>,stream); *)
| EncArrayObj (member : string)
    (* encodeArray(this.<member>,stream,function(obj,stream){ obj.encode(stream,options); }); *)
| EncObj (member : string)
    (* this.<member>.encode(stream,options); *).

(** The statements of the emitted [decode]. *)
Inductive dec_stmt : Type :=
| DecBase (baseclass : string)
    (* <baseclass>.prototype.decode.call(this,stream,options); *)
| DecArray (member : string) (T : string)
    (* this.<member> = decodeArray(stream, decode_<T>); *)
| DecFieldHook (member : string) (i : nat)
    (* this.<member> = schema.fields[<i>].decode(stream,options); *)
| DecField (member : string) (T : string)
    (* this.<member> = decode_<T>(stream,options); *)
| DecArrayObj (member : string) (T : string)
    (* this.<member> = decodeArray(stream, function(stream) {
          var obj = new <T>(); obj.decode(stream,options); return obj; }); *)
| DecObj (member : string)
    (* this.<member>.decode(stream,options); *).

Inductive encode_body : Type :=
| EncodeHook                      (* schema.encode(this,stream,options); *)
| EncodeGenerated (stmts : list enc_stmt).

Inductive decode_body : Type :=
| DecodeHook                      (* schema.decode(this,stream,options); *)
| DecodeGenerated (stmts : list dec_stmt).

(** Where [encode_<T>] and [decode_<T>] of the emitted file come from. *)
Inductive binding : Type :=
| FromEnumerations                (* _enumerations.<T>.encode / .decode *)
| FromDefaultTypeMap              (* _defaultTypeMap.<T>.encode / .decode *).

(** The statement that sets [prototype.encodingDefaultBinary]. *)
Inductive id_stmt : Type :=
| IdRuntime
    (* schema.id = generate_new_id();
       <C>.prototype.encodingDefaultBinary = makeExpandedNodeId(schema.id); *)
| IdFixed (v : Z) (ns : Z)
    (* <C>.prototype.encodingDefaultBinary = makeExpandedNodeId(<v>,<ns>); *).

(** The emitted file. *)
Record GenModule : Type := {
  gm_classname : string;
  gm_baseclass : string;
  gm_schema : Schema;
  gm_requires : list (string * string);
  gm_enum_properties : list (string * string);
  gm_construct_hook : bool;
  gm_ctor : list ctor_stmt;
  gm_id : id_stmt;
  gm_xml_id : option ExpandedNodeId;
  gm_bindings : list (string * binding);
  gm_encode : encode_body;
  gm_decode : decode_body;
  gm_decode_debug : bool;
  gm_isValid : bool;
  gm_possibleFields : list string
}.

(** A class after its file was loaded: the emitted file, the identifier on
    its prototype, and the accessor properties an instance sees through the
    prototype chain (its own [_enum_properties], then those of the base
    classes). *)
Record LoadedClass : Type := {
  lc_module : GenModule;
  lc_encodingDefaultBinary : ExpandedNodeId;
  lc_accessors : list (string * string)
}.

Definition registry := list (string * LoadedClass).

(** The state around the generator: the type registry
    (lib/misc/factories_factories), the counter of [generate_new_id]
    (lib/misc/factories) and the files saved so far. *)
Record World : Type := {
  w_registry : registry;
  w_next_id : Z;
  w_files : list (string * GenModule)
}.

(* ================================================================== *)
(** ** Collaborators outside the generator *)
(* ================================================================== *)

(** An [{encode, decode}] pair of the built-in type table or of an
    enumeration.  [c_encode] answers the bytes written. *)
Record codec : Type := {
  c_encode : value -> result stream;
  c_decode : stream -> result (value * stream)
}.

(** An entry of [_enumerations]: the member table of its [typedEnum] and
    its codec. *)
Record EnumDef : Type := {
  members : list (string * Z);
  enum_codec : codec
}.

Record Externals : Type := {
  (* lib/opcua_node_ids: ObjectIds *)
  objectNodeIds : string -> option Z;
  (* exports.folder_for_generated_file *)
  folder_for_generated_file : string;
  (* lib/misc/factories_schema_helpers *)
  check_schema_correctness : option Schema -> result unit;
  resolve_schema_field_types : Schema -> result unit;
  initialize_field : FieldDescriptor -> value -> result value;
  initialize_field_array : FieldDescriptor -> value -> result value;
  doDebug : bool;
  check_options_correctness_against_schema : Schema -> value -> result unit;
  (* lib/misc/factories_builtin_types *)
  _defaultTypeMap : string -> option codec;
  (* lib/misc/factories_enumerations *)
  _enumerations : string -> option EnumDef;
  (* the element count of an array on the stream *)
  writeCount : nat -> result stream;
  readCount : stream -> result (nat * stream)
}.

(* ================================================================== *)
(** ** The generator *)
(* ================================================================== *)

Definition is_some {A : Type} (o : option A) : bool :=
  match o with Some _ => true | None => false end.

Definition set_baseType (s : Schema) (b : string) : Schema :=
  {| name := name s; schema_id := schema_id s; baseType := Some b;
     fields := fields s; generate_source := generate_source s;
     construct_hook := construct_hook s; encode := encode s;
     decode := decode s; decode_debug := decode_debug s;
     isValid := isValid s; documentation := documentation s |}.

Definition set_schema_id (s : Schema) (i : Z) : Schema :=
  {| name := name s; schema_id := Some i; baseType := baseType s;
     fields := fields s; generate_source := generate_source s;
     construct_hook := construct_hook s; encode := encode s;
     decode := decode s; decode_debug := decode_debug s;
     isValid := isValid s; documentation := documentation s |}.

(** Modelled from the spec: [getFactory] (lib/misc/factories_factories), the
    registry lookup that fails with NotFoundError when the name is absent. *)
Definition getFactory (reg : registry) (type_name : string) : result LoadedClass :=
  match assoc type_name reg with
  | Some lc => OK lc
  | None => Err (NotFoundError type_name)
  end.

(** [get_class_javascript_filename_local] *)
Definition get_class_javascript_filename_local
    (ext : Externals) (reg : registry) (schema_name : string) : result string :=
  lc <- getFactory reg schema_name ;;
  let default :=
    folder_for_generated_file ext ++ "/_auto_generated_" ++ schema_name ++ ".js" in
  OK (match generate_source (gm_schema (lc_module lc)) with
      | Some src => if String.eqb src "" then default else src
      | None => default
      end).

(** [complexTypes]: the complex fields of another type than the schema's. *)
Definition complexTypes (schema : Schema) : list FieldDescriptor :=
  filter (fun field =>
            match category field with
            | complex => negb (String.eqb (fieldType field) (name schema))
            | _ => false
            end) (fields schema).

(** The [complexTypes.forEach] loop: one [require] per file name. *)
Fixpoint complex_requires (ext : Externals) (reg : registry)
    (tmp_map : list string) (l : list FieldDescriptor) : result (list (string * string)) :=
  match l with
  | [] => OK []
  | field :: l' =>
      filename <- get_class_javascript_filename_local ext reg (fieldType field) ;;
      if existsb (String.eqb filename) tmp_map
      then complex_requires ext reg tmp_map l'
      else
        rest <- complex_requires ext reg (filename :: tmp_map) l' ;;
        OK ((fieldType field, filename) :: rest)
  end.

(** [write_enumeration_define]: the accessor property [member] over
    [_enumerations.<fieldType>.typedEnum], with its hidden slot
    ["$" + member]. *)
Definition write_enumeration_define (field : FieldDescriptor) (member : string)
  : result (string * string) :=
  if isArray field then Err (AssertionError "!field.isArray")
  else OK (member, fieldType field).

(** [_enum_properties]: [write_enumeration_define] for every enumeration
    field. *)
Fixpoint enum_properties (l : list FieldDescriptor) : result (list (string * string)) :=
  match l with
  | [] => OK []
  | field :: l' =>
      match category field with
      | enumeration =>
          p <- write_enumeration_define field (f_name field) ;;
          rest <- enum_properties l' ;;
          OK (p :: rest)
      | _ => enum_properties l'
      end
  end.

Definition write_enumeration (field : FieldDescriptor) (member : string) (i : nat)
  : result ctor_stmt :=
  if isArray field then Err (AssertionError "!field.isArray")
  else OK (CtorInitField member i (f_name field)).

Definition defaultValue_is_null (field : FieldDescriptor) : bool :=
  match defaultValue field with
  | Some (Literal VNull) => true
  | _ => false
  end.

Definition write_complex (schema : Schema) (field : FieldDescriptor) (member : string)
  : ctor_stmt :=
  if isArray field then
    CtorComplexArray member (fieldType field) (is_some (defaultValue field))
  else if defaultValue_is_null field || String.eqb (fieldType field) (name schema) then
    CtorComplexNullable member (fieldType field)
  else
    CtorComplexNew member (fieldType field).

Definition write_basic (field : FieldDescriptor) (member : string) (i : nat)
  : result ctor_stmt :=
  match category field with
  | basic =>
      if isArray field then OK (CtorInitFieldArray member i (f_name field))
      else OK (CtorInitField member i (f_name field))
  | _ => Err (AssertionError "field.category === basic")
  end.

(** The statement of the constructor for field [i]. *)
Definition ctor_stmt_of (schema : Schema) (i : nat) (field : FieldDescriptor)
  : result ctor_stmt :=
  match category field with
  | enumeration => write_enumeration field (f_name field) i
  | complex => OK (write_complex schema field (f_name field))
  | basic => write_basic field (f_name field) i
  end.

(** [for (i = 0; i < n; i++)] over the fields, with a body that may throw. *)
Fixpoint for_fields {A : Type} (body : nat -> FieldDescriptor -> result A)
    (i : nat) (l : list FieldDescriptor) : result (list A) :=
  match l with
  | [] => OK []
  | field :: l' =>
      a <- body i field ;;
      rest <- for_fields body (S i) l' ;;
      OK (a :: rest)
  end.

(** The [done] loop: [var encode_<T>] and [var decode_<T>], once per field
    type, from the category of the first field of that type. *)
Fixpoint codec_bindings (done : list string) (l : list FieldDescriptor)
  : list (string * binding) :=
  match l with
  | [] => []
  | field :: l' =>
      if existsb (String.eqb (fieldType field)) done
      then codec_bindings done l'
      else
        let done' := fieldType field :: done in
        match category field with
        | enumeration => (fieldType field, FromEnumerations) :: codec_bindings done' l'
        | complex => codec_bindings done' l'
        | basic => (fieldType field, FromDefaultTypeMap) :: codec_bindings done' l'
        end
  end.

(** The names that every object inherits from [Object.prototype]:
    [fieldType in done] answers true for them from the start. *)
Definition Object_prototype : list string :=
  ["constructor"; "hasOwnProperty"; "isPrototypeOf"; "propertyIsEnumerable";
   "toLocaleString"; "toString"; "valueOf"; "__proto__";
   "__defineGetter__"; "__defineSetter__"; "__lookupGetter__"; "__lookupSetter__"].

(** The codec that the first field of type [T] asks for. *)
Definition first_binding (T : string) (l : list FieldDescriptor) : option binding :=
  match find (fun field => String.eqb (fieldType field) T) l with
  | Some field =>
      match category field with
      | enumeration => Some FromEnumerations
      | basic => Some FromDefaultTypeMap
      | complex => None
      end
  | None => None
  end.

(** The statement of the emitted [encode] for a field. *)
Definition encode_stmt_of (field : FieldDescriptor) : enc_stmt :=
  match category field with
  | enumeration | basic =>
      if isArray field then EncArray (f_name field) (fieldType field)
      else EncField (f_name field) (fieldType field)
  | complex =>
      if isArray field then EncArrayObj (f_name field)
      else EncObj (f_name field)
  end.

(** [var is_complex_type;] is declared in [produce_code] and never assigned. *)
Definition is_complex_type : bool := false.

(** The statement of the emitted [decode] for field [i]. *)
Definition decode_stmt_of (i : nat) (field : FieldDescriptor) : dec_stmt :=
  match category field with
  | enumeration | basic =>
      if isArray field then DecArray (f_name field) (fieldType field)
      else if is_complex_type then DecObj (f_name field)
      else if is_some (f_decode field) then DecFieldHook (f_name field) i
      else DecField (f_name field) (fieldType field)
  | complex =>
      if isArray field then DecArrayObj (f_name field) (fieldType field)
      else DecObj (f_name field)
  end.

(** [decode_stmt_of] over the fields, with their indices. *)
Fixpoint decode_stmts (i : nat) (l : list FieldDescriptor) : list dec_stmt :=
  match l with
  | [] => []
  | field :: l' => decode_stmt_of i field :: decode_stmts (S i) l'
  end.




(** The binary and xml identifiers: [schema.id], or the catalog entries. *)
Definition resolve_encoding_ids (ext : Externals) (schema : Schema)
  : result (Z * option Z) :=
  let '(encoding_BinaryId, encoding_XmlId) :=
    match schema_id schema with
    | None => (objectNodeIds ext (name schema ++ "_Encoding_DefaultBinary"),
               objectNodeIds ext (name schema ++ "_Encoding_DefaultXml"))
    | Some i => (Some i, None)
    end in
  match encoding_BinaryId with
  | Some b =>
      if b =? 0 then Err (NoEncodingDefaultBinary (name schema))
      else OK (b, encoding_XmlId)
  | None => Err (NoEncodingDefaultBinary (name schema))
  end.

(** Modelled from the spec: [extract_all_fields]
    (lib/misc/factories_schema_helpers), the flattened list of field names,
    inherited ones first. *)
Definition extract_all_fields (reg : registry) (schema : Schema) : list string :=
  match assoc (baseType_or_default schema) reg with
  | Some lc => gm_possibleFields (lc_module lc)
  | None => []
  end ++ map f_name (fields schema).

(** What [produce_code] has computed when it reaches the section
    "implement encode": the schema with its base type set, the identifiers,
    the [require]s, the accessor properties and the constructor. *)
Record Head : Type := {
  h_schema : Schema;
  h_encoding_BinaryId : Z;
  h_encodingXmlNodeId : option ExpandedNodeId;
  h_requires : list (string * string);
  h_enum_properties : list (string * string);
  h_ctor : list ctor_stmt
}.

(** [produce_code] from its first statement to the constructor, with the
    errors it throws on the way.  The documentation comments it writes are
    left out. *)
Definition produce_code_head (ext : Externals) (reg : registry)
    (required_schema : option Schema) (schema_name : string) : result Head :=
  _ <- check_schema_correctness ext required_schema ;;
  match required_schema with
  | None => Err (CannotFindSchema schema_name)
  | Some schema0 =>
      (* check the id of the object binary encoding *)
      '(encoding_BinaryId, encoding_XmlId) <- resolve_encoding_ids ext schema0 ;;
      let encodingXmlNodeId :=
        match encoding_XmlId with
        | Some x => if x =? 0 then None else Some (makeExpandedNodeId x 0)
        | None => None
        end in
      let baseclass := baseType_or_default schema0 in
      let schema := set_baseType schema0 baseclass in
      _ <- resolve_schema_field_types ext schema ;;
      (* definition of complex type used by this class *)
      requires <- complex_requires ext reg [] (complexTypes schema) ;;
      (* definition of base class *)
      base_require <-
        (if String.eqb baseclass "BaseUAObject" then OK []
         else
           filename <- get_class_javascript_filename_local ext reg baseclass ;;
           OK [(baseclass, filename)]) ;;
      (* class enumeration properties *)
      enum_props <- enum_properties (fields schema) ;;
      (* class constructor *)
      ctor <- for_fields (ctor_stmt_of schema) 0 (fields schema) ;;
      OK {| h_schema := schema;
            h_encoding_BinaryId := encoding_BinaryId;
            h_encodingXmlNodeId := encodingXmlNodeId;
            h_requires := (requires ++ base_require)%list;
            h_enum_properties := enum_props;
            h_ctor := ctor |}
  end.

(** [produce_code] from "encodingDefaultBinary" to the end: the file it has
    in its [LineFile] when it reaches [f.save], or the error it throws. *)
Definition produce_code_tail (reg : registry) (h : Head) : result GenModule :=
  let schema := h_schema h in
  let baseclass := baseType_or_default schema in
  (* encodingDefaultBinary *)
  let idst :=
    if h_encoding_BinaryId h =? RUNTIME_GENERATED_ID then IdRuntime
    else IdFixed (h_encoding_BinaryId h) 0 in
  (* encoder and decoder func for basic type that we need *)
  let bindings := codec_bindings [] (fields schema) in
  (* implement encode *)
  let enc :=
    if is_some (encode schema) then EncodeHook
    else EncodeGenerated (EncBase baseclass :: map encode_stmt_of (fields schema)) in
  (* implement decode *)
  dec <-
    (if is_some (decode schema) then
       if is_some (decode_debug schema) then OK (DecodeHook, true)
       else Err (DecodeRequiresDecodeDebug (name schema))
     else
       OK (DecodeGenerated (DecBase baseclass :: decode_stmts 0 (fields schema)),
           false)) ;;
  OK {| gm_classname := name schema;
        gm_baseclass := baseclass;
        gm_schema := schema;
        gm_requires := h_requires h;
        gm_enum_properties := h_enum_properties h;
        gm_construct_hook := is_some (construct_hook schema);
        gm_ctor := h_ctor h;
        gm_id := idst;
        gm_xml_id := h_encodingXmlNodeId h;
        gm_bindings := bindings;
        gm_encode := enc;
        gm_decode := fst dec;
        gm_decode_debug := snd dec;
        gm_isValid := is_some (isValid schema);
        gm_possibleFields := extract_all_fields reg schema |}.

Definition produce_code_file (ext : Externals) (reg : registry)
    (required_schema : option Schema) (schema_name : string) : result GenModule :=
  h <- produce_code_head ext reg required_schema schema_name ;;
  produce_code_tail reg h.

(** [f.save(source_file)] *)
Definition save (source_file : string) (f : GenModule) (w : World) : World :=
  {| w_registry := w_registry w;
     w_next_id := w_next_id w;
     w_files := assoc_set source_file f (w_files w) |}.

(** [produce_code(schema_file, schema_name, source_file)]: the schema is
    what [require(schema_file)[schema_name]] gives; the file is saved when
    nothing was thrown. *)
Definition produce_code (ext : Externals) (required_schema : option Schema)
    (schema_name : string) (source_file : string) (w : World) : result unit * World :=
  match produce_code_file ext (w_registry w) required_schema schema_name with
  | OK f => (OK tt, save source_file f w)
  | Err e => (Err e, w)
  end.

(* ================================================================== *)
(** ** Loading an emitted file *)
(* ================================================================== *)

(** Modelled from the spec: [generate_new_id] (lib/misc/factories), the
    single monotonically increasing process-wide counter. *)
Definition generate_new_id (w : World) : Z * World :=
  let n := w_next_id w + 1 in
  (n, {| w_registry := w_registry w; w_next_id := n; w_files := w_files w |}).

Definition category_eqb (a b : Category) : bool :=
  match a, b with
  | basic, basic | complex, complex | enumeration, enumeration => true
  | _, _ => false
  end.

Definition same_field (a b : FieldDescriptor) : bool :=
  String.eqb (f_name a) (f_name b) && String.eqb (fieldType a) (fieldType b)
  && category_eqb (category a) (category b) && Bool.eqb (isArray a) (isArray b).

Fixpoint same_fields (l1 l2 : list FieldDescriptor) : bool :=
  match l1, l2 with
  | [], [] => true
  | a :: l1', b :: l2' => same_field a b && same_fields l1' l2'
  | _, _ => false
  end.

Definition same_definition (a b : LoadedClass) : bool :=
  String.eqb (gm_classname (lc_module a)) (gm_classname (lc_module b))
  && String.eqb (gm_baseclass (lc_module a)) (gm_baseclass (lc_module b))
  && same_fields (fields (gm_schema (lc_module a))) (fields (gm_schema (lc_module b))).

(** Modelled from the spec: [register_class_definition]
    (lib/misc/factories_factories): a no-op when the same definition is
    registered under the name, ConflictError when a different one is.  Two
    definitions are taken as the same when they have the same class name,
    base and field layout. *)
Definition register_class_definition (classname : string) (c : LoadedClass)
    (w : World) : result unit * World :=
  match assoc classname (w_registry w) with
  | Some c' =>
      if same_definition c c' then (OK tt, w)
      else (Err (ConflictError classname), w)
  | None =>
      (OK tt, {| w_registry := (w_registry w ++ [(classname, c)])%list;
                 w_next_id := w_next_id w;
                 w_files := w_files w |})
  end.

(** [var encode_<T> = _enumerations.<T>.encode;] and the like throw a
    TypeError when the table has no [<T>]. *)
Definition binding_resolves (ext : Externals) (b : string * binding) : bool :=
  match snd b with
  | FromEnumerations => is_some (_enumerations ext (fst b))
  | FromDefaultTypeMap => is_some (_defaultTypeMap ext (fst b))
  end.

(** The statements at the top level of the emitted file, run once when the
    file is first required: the inheritance chain, the accessor properties,
    [encodingDefaultBinary], the codec variables and the registration. *)
Definition load_module (ext : Externals) (f : GenModule) (w : World)
  : result unit * World :=
  match
    (if String.eqb (gm_baseclass f) "BaseUAObject" then OK []
     else lc <- getFactory (w_registry w) (gm_baseclass f) ;; OK (lc_accessors lc))
  with
  | Err e => (Err e, w)
  | OK inherited =>
      let '(encodingDefaultBinary, schema, w1) :=
        match gm_id f with
        | IdRuntime =>
            let '(new_id, w1) := generate_new_id w in
            (makeExpandedNodeId new_id 0, set_schema_id (gm_schema f) new_id, w1)
        | IdFixed v ns => (makeExpandedNodeId v ns, gm_schema f, w)
        end in
      if forallb (binding_resolves ext) (gm_bindings f) then
        register_class_definition (gm_classname f)
          {| lc_module :=
               {| gm_classname := gm_classname f;
                  gm_baseclass := gm_baseclass f;
                  gm_schema := schema;
                  gm_requires := gm_requires f;
                  gm_enum_properties := gm_enum_properties f;
                  gm_construct_hook := gm_construct_hook f;
                  gm_ctor := gm_ctor f;
                  gm_id := gm_id f;
                  gm_xml_id := gm_xml_id f;
                  gm_bindings := gm_bindings f;
                  gm_encode := gm_encode f;
                  gm_decode := gm_decode f;
                  gm_decode_debug := gm_decode_debug f;
                  gm_isValid := gm_isValid f;
                  gm_possibleFields := gm_possibleFields f |};
             lc_encodingDefaultBinary := encodingDefaultBinary;
             lc_accessors := (rev (gm_enum_properties f) ++ inherited)%list |}
          w1
      else (Err (TypeError "Cannot read property 'encode' of undefined"), w1)
  end.

(* ================================================================== *)
(** ** Running the emitted program *)
(* ================================================================== *)

(** Modelled from the spec: [typedEnum.get] of the enumeration library
    behind [_enumerations]: the lookup of a raw value (symbolic name,
    numeric ordinal, or canonical member) in the member table. *)
Definition typedEnum_get (table : list (string * Z)) (raw : value) : option (string * Z) :=
  match raw with
  | VStr s => find (fun m => String.eqb (fst m) s) table
  | VNum n => find (fun m => snd m =? n) table
  | VEnum k n => find (fun m => String.eqb (fst m) k && (snd m =? n)) table
  | _ => None
  end.

Fixpoint mapM {A B : Type} (f : A -> result B) (l : list A) : result (list B) :=
  match l with
  | [] => OK []
  | a :: l' => b <- f a ;; rest <- mapM f l' ;; OK (b :: rest)
  end.

(** The bytes written by a sequence of writes. *)
Fixpoint concatM {A : Type} (f : A -> result stream) (l : list A) : result stream :=
  match l with
  | [] => OK []
  | a :: l' => bs <- f a ;; rest <- concatM f l' ;; OK (bs ++ rest)%list
  end.

Fixpoint decode_elements (decode_element : stream -> result (value * stream))
    (n : nat) (s : stream) : result (list value * stream) :=
  match n with
  | O => OK ([], s)
  | S n' =>
      '(v, s1) <- decode_element s ;;
      '(vs, s2) <- decode_elements decode_element n' s1 ;;
      OK (v :: vs, s2)
  end.

Section Runtime.

Variable ext : Externals.
Variable reg : registry.

(** The hidden slot of an enumeration member. *)
Definition hidden (member : string) : string := "$" ++ member.

(** The accessor property that [this.<member>] finds on the prototype
    chain of [o], if any: the enumeration type it coerces to. *)
Definition accessor_of (o : obj) (member : string) : option string :=
  match assoc (obj_class o) reg with
  | Some lc => assoc member (lc_accessors lc)
  | None => None
  end.

(** The own property behind [this.<member>]. *)
Definition member_slot (o : obj) (member : string) : string :=
  match accessor_of o member with
  | Some _ => hidden member
  | None => member
  end.

(** [this.<member>]: the getter [return this.$<member>;] when the member
    is an accessor property (the prototype holds ['aaaa'] in the slot
    until the setter ran), the own property otherwise. *)
Definition get_member (o : obj) (member : string) : value :=
  match accessor_of o member with
  | Some _ =>
      match assoc (hidden member) (obj_props o) with
      | Some v => v
      | None => VStr "aaaa"
      end
  | None => raw_get o member
  end.

(** [this.<member> = value]: the setter of [write_enumeration_define]
    when the member is an accessor property, a plain store otherwise. *)
Definition set_member (o : obj) (member : string) (v : value) : result obj :=
  match accessor_of o member with
  | Some T =>
      match _enumerations ext T with
      | None => Err (TypeError "Cannot read property 'typedEnum' of undefined")
      | Some d =>
          match typedEnum_get (members d) v with
          | Some (key, ordinal) => OK (raw_set o (hidden member) (VEnum key ordinal))
          | None => Err (CannotCoerce T v)
          end
      end
  | None => OK (raw_set o member v)
  end.

(** [v.<k>] for any value [v]. *)
Definition get_prop (v : value) (k : string) : result value :=
  match v with
  | VUndefined | VNull => Err (TypeError "Cannot read property of undefined")
  | VObj o => OK (get_member o k)
  | VArr l => OK (if String.eqb k "length" then VNum (Z.of_nat (List.length l)) else VUndefined)
  | VStr s => OK (if String.eqb k "length" then VNum (Z.of_nat (String.length s)) else VUndefined)
  | VEnum key ordinal =>
      OK (if String.eqb k "key" then VStr key
          else if String.eqb k "value" then VNum ordinal else VUndefined)
  | VNum _ => OK VUndefined
  end.

(** Modelled from the spec: [encodeArray] (lib/misc/encode_decode), the
    shared array framing: the element count, then each element. *)
Definition encodeArray (arr : value) (encode_element : value -> result stream)
  : result stream :=
  match arr with
  | VArr l =>
      count <- writeCount ext (List.length l) ;;
      body <- concatM encode_element l ;;
      OK (count ++ body)%list
  | _ => Err (TypeError "encodeArray: not a sequence")
  end.

(** Modelled from the spec: [decodeArray] (lib/misc/encode_decode): read
    the count, then decode that many elements into a new sequence. *)
Definition decodeArray (s : stream) (decode_element : stream -> result (value * stream))
  : result (value * stream) :=
  '(n, s1) <- readCount ext s ;;
  '(vs, s2) <- decode_elements decode_element n s1 ;;
  OK (VArr vs, s2).

(** The codec behind [encode_<T>] and [decode_<T>] in a class. *)
Definition bound_codec (bindings : list (string * binding)) (T : string) : result codec :=
  match assoc T bindings with
  | Some FromEnumerations =>
      match _enumerations ext T with
      | Some d => OK (enum_codec d)
      | None => Err (TypeError "Cannot read property 'encode' of undefined")
      end
  | Some FromDefaultTypeMap =>
      match _defaultTypeMap ext T with
      | Some c => OK c
      | None => Err (TypeError "Cannot read property 'encode' of undefined")
      end
  | None => Err (ReferenceError ("encode_" ++ T))
  end.

Definition class_of (cls : string) : result LoadedClass :=
  match assoc cls reg with
  | Some lc => OK lc
  | None => Err (TypeError (cls ++ " is not a constructor"))
  end.

Definition schema_field (schema : Schema) (i : nat) : result FieldDescriptor :=
  match nth_error (fields schema) i with
  | Some field => OK field
  | None => Err (TypeError "schema.fields[i] is undefined")
  end.

(** *** The constructor *)

Definition exec_ctor_stmt (new : string -> value -> result obj)
    (schema : Schema) (options : value) (self : obj) (st : ctor_stmt) : result obj :=
  match st with
  | CtorInitField member i option_name =>
      field <- schema_field schema i ;;
      opt <- get_prop options option_name ;;
      v <- initialize_field ext field opt ;;
      set_member self member v
  | CtorInitFieldArray member i option_name =>
      field <- schema_field schema i ;;
      opt <- get_prop options option_name ;;
      v <- initialize_field_array ext field opt ;;
      set_member self member v
  | CtorComplexArray member T has_default =>
      self1 <- set_member self member (if has_default then VNull else VArr []) ;;
      opt <- get_prop options member ;;
      if truthy opt then
        match opt with
        | VArr l =>
            elements <- mapM (fun e => o <- new T e ;; OK (VObj o)) l ;;
            set_member self1 member (VArr elements)
        | _ => Err (AssertionError "_.isArray(options.member)")
        end
      else OK self1
  | CtorComplexNullable member T =>
      opt <- get_prop options member ;;
      v <- (if truthy opt then o <- new T opt ;; OK (VObj o) else OK VNull) ;;
      set_member self member v
  | CtorComplexNew member T =>
      opt <- get_prop options member ;;
      o <- new T opt ;;
      set_member self member (VObj o)
  end.

(** The body of [function <cls>(options)] run on [this]; the constructor
    of the root [BaseUAObject] leaves [this] as it is.  [fuel] bounds the
    depth of nested constructor calls. *)
Fixpoint construct (fuel : nat) (cls : string) (this : obj) (options : value)
  : result obj :=
  match fuel with
  | O => Err OutOfFuel
  | S fuel' =>
      if is_root cls then OK this
      else
        lc <- class_of cls ;;
        let f := lc_module lc in
        let options := if truthy options then options else VObj (Obj "Object" []) in
        _ <- (if doDebug ext
              then check_options_correctness_against_schema ext (gm_schema f) options
              else OK tt) ;;
        _ <- resolve_schema_field_types ext (gm_schema f) ;;
        options <-
          (if gm_construct_hook f then
             match construct_hook (gm_schema f) with
             | Some hook => hook options
             | None => Err (TypeError "schema.construct_hook is not a function")
             end
           else OK options) ;;
        this1 <- construct fuel' (gm_baseclass f) this options ;;
        foldM (exec_ctor_stmt (fun T o => construct fuel' T (Obj T []) o)
                 (gm_schema f) options)
              (gm_ctor f) this1
  end.

(** [new <cls>(options)] *)
Definition new_instance (fuel : nat) (cls : string) (options : value) : result obj :=
  construct fuel cls (Obj cls []) options.

(** *** encode *)

(** [v.encode(stream,options)] *)
Definition call_encode (encode_obj : obj -> result stream) (v : value) : result stream :=
  match v with
  | VObj o => encode_obj o
  | VUndefined | VNull => Err (TypeError "Cannot read property 'encode' of null")
  | _ => Err (TypeError "encode is not a function")
  end.

Definition exec_enc_stmt (encode_obj : obj -> result stream)
    (encode_base : string -> result stream)
    (bindings : list (string * binding)) (this : obj) (st : enc_stmt) : result stream :=
  match st with
  | EncBase baseclass => encode_base baseclass
  | EncArray member T =>
      c <- bound_codec bindings T ;;
      encodeArray (get_member this member) (c_encode c)
  | EncField member T =>
      c <- bound_codec bindings T ;;
      c_encode c (get_member this member)
  | EncArrayObj member =>
      encodeArray (get_member this member) (call_encode encode_obj)
  | EncObj member =>
      call_encode encode_obj (get_member this member)
  end.

(** [<cls>.prototype.encode.call(this,stream,options)]: the bytes written.
    The root [BaseUAObject] writes nothing. *)
Fixpoint encode_method (fuel : nat) (cls : string) (this : obj) : result stream :=
  match fuel with
  | O => Err OutOfFuel
  | S fuel' =>
      if is_root cls then OK []
      else
        lc <- class_of cls ;;
        let f := lc_module lc in
        match gm_encode f with
        | EncodeHook =>
            match encode (gm_schema f) with
            | Some hook => hook this
            | None => Err (TypeError "schema.encode is not a function")
            end
        | EncodeGenerated stmts =>
            concatM (exec_enc_stmt
                       (fun o => encode_method fuel' (obj_class o) o)
                       (fun b => encode_method fuel' b this)
                       (gm_bindings f) this)
                    stmts
        end
  end.

(** [o.encode(stream)] *)
Definition encode_instance (fuel : nat) (o : obj) : result stream :=
  encode_method fuel (obj_class o) o.

(** *** decode *)

Definition exec_dec_stmt (decode_obj : obj -> stream -> result (obj * stream))
    (decode_base : string -> obj -> stream -> result (obj * stream))
    (new : string -> result obj)
    (schema : Schema) (bindings : list (string * binding))
    (st : dec_stmt) (state : obj * stream) : result (obj * stream) :=
  let '(this, s) := state in
  match st with
  | DecBase baseclass => decode_base baseclass this s
  | DecArray member T =>
      c <- bound_codec bindings T ;;
      '(v, s1) <- decodeArray s (c_decode c) ;;
      this1 <- set_member this member v ;;
      OK (this1, s1)
  | DecFieldHook member i =>
      field <- schema_field schema i ;;
      match f_decode field with
      | Some hook =>
          '(v, s1) <- hook s ;;
          this1 <- set_member this member v ;;
          OK (this1, s1)
      | None => Err (TypeError "schema.fields[i].decode is not a function")
      end
  | DecField member T =>
      c <- bound_codec bindings T ;;
      '(v, s1) <- c_decode c s ;;
      this1 <- set_member this member v ;;
      OK (this1, s1)
  | DecArrayObj member T =>
      '(v, s1) <- decodeArray s
                    (fun s0 =>
                       o <- new T ;;
                       '(o1, s1) <- decode_obj o s0 ;;
                       OK (VObj o1, s1)) ;;
      this1 <- set_member this member v ;;
      OK (this1, s1)
  | DecObj member =>
      match get_member this member with
      | VObj o =>
          '(o1, s1) <- decode_obj o s ;;
          OK (raw_set this (member_slot this member) (VObj o1), s1)
      | VUndefined | VNull => Err (TypeError "Cannot read property 'decode' of null")
      | _ => Err (TypeError "decode is not a function")
      end
  end.

(** [<cls>.prototype.decode.call(this,stream,options)]: [this] after the
    call and the rest of the stream.  The nested object that
    [this.<member>.decode(...)] fills in place is put back in the slot it
    was read from.  The root [BaseUAObject] reads nothing. *)
Fixpoint decode_method (fuel : nat) (cls : string) (this : obj) (s : stream)
  : result (obj * stream) :=
  match fuel with
  | O => Err OutOfFuel
  | S fuel' =>
      if is_root cls then OK (this, s)
      else
        lc <- class_of cls ;;
        let f := lc_module lc in
        match gm_decode f with
        | DecodeHook =>
            match decode (gm_schema f) with
            | Some hook => hook this s
            | None => Err (TypeError "schema.decode is not a function")
            end
        | DecodeGenerated stmts =>
            foldM (fun state st =>
                     exec_dec_stmt
                       (fun o s0 => decode_method fuel' (obj_class o) o s0)
                       (fun b o s0 => decode_method fuel' b o s0)
                       (fun T => construct fuel' T (Obj T []) VUndefined)
                       (gm_schema f) (gm_bindings f) st state)
                  stmts (this, s)
        end
  end.

(** [o.decode(stream)] *)
Definition decode_instance (fuel : nat) (o : obj) (s : stream) : result (obj * stream) :=
  decode_method fuel (obj_class o) o s.

(** [o.encodingDefaultBinary], found on the prototype of the class of [o]. *)
Definition encodingDefaultBinary (o : obj) : option ExpandedNodeId :=
  match assoc (obj_class o) reg with
  | Some lc => Some (lc_encodingDefaultBinary lc)
  | None => None
  end.

End Runtime.

(* ================================================================== *)
(** ** A small installation, for concrete runs *)
(* ================================================================== *)

Module Sample.

(** A one-byte codec for the numbers 0..255, standing for the built-in
    types ["Byte"] and ["Boolean"]. *)
Definition byte_encode (v : value) : result stream :=
  match v with
  | VNum n =>
      if n <? 0 then Err (ExternalError "out of range")
      else match Byte.of_N (Z.to_N n) with
           | Some b => OK [b]
           | None => Err (ExternalError "out of range")
           end
  | _ => Err (ExternalError "not a number")
  end.

Definition byte_decode (s : stream) : result (value * stream) :=
  match s with
  | b :: rest => OK (VNum (Z.of_N (Byte.to_N b)), rest)
  | [] => Err (ExternalError "end of stream")
  end.

Definition byte_codec : codec :=
  {| c_encode := byte_encode; c_decode := byte_decode |}.

Definition Color : list (string * Z) := [("RED", 0); ("GREEN", 1); ("BLUE", 2)].

(** An enumeration codec: the ordinal of a canonical member on one byte. *)
Definition enum_encode (table : list (string * Z)) (v : value) : result stream :=
  match v with
  | VEnum k n =>
      match typedEnum_get table (VEnum k n), typedEnum_get table (VNum n) with
      | Some (k1, n1), Some (k2, n2) =>
          if String.eqb k1 k2 then byte_encode (VNum n)
          else Err (ExternalError "not a member")
      | _, _ => Err (ExternalError "not a member")
      end
  | _ => Err (ExternalError "not a member")
  end.

Definition enum_decode (table : list (string * Z)) (s : stream) : result (value * stream) :=
  match s with
  | b :: rest =>
      match typedEnum_get table (VNum (Z.of_N (Byte.to_N b))) with
      | Some (k, n) => OK (VEnum k n, rest)
      | None => Err (ExternalError "not a member")
      end
  | [] => Err (ExternalError "end of stream")
  end.

Definition Color_def : EnumDef :=
  {| members := Color;
     enum_codec := {| c_encode := enum_encode Color; c_decode := enum_decode Color |} |}.

Definition default_of (field : FieldDescriptor) (fallback : value) : value :=
  match defaultValue field with
  | Some (Literal v) => v
  | Some (Generator g) => g tt
  | None => fallback
  end.

(** Stand-ins for [initialize_field] and [initialize_field_array]: the
    supplied value, or the default of the field, or zero (the empty
    sequence for an array). *)
Definition sample_initialize_field (field : FieldDescriptor) (v : value) : result value :=
  match v with
  | VUndefined => OK (default_of field (VNum 0))
  | _ => OK v
  end.

Definition sample_initialize_field_array (field : FieldDescriptor) (v : value)
  : result value :=
  match v with
  | VUndefined | VNull => OK (default_of field (VArr []))
  | VArr l => OK (VArr l)
  | _ => Err (AssertionError "_.isArray(valueArray)")
  end.

Definition sample_writeCount (n : nat) : result stream :=
  byte_encode (VNum (Z.of_nat n)).

Definition sample_readCount (s : stream) : result (nat * stream) :=
  match s with
  | b :: rest => OK (N.to_nat (Byte.to_N b), rest)
  | [] => Err (ExternalError "end of stream")
  end.

Definition ext : Externals :=
  {| objectNodeIds := fun k =>
       if String.eqb k "Point_Encoding_DefaultBinary" then Some 100
       else if String.eqb k "Point_Encoding_DefaultXml" then Some 101
       else None;
     folder_for_generated_file := "_generated_";
     check_schema_correctness := fun _ => OK tt;
     resolve_schema_field_types := fun _ => OK tt;
     initialize_field := sample_initialize_field;
     initialize_field_array := sample_initialize_field_array;
     doDebug := false;
     check_options_correctness_against_schema := fun _ _ => OK tt;
     _defaultTypeMap := fun T =>
       if String.eqb T "Byte" then Some byte_codec
       else if String.eqb T "Boolean" then Some byte_codec
       else None;
     _enumerations := fun T =>
       if String.eqb T "Color" then Some Color_def else None;
     writeCount := sample_writeCount;
     readCount := sample_readCount |}.

Definition field (n T : string) (c : Category) (arr : bool) : FieldDescriptor :=
  {| f_name := n; fieldType := T; category := c; isArray := arr;
     defaultValue := None; f_decode := None; f_documentation := None |}.

Definition with_default (f : FieldDescriptor) (d : default_value) : FieldDescriptor :=
  {| f_name := f_name f; fieldType := fieldType f; category := category f;
     isArray := isArray f; defaultValue := Some d; f_decode := f_decode f;
     f_documentation := f_documentation f |}.

Definition schema (n : string) (i : option Z) (b : option string)
    (fs : list FieldDescriptor) : Schema :=
  {| name := n; schema_id := i; baseType := b; fields := fs;
     generate_source := None; construct_hook := None; encode := None;
     decode := None; decode_debug := None; isValid := None;
     documentation := None |}.

Definition empty_world : World :=
  {| w_registry := []; w_next_id := 4294836224; w_files := [] |}.

(** [produce_code] on a schema, then the load of the saved file. *)
Definition compile (s : Schema) (w : World) : result unit * World :=
  let file := ("_auto_generated_" ++ name s ++ ".js")%string in
  match produce_code ext (Some s) (name s ++ "_Schema") file w with
  | (OK _, w1) =>
      match assoc file (w_files w1) with
      | Some f => load_module ext f w1
      | None => (Err (ExternalError "file not found"), w1)
      end
  | r => r
  end.

Fixpoint compile_all (l : list Schema) (w : World) : result unit * World :=
  match l with
  | [] => (OK tt, w)
  | s :: l' =>
      match compile s w with
      | (OK _, w1) => compile_all l' w1
      | r => r
      end
  end.

(** Point: two bytes; the identifier comes from the catalog. *)
Definition Point_Schema : Schema :=
  schema "Point" None None [field "x" "Byte" basic false; field "y" "Byte" basic false].

(** Shape: a colour, an origin, a list of bytes and a list of points. *)
Definition Shape_Schema : Schema :=
  schema "Shape" (Some 200) None
    [field "color" "Color" enumeration false;
     field "origin" "Point" complex false;
     field "tags" "Byte" basic true;
     field "outline" "Point" complex true].

(** Two levels of inheritance over Shape. *)
Definition Label_Schema : Schema :=
  schema "Label" (Some 201) (Some "Shape") [field "visible" "Boolean" basic false].

Definition Badge_Schema : Schema :=
  schema "Badge" (Some RUNTIME_GENERATED_ID) (Some "Label")
    [field "rank" "Byte" basic false].

(** A self-referential type: its [next] member is nullable. *)
Definition Node_Schema : Schema :=
  schema "Node" (Some 300) None
    [field "payload" "Byte" basic false; field "next" "Node" complex false].

(** A complex array with a generator default. *)
Definition Path_Schema : Schema :=
  schema "Path" (Some 301) None
    [with_default (field "points" "Point" complex true) (Generator (fun _ => VArr []))].

(** A schema with a custom [encode] and nothing else. *)
Definition Sealed_Schema : Schema :=
  {| name := "Sealed"; schema_id := Some 302; baseType := None;
     fields := [field "payload" "Byte" basic false];
     generate_source := None; construct_hook := None;
     encode := Some (fun _ => OK []);
     decode := None; decode_debug := None; isValid := None;
     documentation := None |}.

(** A schema with a custom [decode] and no [decode_debug]. *)
Definition Silent_Schema : Schema :=
  {| name := "Silent"; schema_id := Some 303; baseType := None;
     fields := [field "payload" "Byte" basic false];
     generate_source := None; construct_hook := None;
     encode := None;
     decode := Some (fun o s => OK (o, s)); decode_debug := None;
     isValid := None; documentation := None |}.

(** A schema without an id whose name the catalog does not know. *)
Definition Stray_Schema : Schema :=
  schema "Stray" None None [field "payload" "Byte" basic false].

Definition world : World :=
  snd (compile_all [Point_Schema; Shape_Schema; Label_Schema; Badge_Schema;
                    Node_Schema; Path_Schema] empty_world).

Definition reg : registry := w_registry world.

(** The world in which the file of Badge is produced and loaded. *)
Definition world_before_Badge : World :=
  snd (compile_all [Point_Schema; Shape_Schema; Label_Schema] empty_world).

Definition options (l : list (string * value)) : value := VObj (Obj "Object" l).

(** A Badge, as [new Badge({color: "GREEN", origin: {x: 3}, tags: [7, 8],
    outline: [{x: 1, y: 2}], visible: 1, rank: 9})] makes it. *)
Definition badge : obj :=
  Obj "Badge"
    [("$color", VEnum "GREEN" 1);
     ("origin", VObj (Obj "Point" [("x", VNum 3); ("y", VNum 0)]));
     ("tags", VArr [VNum 7; VNum 8]);
     ("outline", VArr [VObj (Obj "Point" [("x", VNum 1); ("y", VNum 2)])]);
     ("visible", VNum 1);
     ("rank", VNum 9)].

(** [new Badge()] *)
Definition blank_badge : obj :=
  Obj "Badge"
    [("$color", VEnum "RED" 0);
     ("origin", VObj (Obj "Point" [("x", VNum 0); ("y", VNum 0)]));
     ("tags", VArr []);
     ("outline", VArr []);
     ("visible", VNum 0);
     ("rank", VNum 0)].

End Sample.

(** More schemas, for the edges of the generator. *)
Module Cases.

(** A schema that brings the id 0. *)
Definition Zero_Schema : Schema :=
  Sample.schema "Zero" (Some 0) None [Sample.field "payload" "Byte" basic false].

(** A list of colours: an enumeration field that is an array. *)
Definition Palette_Schema : Schema :=
  Sample.schema "Palette" (Some 310) None
    [Sample.field "name" "Byte" basic false;
     Sample.field "colors" "Color" enumeration true].

(** The field type [Color] is used by an enumeration field first and by a
    basic field after it; [Point] is used by a complex field first. *)
Definition Mixed_Schema : Schema :=
  Sample.schema "Mixed" (Some 311) None
    [Sample.field "tint" "Color" enumeration false;
     Sample.field "shade" "Color" basic false;
     Sample.field "at" "Point" complex false;
     Sample.field "raw" "Point" basic false;
     Sample.field "size" "Byte" basic true].

(** Two complex fields of one type, one of the schema's own type. *)
Definition Segment_Schema : Schema :=
  Sample.schema "Segment" (Some 312) None
    [Sample.field "from" "Point" complex false;
     Sample.field "to" "Point" complex false;
     Sample.field "next" "Segment" complex false].

(** A file whose class takes its id at load time and whose field type is
    in no table. *)
Definition unbound : GenModule :=
  {| gm_classname := "Unbound";
     gm_baseclass := "BaseUAObject";
     gm_schema :=
       Sample.schema "Unbound" (Some RUNTIME_GENERATED_ID) None
         [Sample.field "payload" "Quaternion" basic false];
     gm_requires := [];
     gm_enum_properties := [];
     gm_construct_hook := false;
     gm_ctor := [CtorInitField "payload" 0 "payload"];
     gm_id := IdRuntime;
     gm_xml_id := None;
     gm_bindings := [("Quaternion", FromDefaultTypeMap)];
     gm_encode := EncodeGenerated [EncBase "BaseUAObject"; EncField "payload" "Quaternion"];
     gm_decode := DecodeGenerated [DecBase "BaseUAObject"; DecField "payload" "Quaternion"];
     gm_decode_debug := false;
     gm_isValid := false;
     gm_possibleFields := ["payload"] |}.

End Cases.

(* ================================================================== *)
(** ** Well-formed instances and decode targets *)
(* ================================================================== *)

Definition keys (o : obj) : list string := map fst (obj_props o).

(** The first occurrence of each name, in order: the own properties that a
    sequence of assignments to these names creates. *)
Fixpoint dedup (l : list string) : list string :=
  match l with
  | [] => []
  | x :: r => x :: filter (fun y => negb (String.eqb y x)) (dedup r)
  end.

(** The names of the own properties after an assignment to [k]. *)
Definition add_key (ks : list string) (k : string) : list string :=
  if existsb (String.eqb k) ks then ks else (ks ++ [k])%list.

(** The member a statement of the constructor assigns. *)
Definition ctor_member (st : ctor_stmt) : string :=
  match st with
  | CtorInitField m _ _ | CtorInitFieldArray m _ _ | CtorComplexArray m _ _
  | CtorComplexNullable m _ | CtorComplexNew m _ => m
  end.


Definition same_names (a b : list string) : bool :=
  if list_eq_dec string_dec a b then true else false.

Section Conformance.

Variable ext : Externals.
Variable reg : registry.

(** The slots that the constructors along the chain of [cls] assign on
    [o], base first. *)
Fixpoint chain_slots (n : nat) (cls : string) (o : obj) : list string :=
  match n with
  | O => []
  | S n' =>
      if is_root cls then []
      else
        match assoc cls reg with
        | None => []
        | Some lc =>
            (chain_slots n' (gm_baseclass (lc_module lc)) o
             ++ map (fun f => member_slot reg o (f_name f))
                    (fields (gm_schema (lc_module lc))))%list
        end
  end.

(** [o] is an object of class [cls] with the own properties of such an
    object, in the order the constructor makes them. *)
Definition shaped (n : nat) (cls : string) (o : obj) : bool :=
  String.eqb (obj_class o) cls
  && same_names (keys o) (dedup (chain_slots n cls o)).

(** A decode target: every scalar complex member holds a nested object
    that is a decode target of the member's class. *)
Fixpoint skeleton (n : nat) (cls : string) (t : obj) : bool :=
  match n with
  | O => false
  | S n' =>
      if is_root cls then true
      else
        match assoc cls reg with
        | None => false
        | Some lc =>
            skeleton n' (gm_baseclass (lc_module lc)) t
            && forallb
                 (fun f =>
                    match category f, isArray f with
                    | complex, false =>
                        match get_member reg t (f_name f) with
                        | VObj t' =>
                            shaped n' (fieldType f) t'
                            && skeleton n' (fieldType f) t'
                        | _ => false
                        end
                    | _, _ => true
                    end)
                 (fields (gm_schema (lc_module lc)))
        end
  end.

Definition target (n : nat) (cls : string) (t : obj) : bool :=
  shaped n cls t && skeleton n cls t.

(** [new <T>()] succeeds and gives a decode target. *)
Definition fresh (n : nat) (T : string) : bool :=
  match construct ext reg n T (Obj T []) VUndefined with
  | OK t => target n T t
  | Err _ => false
  end.

(** The setter of an accessor member stores [v] itself: [v] is the
    canonical member that [typedEnum.get(v)] answers. *)
Definition setter_keeps (o : obj) (member : string) (v : value) : bool :=
  match accessor_of reg o member with
  | None => true
  | Some T =>
      match _enumerations ext T with
      | Some d =>
          match typedEnum_get (members d) v, v with
          | Some (k, n), VEnum k' n' => String.eqb k k' && (n =? n')
          | _, _ => false
          end
      | None => false
      end
  end.

(** The member of [o] for field [f] holds a value of the declared shape:
    a scalar that the bound codec writes, a sequence of such scalars, a
    nested instance, or a sequence of nested instances. *)
Definition field_conforms (nested : string -> obj -> bool) (fresh_ok : string -> bool)
    (bindings : list (string * binding)) (o : obj) (f : FieldDescriptor) : bool :=
  let v := get_member reg o (f_name f) in
  match category f with
  | complex =>
      if isArray f then
        match v, accessor_of reg o (f_name f) with
        | VArr l, None =>
            is_ok (writeCount ext (List.length l))
            && forallb (fun e => match e with
                                 | VObj o' => nested (fieldType f) o'
                                 | _ => false
                                 end) l
            && match l with [] => true | _ => fresh_ok (fieldType f) end
        | _, _ => false
        end
      else
        match v with
        | VObj o' => nested (fieldType f) o'
        | _ => false
        end
  | _ =>
      match bound_codec ext bindings (fieldType f) with
      | OK c =>
          if isArray f then
            match v, accessor_of reg o (f_name f) with
            | VArr l, None =>
                is_ok (writeCount ext (List.length l))
                && forallb (fun e => is_ok (c_encode c e)) l
            | _, _ => false
            end
          else is_ok (c_encode c v) && setter_keeps o (f_name f) v
      | Err _ => false
      end
  end.

(** Every member that [cls] and its bases declare conforms. *)
Fixpoint conforms (n : nat) (cls : string) (o : obj) : bool :=
  match n with
  | O => false
  | S n' =>
      if is_root cls then true
      else
        match assoc cls reg with
        | None => false
        | Some lc =>
            conforms n' (gm_baseclass (lc_module lc)) o
            && forallb
                 (field_conforms
                    (fun T o' => shaped n' T o' && conforms n' T o')
                    (fresh n')
                    (gm_bindings (lc_module lc)) o)
                 (fields (gm_schema (lc_module lc)))
        end
  end.

(** A well-formed instance of class [cls]. *)
Definition instance_ok (n : nat) (cls : string) (o : obj) : bool :=
  shaped n cls o && conforms n cls o.

(** The emitted [encode] and [decode] of a class are the generated ones,
    and no field brings a decode function of its own. *)
Definition generated_codec (lc : LoadedClass) : Prop :=
  let f := lc_module lc in
  gm_encode f = EncodeGenerated
                  (EncBase (gm_baseclass f) :: map encode_stmt_of (fields (gm_schema f)))
  /\ gm_decode f = DecodeGenerated
                     (DecBase (gm_baseclass f) :: decode_stmts 0 (fields (gm_schema f)))
  /\ forallb (fun field => negb (is_some (f_decode field))) (fields (gm_schema f)) = true.




(** The constructor of a loaded class is the generated one. *)
Definition generated_ctor (lc : LoadedClass) : Prop :=
  for_fields (ctor_stmt_of (gm_schema (lc_module lc))) 0 (fields (gm_schema (lc_module lc)))
  = OK (gm_ctor (lc_module lc)).


End Conformance.

(** A run from [self] to [self'] that assigns the slots [slots], in order. *)
Definition assigns (self self' : obj) (slots : list string) : Prop :=
  obj_class self' = obj_class self
  /\ keys self' = fold_left add_key slots (keys self)
  /\ forall k, ~ In k slots -> assoc k (obj_props self') = assoc k (obj_props self).

(** While [decode] fills the target [t0] from the bytes of [o]: the object
    [t] in between has the class and the property names of [o], and each of
    its properties is either already that of [o] or still that of [t0]. *)
Definition in_progress (o t0 t : obj) : Prop :=
  obj_class t = obj_class o
  /\ keys t = keys o
  /\ forall s, assoc s (obj_props t) = assoc s (obj_props o)
               \/ assoc s (obj_props t) = assoc s (obj_props t0).

(** A step from [t] to [t'] that keeps what was decoded and decodes the
    properties [slots]. *)
Definition advances (o t0 t t' : obj) (slots : list string) : Prop :=
  in_progress o t0 t'
  /\ (forall s, assoc s (obj_props t) = assoc s (obj_props o) ->
                assoc s (obj_props t') = assoc s (obj_props o))
  /\ (forall s, In s slots -> assoc s (obj_props t') = assoc s (obj_props o)).

(** The round trip of the instances that are well-formed with budget [n]:
    [encode] gives bytes, and [decode] of these bytes into any target of the
    class gives the instance back and leaves the rest of the stream. *)
Definition objects_roundtrip (ext : Externals) (reg : registry) (n : nat) : Prop :=
  forall F o',
    instance_ok ext reg n F o' = true ->
    exists bytes,
      (forall fuel, (n <= fuel)%nat -> encode_method ext reg fuel F o' = OK bytes)
      /\ (forall t' fuel rest,
            target reg n F t' = true -> (n <= fuel)%nat ->
            decode_method ext reg fuel F t' (bytes ++ rest)%list = OK (o', rest)).

(** The same for the part of an instance that [cls] and its bases declare:
    [decode] of the bytes of that part fills the slots of that part. *)
Definition chain_roundtrip (ext : Externals) (reg : registry) (n : nat) : Prop :=
  forall cls o t0,
    conforms ext reg n cls o = true ->
    skeleton reg n cls t0 = true ->
    in_progress o t0 t0 ->
    (forall s, In s (chain_slots reg n cls o) -> In s (keys o)) ->
    exists bytes,
      (forall fuel, (n <= fuel)%nat -> encode_method ext reg fuel cls o = OK bytes)
      /\ forall t rest,
           in_progress o t0 t ->
           exists t',
             (forall fuel, (n <= fuel)%nat ->
                           decode_method ext reg fuel cls t (bytes ++ rest)%list
                           = OK (t', rest))
             /\ advances o t0 t t' (chain_slots reg n cls o).

(** What [skeleton] asks of one field. *)
Definition field_target (reg : registry) (n : nat) (t : obj) (f : FieldDescriptor) : bool :=
  match category f, isArray f with
  | complex, false =>
      match get_member reg t (f_name f) with
      | VObj t' => shaped reg n (fieldType f) t' && skeleton reg n (fieldType f) t'
      | _ => false
      end
  | _, _ => true
  end.

(** A codec reads back what it wrote, whatever follows on the stream. *)
Definition codec_law (c : codec) : Prop :=
  forall v bs rest, c_encode c v = OK bs -> c_decode c (bs ++ rest)%list = OK (v, rest).

Record ExternalsLaws (ext : Externals) : Prop := {
  law_defaultTypeMap : forall T c, _defaultTypeMap ext T = Some c -> codec_law c;
  law_enumerations : forall T d, _enumerations ext T = Some d -> codec_law (enum_codec d);
  law_count : forall n bs rest,
      writeCount ext n = OK bs -> readCount ext (bs ++ rest)%list = OK (n, rest)
}.

(* ================================================================== *)
(** ** Subscription: the sequence counter *)
(* ================================================================== *)




(* ================================================================== *)
(** ** The generator: identifiers and hooks *)
(* ================================================================== *)

Lemma bind_OK :
  forall (A B : Type) (m : result A) (k : A -> result B) (b : B),
    bind m k = OK b -> exists a, m = OK a /\ k a = OK b.
Proof.
  intros A B [a | e] k b H; cbn in H; [eauto | discriminate].
Qed.

Lemma bind_Err :
  forall (A B : Type) (m : result A) (k : A -> result B) (e : error),
    bind m k = Err e -> m = Err e \/ exists a, m = OK a /\ k a = Err e.
Proof.
  intros A B [a | e'] k e H; cbn in H; [right; eauto | left; congruence].
Qed.

(** Splits the hypotheses [x <- m ;; k = OK b]. *)
Ltac bind_ok :=
  repeat match goal with
         | H : bind _ _ = OK _ |- _ =>
             let a := fresh "a" in
             let Ha := fresh "Ha" in
             apply bind_OK in H; destruct H as [a [Ha H]]
         end.

(** Splits [H : x <- m ;; k = OK b] into [Hx : m = OK x] and [H : k x = OK b]. *)
Tactic Notation "bind_inv" hyp(H) "as" ident(x) ident(Hx) :=
  apply bind_OK in H; destruct H as [x [Hx H]].

Lemma head_schema :
  forall ext reg s nm h,
    produce_code_head ext reg (Some s) nm = OK h ->
    h_schema h = set_baseType s (baseType_or_default s).
Proof.
  intros ext reg s nm h H. unfold produce_code_head in H.
  bind_ok. destruct a0 as [b x]. bind_ok. inversion H; reflexivity.
Qed.

Lemma head_requires_schema :
  forall ext reg nm h, produce_code_head ext reg None nm = OK h -> False.
Proof.
  intros ext reg nm h H. unfold produce_code_head in H. bind_ok. discriminate.
Qed.

Lemma tail_decode_debug :
  forall reg h,
    is_some (decode (h_schema h)) = true ->
    is_some (decode_debug (h_schema h)) = false ->
    produce_code_tail reg h = Err (DecodeRequiresDecodeDebug (name (h_schema h))).
Proof.
  intros reg h Hd Hdd. unfold produce_code_tail. rewrite Hd, Hdd. reflexivity.
Qed.

Lemma tail_succeeds :
  forall reg h,
    is_some (decode (h_schema h)) = false \/ is_some (decode_debug (h_schema h)) = true ->
    exists f, produce_code_tail reg h = OK f.
Proof.
  intros reg h H. unfold produce_code_tail.
  destruct (is_some (decode (h_schema h))) eqn:Hd.
  - destruct H as [H | H]; [discriminate |]. rewrite H. cbn. eauto.
  - cbn. eauto.
Qed.

Lemma produce_code_fails_unchanged :
  forall ext s nm file w e,
    produce_code_file ext (w_registry w) s nm = Err e ->
    produce_code ext s nm file w = (Err e, w).
Proof.
  intros ext s nm file w e H. unfold produce_code. rewrite H. reflexivity.
Qed.

(** C4.  A schema that passes the schema check, brings no id of its own and
    has no ["<Name>_Encoding_DefaultBinary"] entry in the catalog makes
    [produce_code] throw the missing-id error, a ConfigurationError; no file
    is saved and the type registry is what it was, for that name as for
    every other. *)
Theorem missing_id_rejected :
  forall ext schema schema_name source_file w,
    check_schema_correctness ext (Some schema) = OK tt ->
    schema_id schema = None ->
    objectNodeIds ext (name schema ++ "_Encoding_DefaultBinary") = None ->
    produce_code ext (Some schema) schema_name source_file w
    = (Err (NoEncodingDefaultBinary (name schema)), w)
    /\ ConfigurationError (NoEncodingDefaultBinary (name schema))
    /\ assoc (name schema)
         (w_registry (snd (produce_code ext (Some schema) schema_name source_file w)))
       = assoc (name schema) (w_registry w)
    /\ w_files (snd (produce_code ext (Some schema) schema_name source_file w))
       = w_files w.
Proof.
  intros ext schema schema_name source_file w Hc Hid Hcat.
  assert (H : produce_code ext (Some schema) schema_name source_file w
              = (Err (NoEncodingDefaultBinary (name schema)), w)).
  { apply produce_code_fails_unchanged.
    unfold produce_code_file, produce_code_head. rewrite Hc. cbn.
    unfold resolve_encoding_ids. rewrite Hid, Hcat. reflexivity. }
  rewrite H. cbn. repeat split; reflexivity.
Qed.

Lemma missing_id_rejected_witness :
  check_schema_correctness Sample.ext (Some Sample.Stray_Schema) = OK tt
  /\ schema_id Sample.Stray_Schema = None
  /\ objectNodeIds Sample.ext (name Sample.Stray_Schema ++ "_Encoding_DefaultBinary") = None
  /\ produce_code Sample.ext (Some Sample.Stray_Schema) "Stray_Schema" "Stray.js" Sample.world
     = (Err (NoEncodingDefaultBinary "Stray"), Sample.world).
Proof.
  split; [reflexivity | split; [reflexivity | split; [reflexivity |]]].
  exact (proj1 (missing_id_rejected Sample.ext Sample.Stray_Schema "Stray_Schema"
                  "Stray.js" Sample.world eq_refl eq_refl eq_refl)).
Defined.

Lemma head_hooks :
  forall ext reg s nm h,
    produce_code_head ext reg (Some s) nm = OK h ->
    name (h_schema h) = name s
    /\ fields (h_schema h) = fields s
    /\ encode (h_schema h) = encode s
    /\ decode (h_schema h) = decode s
    /\ decode_debug (h_schema h) = decode_debug s.
Proof.
  intros ext reg s nm h H. rewrite (head_schema _ _ _ _ _ H). repeat split.
Qed.

Lemma decode_without_debug_fails :
  forall ext reg s nm,
    is_some (decode s) = true -> is_some (decode_debug s) = false ->
    exists e, produce_code_file ext reg (Some s) nm = Err e
              /\ (forall h, produce_code_head ext reg (Some s) nm = OK h ->
                            e = DecodeRequiresDecodeDebug (name s)).
Proof.
  intros ext reg s nm Hd Hdd. unfold produce_code_file.
  destruct (produce_code_head ext reg (Some s) nm) as [h | e] eqn:Hh; cbn.
  - destruct (head_hooks _ _ _ _ _ Hh) as [Hn [_ [_ [Hdec Hdbg]]]].
    rewrite tail_decode_debug; [| rewrite Hdec; exact Hd | rewrite Hdbg; exact Hdd].
    rewrite Hn. eexists; split; [reflexivity | reflexivity].
  - exists e. split; [reflexivity | intros h Hh'; discriminate].
Qed.

(** C5, the claim as stated fails: a schema with a custom [encode], no
    custom [decode] and no [decode_debug] goes through [produce_code]. *)
Lemma custom_encode_alone_compiles :
  is_some (encode Sample.Sealed_Schema) = true
  /\ is_some (decode_debug Sample.Sealed_Schema) = false
  /\ fst (produce_code Sample.ext (Some Sample.Sealed_Schema) "Sealed_Schema"
            "Sealed.js" Sample.world) = OK tt.
Proof.
  repeat split.
Qed.

(** C5, amended.  For a schema with a custom [encode] on which the steps of
    [produce_code] before the codec sections go through: the missing
    [decode_debug] is an error exactly when the schema also brings a custom
    [decode]; with a custom [encode] and the generated [decode] the file is
    produced without [decode_debug]. *)
Theorem custom_encode_decode_debug :
  forall ext schema nm file w h,
    is_some (encode schema) = true ->
    produce_code_head ext (w_registry w) (Some schema) nm = OK h ->
    (is_some (decode schema) = true -> is_some (decode_debug schema) = false ->
     produce_code ext (Some schema) nm file w
     = (Err (DecodeRequiresDecodeDebug (name schema)), w))
    /\ (is_some (decode schema) = false ->
        exists f, produce_code ext (Some schema) nm file w = (OK tt, save file f w)
                  /\ gm_encode f = EncodeHook
                  /\ gm_decode_debug f = false).
Proof.
  intros ext schema nm file w h Henc Hh.
  destruct (head_hooks _ _ _ _ _ Hh) as [Hn [_ [He [Hdec Hdbg]]]]. split.
  - intros Hd Hdd. apply produce_code_fails_unchanged.
    unfold produce_code_file. rewrite Hh. cbn.
    rewrite tail_decode_debug; [| rewrite Hdec; exact Hd | rewrite Hdbg; exact Hdd].
    rewrite Hn. reflexivity.
  - intros Hd. unfold produce_code, produce_code_file. rewrite Hh. cbn.
    unfold produce_code_tail. rewrite Hdec, Hd, He, Henc. cbn.
    eexists. split; [reflexivity | split; reflexivity].
Qed.

Lemma custom_encode_decode_debug_witness :
  is_some (encode Sample.Sealed_Schema) = true
  /\ is_ok (produce_code_head Sample.ext (w_registry Sample.world)
              (Some Sample.Sealed_Schema) "Sealed_Schema") = true
  /\ exists f, produce_code Sample.ext (Some Sample.Sealed_Schema) "Sealed_Schema"
                 "Sealed.js" Sample.world = (OK tt, save "Sealed.js" f Sample.world)
               /\ gm_encode f = EncodeHook
               /\ gm_decode_debug f = false.
Proof.
  split; [reflexivity | split; [reflexivity |]].
  destruct (produce_code_head Sample.ext (w_registry Sample.world)
              (Some Sample.Sealed_Schema) "Sealed_Schema") as [h | e] eqn:Hh;
    [| vm_compute in Hh; discriminate].
  exact (proj2 (custom_encode_decode_debug Sample.ext Sample.Sealed_Schema
                  "Sealed_Schema" "Sealed.js" Sample.world h eq_refl Hh) eq_refl).
Defined.

(** C6.  A schema with a custom [decode] and no [decode_debug] never gets
    through [produce_code]: it throws, saves no file and leaves the registry
    as it was, so no class of that type exists to construct; when the steps
    before the codec sections go through, the error is the decode_debug
    one, a ConfigurationError.  A schema without a custom [decode] gets
    through on the same condition, with or without [decode_debug]. *)
Theorem custom_decode_requires_decode_debug :
  forall ext schema nm file w,
    (is_some (decode schema) = true -> is_some (decode_debug schema) = false ->
     exists e,
       produce_code ext (Some schema) nm file w = (Err e, w)
       /\ (forall h, produce_code_head ext (w_registry w) (Some schema) nm = OK h ->
                     e = DecodeRequiresDecodeDebug (name schema)
                     /\ ConfigurationError e))
    /\ (is_some (decode schema) = false ->
        forall h, produce_code_head ext (w_registry w) (Some schema) nm = OK h ->
        exists f, produce_code ext (Some schema) nm file w = (OK tt, save file f w)
                  /\ gm_decode_debug f = false
                  /\ gm_decode f
                     = DecodeGenerated
                         (DecBase (gm_baseclass f) :: decode_stmts 0 (fields schema))).
Proof.
  intros ext schema nm file w. split.
  - intros Hd Hdd.
    destruct (decode_without_debug_fails ext (w_registry w) schema nm Hd Hdd)
      as [e [He Hh]].
    exists e. split.
    + apply produce_code_fails_unchanged; exact He.
    + intros h H. rewrite (Hh h H). split; [reflexivity | exact I].
  - intros Hd h Hh.
    destruct (head_hooks _ _ _ _ _ Hh) as [Hn [Hf [He [Hdec Hdbg]]]].
    unfold produce_code, produce_code_file. rewrite Hh. cbn.
    unfold produce_code_tail. rewrite Hdec, Hd. cbn.
    eexists. split; [reflexivity |]. cbn. rewrite Hf. split; reflexivity.
Qed.

Lemma custom_decode_requires_decode_debug_witness :
  is_some (decode Sample.Silent_Schema) = true
  /\ is_some (decode_debug Sample.Silent_Schema) = false
  /\ produce_code Sample.ext (Some Sample.Silent_Schema) "Silent_Schema" "Silent.js"
       Sample.world
     = (Err (DecodeRequiresDecodeDebug "Silent"), Sample.world).
Proof.
  split; [reflexivity | split; [reflexivity |]].
  destruct (proj1 (custom_decode_requires_decode_debug Sample.ext Sample.Silent_Schema
                     "Silent_Schema" "Silent.js" Sample.world) eq_refl eq_refl)
    as [e [He Hh]].
  destruct (produce_code_head Sample.ext (w_registry Sample.world)
              (Some Sample.Silent_Schema) "Silent_Schema") as [h | e'] eqn:Hhead;
    [| vm_compute in Hhead; discriminate].
  destruct (Hh h eq_refl) as [-> _]. exact He.
Defined.

(* ================================================================== *)
(** ** The generator: the order of encode and decode *)
(* ================================================================== *)







(* ================================================================== *)
(** ** Properties of objects *)
(* ================================================================== *)

Lemma assoc_set_same :
  forall (A : Type) k (a : A) l, assoc k (assoc_set k a l) = Some a.
Proof.
  intros A k a l. induction l as [| [k' a'] l IH]; cbn.
  - rewrite String.eqb_refl. reflexivity.
  - destruct (String.eqb k k') eqn:E; cbn.
    + rewrite String.eqb_refl. reflexivity.
    + rewrite E. exact IH.
Qed.

Lemma assoc_set_other :
  forall (A : Type) k k' (a : A) l,
    k <> k' -> assoc k' (assoc_set k a l) = assoc k' l.
Proof.
  intros A k k' a l Hne. induction l as [| [k0 a0] l IH]; cbn.
  - destruct (String.eqb k' k) eqn:E; [| reflexivity].
    apply String.eqb_eq in E. congruence.
  - destruct (String.eqb k k0) eqn:E; cbn.
    + apply String.eqb_eq in E. subst k0.
      destruct (String.eqb k' k) eqn:E'; [| reflexivity].
      apply String.eqb_eq in E'. congruence.
    + destruct (String.eqb k' k0); [reflexivity | exact IH].
Qed.


Lemma assoc_app_None :
  forall (A : Type) k (l l' : list (string * A)),
    assoc k l = None -> assoc k (l ++ l') = assoc k l'.
Proof.
  intros A k l l'. induction l as [| [k' a'] l IH]; cbn; intros H.
  - reflexivity.
  - destruct (String.eqb k k'); [discriminate | auto].
Qed.

Lemma assoc_app_Some :
  forall (A : Type) k (a : A) (l l' : list (string * A)),
    assoc k l = Some a -> assoc k (l ++ l') = Some a.
Proof.
  intros A k a l l'. induction l as [| [k' a'] l IH]; cbn; intros H.
  - discriminate.
  - destruct (String.eqb k k'); [exact H | auto].
Qed.


Lemma accessor_of_class :
  forall reg o o' m, obj_class o' = obj_class o -> accessor_of reg o' m = accessor_of reg o m.
Proof.
  intros reg o o' m H. unfold accessor_of. rewrite H. reflexivity.
Qed.

Lemma set_member_class :
  forall ext reg o m v o', set_member ext reg o m v = OK o' -> obj_class o' = obj_class o.
Proof.
  intros ext reg o m v o' H. unfold set_member in H.
  destruct (accessor_of reg o m) as [T |].
  - destruct (_enumerations ext T) as [d |]; [| discriminate].
    destruct (typedEnum_get (members d) v) as [[k n] |]; [| discriminate].
    inversion H. reflexivity.
  - inversion H. reflexivity.
Qed.

(* ================================================================== *)
(** ** The enumeration accessors *)
(* ================================================================== *)





(* ================================================================== *)
(** ** The runtime-assigned identifier *)
(* ================================================================== *)

Lemma head_binary_id :
  forall ext reg s nm h i,
    produce_code_head ext reg (Some s) nm = OK h ->
    schema_id s = Some i ->
    h_encoding_BinaryId h = i.
Proof.
  intros ext reg s nm h i H Hi. unfold produce_code_head in H.
  bind_ok. destruct a0 as [b x]. bind_ok. inversion H; subst h; cbn.
  unfold resolve_encoding_ids in Ha0. rewrite Hi in Ha0.
  destruct (i =? 0); [discriminate |]. inversion Ha0. reflexivity.
Qed.

Lemma register_keeps :
  forall classname c w r w' n lc,
    register_class_definition classname c w = (r, w') ->
    assoc n (w_registry w) = Some lc ->
    assoc n (w_registry w') = Some lc /\ w_next_id w' = w_next_id w.
Proof.
  intros classname c w r w' n lc H Hn. unfold register_class_definition in H.
  destruct (assoc classname (w_registry w)) as [c' |].
  - destruct (same_definition c c'); inversion H; subst; auto.
  - inversion H; subst; cbn. split; [| reflexivity].
    apply assoc_app_Some. exact Hn.
Qed.

(** A class stays in the registry, with its identifier, whatever file is
    loaded later; the counter never goes down. *)
Lemma load_module_keeps :
  forall ext f w r w' n lc,
    load_module ext f w = (r, w') ->
    assoc n (w_registry w) = Some lc ->
    assoc n (w_registry w') = Some lc /\ w_next_id w <= w_next_id w'.
Proof.
  intros ext f w r w' n lc H Hn. unfold load_module in H.
  destruct (if String.eqb (gm_baseclass f) "BaseUAObject" then OK []
            else bind (getFactory (w_registry w) (gm_baseclass f))
                      (fun lc0 => OK (lc_accessors lc0))) as [inh | e].
  - destruct (gm_id f).
    + cbn in H. destruct (forallb (binding_resolves ext) (gm_bindings f)).
      * match type of H with
        | register_class_definition ?cn ?c ?w1 = _ =>
            destruct (register_keeps cn c w1 r w' n lc H Hn) as [H1 H2]
        end.
        split; [exact H1 |]. rewrite H2. cbn. lia.
      * inversion H; subst; cbn. split; [exact Hn | lia].
    + cbn in H. destruct (forallb (binding_resolves ext) (gm_bindings f)).
      * match type of H with
        | register_class_definition ?cn ?c ?w1 = _ =>
            destruct (register_keeps cn c w1 r w' n lc H Hn) as [H1 H2]
        end.
        split; [exact H1 |]. rewrite H2. lia.
      * inversion H; subst; cbn. split; [exact Hn | lia].
  - inversion H; subst. split; [exact Hn | lia].
Qed.

Lemma foldM_invariant :
  forall (A S : Type) (P : S -> Prop) (f : S -> A -> result S),
    (forall s a s', P s -> f s a = OK s' -> P s') ->
    forall l s s', P s -> foldM f l s = OK s' -> P s'.
Proof.
  intros A S P f Hf. induction l as [| a l IH]; intros s s' Hs H; cbn in H.
  - inversion H; subst; exact Hs.
  - apply bind_OK in H. destruct H as [s1 [H1 H]]. eauto.
Qed.

Lemma exec_ctor_stmt_class :
  forall ext reg new schema options self st self',
    exec_ctor_stmt ext reg new schema options self st = OK self' ->
    obj_class self' = obj_class self.
Proof.
  intros ext reg new schema options self st self' H.
  destruct st; cbn in H; bind_ok.
  - eapply set_member_class; eauto.
  - eapply set_member_class; eauto.
  - apply set_member_class in Ha. rewrite <- Ha.
    destruct (truthy a0).
    + destruct a0; try discriminate. bind_ok.
      eapply set_member_class; eauto.
    + inversion H. reflexivity.
  - eapply set_member_class; eauto.
  - eapply set_member_class; eauto.
Qed.

(** The constructor makes an object of the class it is called on. *)
Lemma construct_class :
  forall ext reg fuel cls this options o,
    construct ext reg fuel cls this options = OK o -> obj_class o = obj_class this.
Proof.
  intros ext reg. induction fuel as [| fuel IH]; intros cls this options o H; cbn in H.
  - discriminate.
  - destruct (is_root cls).
    + inversion H. reflexivity.
    + bind_inv H as lc Hlc. bind_inv H as u Hu. bind_inv H as u' Hu'.
      bind_inv H as options1 Hopt. bind_inv H as this1 Hthis1.
      apply IH in Hthis1. rewrite <- Hthis1.
      eapply (foldM_invariant _ _ (fun s => obj_class s = obj_class this1)); [| | exact H].
      * intros s st s' Hs Hst. rewrite <- Hs. eapply exec_ctor_stmt_class; eauto.
      * reflexivity.
Qed.

(** C7.  A schema whose id is the runtime-assignment sentinel gets
    [IdRuntime] in its file; [produce_code] itself draws nothing.  The first
    load of that file draws one number from the counter of
    [generate_new_id], which moves up by one, and puts it on the prototype of
    the class; the class keeps it through every later load, during which the
    counter never goes down, and every instance made by [new] reports it. *)
Theorem runtime_id_assigned_once :
  forall ext schema nm w f w',
    schema_id schema = Some RUNTIME_GENERATED_ID ->
    produce_code_file ext (w_registry w) (Some schema) nm = OK f ->
    assoc (name schema) (w_registry w) = None ->
    load_module ext f w = (OK tt, w') ->
    let drawn := makeExpandedNodeId (w_next_id w + 1) 0 in
    gm_id f = IdRuntime
    /\ w_next_id w' = w_next_id w + 1
    /\ (exists lc, assoc (name schema) (w_registry w') = Some lc
                   /\ lc_encodingDefaultBinary lc = drawn
                   /\ schema_id (gm_schema (lc_module lc)) = Some (w_next_id w + 1))
    /\ (forall fuel options o,
          new_instance ext (w_registry w') fuel (name schema) options = OK o ->
          encodingDefaultBinary (w_registry w') o = Some drawn)
    /\ (forall g r w'' fuel options o,
          load_module ext g w' = (r, w'') ->
          new_instance ext (w_registry w'') fuel (name schema) options = OK o ->
          encodingDefaultBinary (w_registry w'') o = Some drawn
          /\ w_next_id w' <= w_next_id w'')
    /\ (forall file,
          w_next_id (snd (produce_code ext (Some schema) nm file w)) = w_next_id w).
Proof.
  intros ext schema nm w f w' Hid Hf Hfresh Hload drawn.
  assert (Hpc : forall file,
            w_next_id (snd (produce_code ext (Some schema) nm file w)) = w_next_id w).
  { intros file. unfold produce_code. rewrite Hf. reflexivity. }
  unfold produce_code_file in Hf. apply bind_OK in Hf. destruct Hf as [h [Hh Hf]].
  pose proof (head_binary_id _ _ _ _ _ _ Hh Hid) as Hb.
  destruct (head_hooks _ _ _ _ _ Hh) as [Hn _].
  unfold produce_code_tail in Hf. apply bind_OK in Hf. destruct Hf as [dec [_ Hf]].
  rewrite Hb in Hf. cbn in Hf. inversion Hf; subst f; clear Hf.
  unfold load_module in Hload. cbn in Hload.
  match type of Hload with
  | match ?b with _ => _ end = _ => destruct b as [inh | e]
  end; [| inversion Hload].
  match type of Hload with
  | (if ?b then _ else _) = _ => destruct b
  end; [| inversion Hload].
  unfold register_class_definition in Hload. cbn in Hload.
  rewrite Hn, Hfresh in Hload. inversion Hload; subst w'; clear Hload. cbn.
  assert (Hlook : forall c, assoc (name schema) (w_registry w ++ [(name schema, c)])
                            = Some c).
  { intros c. rewrite assoc_app_None by exact Hfresh. cbn.
    rewrite String.eqb_refl. reflexivity. }
  split; [reflexivity | split; [reflexivity | split]].
  - eexists. split; [apply Hlook | split; reflexivity].
  - split; [| split].
    + intros fuel options o Ho. apply construct_class in Ho. cbn in Ho.
      unfold encodingDefaultBinary. rewrite Ho, Hlook. reflexivity.
    + intros g r w'' fuel options o Hg Ho. apply construct_class in Ho. cbn in Ho.
      destruct (load_module_keeps _ _ _ _ _ _ _ Hg (Hlook _)) as [Hk Hle].
      unfold encodingDefaultBinary. rewrite Ho, Hk. split; [reflexivity | exact Hle].
    + exact Hpc.
Qed.

Lemma runtime_id_assigned_once_witness :
  exists f w',
    schema_id Sample.Badge_Schema = Some RUNTIME_GENERATED_ID
    /\ produce_code_file Sample.ext (w_registry Sample.world_before_Badge)
         (Some Sample.Badge_Schema) "Badge_Schema" = OK f
    /\ assoc (name Sample.Badge_Schema) (w_registry Sample.world_before_Badge) = None
    /\ load_module Sample.ext f Sample.world_before_Badge = (OK tt, w')
    /\ w_next_id w' = w_next_id Sample.world_before_Badge + 1
    /\ forall fuel options o,
         new_instance Sample.ext (w_registry w') fuel (name Sample.Badge_Schema) options
         = OK o ->
         encodingDefaultBinary (w_registry w') o
         = Some (makeExpandedNodeId (w_next_id Sample.world_before_Badge + 1) 0).
Proof.
  destruct (produce_code_file Sample.ext (w_registry Sample.world_before_Badge)
              (Some Sample.Badge_Schema) "Badge_Schema") as [f | e] eqn:Hf;
    [| vm_compute in Hf; discriminate].
  destruct (load_module Sample.ext f Sample.world_before_Badge) as [r w'] eqn:Hl.
  assert (Hr : r = OK tt).
  { vm_compute in Hf. inversion Hf; subst f. vm_compute in Hl. inversion Hl. reflexivity. }
  subst r. exists f, w'.
  assert (Hnone : assoc (name Sample.Badge_Schema)
                    (w_registry Sample.world_before_Badge) = None)
    by (vm_compute; reflexivity).
  destruct (runtime_id_assigned_once Sample.ext Sample.Badge_Schema "Badge_Schema"
              Sample.world_before_Badge f w' eq_refl Hf Hnone Hl)
    as [_ [Hc [_ [Hi _]]]].
  split; [reflexivity | split; [reflexivity | split; [exact Hnone | split; [exact Hl |]]]].
  split; [exact Hc | exact Hi].
Defined.

(* ================================================================== *)
(** ** Complex members in the constructor and in decode *)
(* ================================================================== *)

(** The statement emitted for a complex array field that declares a default:
    the member is set to null, the default is not looked at. *)
Lemma complex_array_default_is_null :
  forall schema field,
    isArray field = true -> is_some (defaultValue field) = true ->
    write_complex schema field (f_name field)
    = CtorComplexArray (f_name field) (fieldType field) true.
Proof.
  intros schema field Ha Hd. unfold write_complex. rewrite Ha, Hd. reflexivity.
Qed.

(** The statement emitted for a complex array field, run when the options
    hold nothing for the member: a new empty sequence without a declared
    default, null with one. *)
Lemma complex_array_without_option :
  forall ext reg new schema options opt self member T has_default,
    accessor_of reg self member = None ->
    get_prop reg options member = OK opt ->
    truthy opt = false ->
    exec_ctor_stmt ext reg new schema options self
      (CtorComplexArray member T has_default)
    = OK (raw_set self member (if has_default then VNull else VArr [])).
Proof.
  intros ext reg new schema options opt self member T has_default Ha Hopt Ht. cbn.
  unfold set_member at 1. rewrite Ha. cbn. rewrite Hopt. cbn. rewrite Ht. reflexivity.
Qed.

(** C8, at the failing input: Path declares the complex array member
    [points] with a generator default that answers a new empty sequence.
    The emitted statement sets the member to null; [new Path()] holds null
    where the generator would have given the empty sequence. *)
Theorem complex_array_generator_default_not_invoked :
  write_complex Sample.Path_Schema
    (Sample.with_default (Sample.field "points" "Point" complex true)
       (Generator (fun _ => VArr [])))
    "points"
  = CtorComplexArray "points" "Point" true
  /\ Sample.default_of
       (Sample.with_default (Sample.field "points" "Point" complex true)
          (Generator (fun _ => VArr [])))
       VUndefined
     = VArr []
  /\ new_instance Sample.ext Sample.reg 2 "Path" VUndefined
     = OK (Obj "Path" [("points", VNull)]).
Proof.
  split; [reflexivity | split; [reflexivity | vm_compute; reflexivity]].
Qed.





(* ================================================================== *)
(** ** More fuel does not change the outcome of a constructor *)
(* ================================================================== *)

Lemma mapM_weaken :
  forall (A B : Type) (f g : A -> result B),
    (forall a b, f a = OK b -> g a = OK b) ->
    forall l r, mapM f l = OK r -> mapM g l = OK r.
Proof.
  intros A B f g Hfg. induction l as [| a l IH]; intros r H; cbn in *.
  - exact H.
  - bind_inv H as b Hb. bind_inv H as bs Hbs.
    rewrite (Hfg _ _ Hb). cbn. rewrite (IH _ Hbs). exact H.
Qed.

Lemma foldM_weaken :
  forall (A S : Type) (f g : S -> A -> result S),
    (forall s a s', f s a = OK s' -> g s a = OK s') ->
    forall l s s', foldM f l s = OK s' -> foldM g l s = OK s'.
Proof.
  intros A S f g Hfg. induction l as [| a l IH]; intros s s' H; cbn in *.
  - exact H.
  - bind_inv H as s1 H1.
    rewrite (Hfg _ _ _ H1). cbn. apply IH. exact H.
Qed.

Lemma exec_ctor_stmt_weaken :
  forall ext reg (new1 new2 : string -> value -> result obj),
    (forall T v o, new1 T v = OK o -> new2 T v = OK o) ->
    forall schema options self st self',
      exec_ctor_stmt ext reg new1 schema options self st = OK self' ->
      exec_ctor_stmt ext reg new2 schema options self st = OK self'.
Proof.
  intros ext reg new1 new2 Hnew schema options self st self' H.
  destruct st; cbn in *; try exact H.
  - bind_inv H as self1 Hself1. bind_inv H as opt Hopt.
    rewrite Hself1, Hopt. cbn.
    destruct (truthy opt); [| exact H].
    destruct opt; try discriminate. bind_inv H as els Hel.
    erewrite mapM_weaken; [cbn; exact H | | exact Hel].
    intros e b Hb. cbn in *. bind_inv Hb as o Ho. rewrite (Hnew _ _ _ Ho). exact Hb.
  - bind_inv H as opt Hopt. bind_inv H as v Hv. rewrite Hopt. cbn.
    destruct (truthy opt).
    + bind_inv Hv as o Ho. rewrite (Hnew _ _ _ Ho). cbn.
      inversion Hv; subst. exact H.
    + rewrite Hv. exact H.
  - bind_inv H as opt Hopt. bind_inv H as o Ho.
    rewrite Hopt. cbn. rewrite (Hnew _ _ _ Ho). exact H.
Qed.

Lemma construct_S :
  forall ext reg fuel cls this options,
    construct ext reg (S fuel) cls this options
    = if is_root cls then OK this
      else
        lc <- class_of reg cls ;;
        let options0 := if truthy options then options else VObj (Obj "Object" []) in
        _ <- (if doDebug ext
              then check_options_correctness_against_schema ext
                     (gm_schema (lc_module lc)) options0
              else OK tt) ;;
        _ <- resolve_schema_field_types ext (gm_schema (lc_module lc)) ;;
        options1 <-
          (if gm_construct_hook (lc_module lc) then
             match construct_hook (gm_schema (lc_module lc)) with
             | Some hook => hook options0
             | None => Err (TypeError "schema.construct_hook is not a function")
             end
           else OK options0) ;;
        this1 <- construct ext reg fuel (gm_baseclass (lc_module lc)) this options1 ;;
        foldM (exec_ctor_stmt ext reg
                 (fun T o => construct ext reg fuel T (Obj T []) o)
                 (gm_schema (lc_module lc)) options1)
              (gm_ctor (lc_module lc)) this1.
Proof. reflexivity. Qed.

Lemma construct_more_fuel :
  forall ext reg n cls this options o,
    construct ext reg n cls this options = OK o ->
    forall m, (n <= m)%nat -> construct ext reg m cls this options = OK o.
Proof.
  intros ext reg. induction n as [| n IH]; intros cls this options o H m Hm.
  - discriminate.
  - destruct m as [| m]; [lia |]. rewrite construct_S in *.
    destruct (is_root cls); [exact H |].
    bind_inv H as lc Hlc. cbv zeta in H. bind_inv H as u Hu. bind_inv H as u' Hu'.
    bind_inv H as options1 Hopt. bind_inv H as this1 Hthis1.
    rewrite Hlc. cbn [bind]. cbv zeta. rewrite Hu. cbn [bind]. rewrite Hu'. cbn [bind].
    rewrite Hopt. cbn [bind].
    rewrite (IH _ _ _ _ Hthis1 m) by lia. cbn [bind].
    eapply foldM_weaken; [| exact H].
    intros s st s' Hs. eapply exec_ctor_stmt_weaken; [| exact Hs].
    intros T v o' Ho'. apply (IH _ _ _ _ Ho'). lia.
Qed.

(* ================================================================== *)
(** ** Own properties: names and values *)
(* ================================================================== *)

Lemma assoc_keys :
  forall (A : Type) k (l : list (string * A)),
    In k (map fst l) -> exists a, assoc k l = Some a.
Proof.
  intros A k l. induction l as [| [k' a'] l IH]; cbn; intros H.
  - contradiction.
  - destruct (String.eqb k k') eqn:E; [eauto |].
    destruct H as [H | H]; [| auto].
    subst k'. rewrite String.eqb_refl in E. discriminate.
Qed.

Lemma assoc_set_keys :
  forall (A : Type) k (a : A) l,
    In k (map fst l) -> map fst (assoc_set k a l) = map fst l.
Proof.
  intros A k a l. induction l as [| [k' a'] l IH]; cbn; intros H.
  - contradiction.
  - destruct (String.eqb k k') eqn:E; cbn.
    + apply String.eqb_eq in E. subst. reflexivity.
    + destruct H as [H | H].
      * subst k'. rewrite String.eqb_refl in E. discriminate.
      * rewrite IH by exact H. reflexivity.
Qed.

(** Two property lists with the same names, each once, and the same value
    under each name are the same list. *)
Lemma props_equal :
  forall (A : Type) (p q : list (string * A)),
    map fst p = map fst q ->
    NoDup (map fst p) ->
    (forall k, In k (map fst p) -> assoc k p = assoc k q) ->
    p = q.
Proof.
  intros A. induction p as [| [k a] p IH]; intros q Hk Hnd Hv.
  - destruct q; [reflexivity | discriminate].
  - destruct q as [| [k' b] q]; [discriminate |]. cbn in Hk.
    inversion Hk; subst k'. inversion Hnd; subst.
    pose proof (Hv k (or_introl eq_refl)) as H0. cbn in H0.
    rewrite String.eqb_refl in H0. inversion H0; subst b. f_equal.
    apply IH; [assumption | assumption |].
    intros k' Hin. specialize (Hv k' (or_intror Hin)). cbn in Hv.
    destruct (String.eqb k' k) eqn:E; [| exact Hv].
    apply String.eqb_eq in E. subst k'. contradiction.
Qed.

Lemma dedup_In : forall l x, In x (dedup l) <-> In x l.
Proof.
  induction l as [| y l IH]; intros x; cbn.
  - tauto.
  - rewrite filter_In, IH. split.
    + intros [H | [H _]]; auto.
    + intros [H | H]; [auto |].
      destruct (String.eqb x y) eqn:E.
      * apply String.eqb_eq in E. auto.
      * right. split; [exact H | reflexivity].
Qed.

Lemma dedup_NoDup : forall l, NoDup (dedup l).
Proof.
  induction l as [| y l IH]; cbn.
  - constructor.
  - constructor.
    + rewrite filter_In. intros [_ H]. rewrite String.eqb_refl in H. discriminate.
    + apply NoDup_filter. exact IH.
Qed.

Lemma same_names_eq : forall a b, same_names a b = true -> a = b.
Proof.
  intros a b H. unfold same_names in H.
  destruct (list_eq_dec string_dec a b); [assumption | discriminate].
Qed.

Lemma is_ok_OK : forall (A : Type) (m : result A), is_ok m = true -> exists a, m = OK a.
Proof.
  intros A [a | e] H; [eauto | discriminate].
Qed.

(* ================================================================== *)
(** ** Round trip *)
(* ================================================================== *)

Lemma advances_refl :
  forall o t0 t, in_progress o t0 t -> advances o t0 t t [].
Proof.
  intros o t0 t H. split; [exact H | split; [auto | intros s []]].
Qed.

Lemma advances_trans :
  forall o t0 t t' t'' S1 S2,
    advances o t0 t t' S1 -> advances o t0 t' t'' S2 ->
    advances o t0 t t'' (S1 ++ S2).
Proof.
  intros o t0 t t' t'' S1 S2 [_ [K1 D1]] [P2 [K2 D2]].
  split; [exact P2 | split].
  - auto.
  - intros s Hs. apply in_app_or in Hs. destruct Hs; auto.
Qed.

Lemma store_advances :
  forall o t0 t s v,
    in_progress o t0 t ->
    In s (keys o) ->
    assoc s (obj_props o) = Some v ->
    advances o t0 t (raw_set t s v) [s].
Proof.
  intros o t0 t s v [Hc [Hk Hs]] Hin Hv.
  assert (Hsame : forall s', s' = s ->
                    assoc s' (obj_props (raw_set t s v)) = assoc s' (obj_props o)).
  { intros s' ->. cbn. rewrite assoc_set_same. symmetry. exact Hv. }
  assert (Hother : forall s', s' <> s ->
                     assoc s' (obj_props (raw_set t s v)) = assoc s' (obj_props t)).
  { intros s' Hne. cbn. apply assoc_set_other. congruence. }
  split; [split; [| split] | split].
  - exact Hc.
  - unfold keys in *. cbn. rewrite assoc_set_keys; [exact Hk |]. rewrite Hk. exact Hin.
  - intros s'. destruct (string_dec s' s) as [E | E].
    + left. apply Hsame. exact E.
    + rewrite (Hother s' E). apply Hs.
  - intros s' Hd. destruct (string_dec s' s) as [E | E].
    + apply Hsame. exact E.
    + rewrite (Hother s' E). exact Hd.
  - intros s' [<- | []]. apply Hsame. reflexivity.
Qed.

Lemma member_slot_class :
  forall reg o o' m, obj_class o' = obj_class o -> member_slot reg o' m = member_slot reg o m.
Proof.
  intros reg o o' m H. unfold member_slot. rewrite (accessor_of_class reg o o' m H).
  reflexivity.
Qed.

Lemma get_member_slot :
  forall reg o m,
    In (member_slot reg o m) (keys o) ->
    assoc (member_slot reg o m) (obj_props o) = Some (get_member reg o m).
Proof.
  intros reg o m H. destruct (assoc_keys _ _ _ H) as [v Hv].
  rewrite Hv. f_equal. unfold member_slot, get_member, raw_get in *.
  destruct (accessor_of reg o m); rewrite Hv; reflexivity.
Qed.

Lemma set_member_keeps :
  forall ext reg o t m v,
    setter_keeps ext reg o m v = true ->
    obj_class t = obj_class o ->
    set_member ext reg t m v = OK (raw_set t (member_slot reg o m) v).
Proof.
  intros ext reg o t m v H Hc. unfold setter_keeps, set_member, member_slot in *.
  rewrite (accessor_of_class reg o t m Hc).
  destruct (accessor_of reg o m) as [T |]; [| reflexivity].
  destruct (_enumerations ext T) as [d |]; [| discriminate].
  destruct (typedEnum_get (members d) v) as [[k n] |]; [| discriminate].
  destruct v; try discriminate.
  apply andb_prop in H. destruct H as [Hk Hn].
  apply String.eqb_eq in Hk. apply Z.eqb_eq in Hn. subst. reflexivity.
Qed.

(** The decoded value [v] of member [m] goes into the slot of [m]. *)
Lemma store_decoded :
  forall ext reg o t0 t m,
    setter_keeps ext reg o m (get_member reg o m) = true ->
    In (member_slot reg o m) (keys o) ->
    in_progress o t0 t ->
    exists t',
      set_member ext reg t m (get_member reg o m) = OK t'
      /\ advances o t0 t t' [member_slot reg o m].
Proof.
  intros ext reg o t0 t m Hk Hin Hp.
  exists (raw_set t (member_slot reg o m) (get_member reg o m)). split.
  - apply set_member_keeps; [exact Hk | apply Hp].
  - apply store_advances; [exact Hp | exact Hin | apply get_member_slot; exact Hin].
Qed.

Lemma elements_roundtrip :
  forall (enc : value -> result stream) (dec : stream -> result (value * stream)) l bss,
    Forall2 (fun e bs => enc e = OK bs
                         /\ forall rest, dec (bs ++ rest)%list = OK (e, rest)) l bss ->
    concatM enc l = OK (List.concat bss)
    /\ forall rest,
         decode_elements dec (List.length l) (List.concat bss ++ rest)%list = OK (l, rest).
Proof.
  intros enc dec l bss H. induction H as [| e bs l bss [He Hd] _ [IHe IHd]]; cbn.
  - split; [reflexivity | intros rest; reflexivity].
  - split.
    + rewrite He. cbn. rewrite IHe. reflexivity.
    + intros rest. rewrite <- app_assoc, Hd. cbn. rewrite IHd. reflexivity.
Qed.

Lemma bound_codec_law :
  forall ext bindings T c,
    ExternalsLaws ext -> bound_codec ext bindings T = OK c -> codec_law c.
Proof.
  intros ext bindings T c laws H. unfold bound_codec in H.
  destruct (assoc T bindings) as [[|] |]; [| | discriminate].
  - destruct (_enumerations ext T) as [d |] eqn:E; [| discriminate].
    inversion H; subst. eapply law_enumerations; eauto.
  - destruct (_defaultTypeMap ext T) as [c' |] eqn:E; [| discriminate].
    inversion H; subst. eapply law_defaultTypeMap; eauto.
Qed.

Lemma Forall2_exists :
  forall (A B : Type) (R : A -> B -> Prop) (l : list A),
    (forall a, In a l -> exists b, R a b) -> exists bs, Forall2 R l bs.
Proof.
  intros A B R. induction l as [| a l IH]; intros H.
  - exists []. constructor.
  - destruct (H a (or_introl eq_refl)) as [b Hb].
    destruct IH as [bs Hbs]; [intros a' Ha'; apply H; right; exact Ha' |].
    exists (b :: bs). constructor; assumption.
Qed.

Lemma skeleton_S :
  forall reg n cls t,
    skeleton reg (S n) cls t
    = if is_root cls then true
      else match assoc cls reg with
           | None => false
           | Some lc =>
               skeleton reg n (gm_baseclass (lc_module lc)) t
               && forallb (field_target reg n t) (fields (gm_schema (lc_module lc)))
           end.
Proof. reflexivity. Qed.

Lemma conforms_S :
  forall ext reg n cls o,
    conforms ext reg (S n) cls o
    = if is_root cls then true
      else match assoc cls reg with
           | None => false
           | Some lc =>
               conforms ext reg n (gm_baseclass (lc_module lc)) o
               && forallb (field_conforms ext reg (instance_ok ext reg n) (fresh ext reg n)
                             (gm_bindings (lc_module lc)) o)
                          (fields (gm_schema (lc_module lc)))
           end.
Proof. reflexivity. Qed.

Lemma field_conforms_target :
  forall ext reg n bindings o f,
    (forall F o', conforms ext reg n F o' = true -> skeleton reg n F o' = true) ->
    field_conforms ext reg (instance_ok ext reg n) (fresh ext reg n) bindings o f = true ->
    field_target reg n o f = true.
Proof.
  intros ext reg n bindings o f IH H. unfold field_conforms, field_target in *.
  destruct (category f); try reflexivity.
  destruct (isArray f); [reflexivity |].
  destruct (get_member reg o (f_name f)); try discriminate.
  unfold instance_ok in H. apply andb_prop in H. destruct H as [Hs Hc].
  rewrite Hs, (IH _ _ Hc). reflexivity.
Qed.

(** A well-formed instance is a decode target. *)
Lemma conforms_skeleton :
  forall ext reg n cls o,
    conforms ext reg n cls o = true -> skeleton reg n cls o = true.
Proof.
  intros ext reg. induction n as [| n IH]; intros cls o H.
  - discriminate.
  - rewrite conforms_S in H. rewrite skeleton_S.
    destruct (is_root cls); [reflexivity |].
    destruct (assoc cls reg) as [lc |]; [| discriminate].
    apply andb_prop in H. destruct H as [Hb Hf].
    rewrite (IH _ _ Hb). cbn. rewrite forallb_forall in *.
    intros f Hin. eapply field_conforms_target; [exact IH | apply Hf; exact Hin].
Qed.

Lemma instance_ok_target :
  forall ext reg n cls o,
    instance_ok ext reg n cls o = true -> target reg n cls o = true.
Proof.
  intros ext reg n cls o H. unfold instance_ok, target in *.
  apply andb_prop in H. destruct H as [Hs Hc].
  rewrite Hs, (conforms_skeleton _ _ _ _ _ Hc). reflexivity.
Qed.

Lemma shaped_class :
  forall reg n cls o, shaped reg n cls o = true -> obj_class o = cls.
Proof.
  intros reg n cls o H. unfold shaped in H. apply andb_prop in H.
  destruct H as [H _]. apply String.eqb_eq. exact H.
Qed.

Section RoundTrip.

Variable ext : Externals.
Variable reg : registry.
Hypothesis laws : ExternalsLaws ext.

Lemma scalar_roundtrip :
  forall bindings schema o t0 m T c,
    bound_codec ext bindings T = OK c ->
    is_ok (c_encode c (get_member reg o m)) = true ->
    setter_keeps ext reg o m (get_member reg o m) = true ->
    In (member_slot reg o m) (keys o) ->
    exists bytes,
      (forall eo eb, exec_enc_stmt ext reg eo eb bindings o (EncField m T) = OK bytes)
      /\ forall t rest,
           in_progress o t0 t ->
           exists t',
             (forall d_o d_b nw,
                 exec_dec_stmt ext reg d_o d_b nw schema bindings (DecField m T)
                   (t, (bytes ++ rest)%list) = OK (t', rest))
             /\ advances o t0 t t' [member_slot reg o m].
Proof.
  intros bindings schema o t0 m T c Hc Hok Hkeep Hin.
  destruct (is_ok_OK _ _ Hok) as [bs Hbs]. exists bs. split.
  - intros eo eb. cbn. rewrite Hc. cbn. exact Hbs.
  - intros t rest Hp.
    destruct (store_decoded ext reg o t0 t m Hkeep Hin Hp) as [t' [Hset Hadv]].
    exists t'. split; [| exact Hadv].
    intros d_o d_b nw. cbn. rewrite Hc. cbn.
    rewrite (bound_codec_law _ _ _ _ laws Hc _ _ rest Hbs). cbn.
    rewrite Hset. reflexivity.
Qed.

Lemma setter_keeps_plain :
  forall o m v, accessor_of reg o m = None -> setter_keeps ext reg o m v = true.
Proof.
  intros o m v H. unfold setter_keeps. rewrite H. reflexivity.
Qed.

Lemma array_roundtrip :
  forall bindings schema o t0 m T c l,
    bound_codec ext bindings T = OK c ->
    get_member reg o m = VArr l ->
    accessor_of reg o m = None ->
    is_ok (writeCount ext (List.length l)) = true ->
    forallb (fun e => is_ok (c_encode c e)) l = true ->
    In (member_slot reg o m) (keys o) ->
    exists bytes,
      (forall eo eb, exec_enc_stmt ext reg eo eb bindings o (EncArray m T) = OK bytes)
      /\ forall t rest,
           in_progress o t0 t ->
           exists t',
             (forall d_o d_b nw,
                 exec_dec_stmt ext reg d_o d_b nw schema bindings (DecArray m T)
                   (t, (bytes ++ rest)%list) = OK (t', rest))
             /\ advances o t0 t t' [member_slot reg o m].
Proof.
  intros bindings schema o t0 m T c l Hc Hget Hacc Hcount Hall Hin.
  destruct (is_ok_OK _ _ Hcount) as [count Hcnt].
  pose proof (bound_codec_law _ _ _ _ laws Hc) as Hlaw.
  destruct (Forall2_exists _ _
              (fun e bs => c_encode c e = OK bs
                           /\ forall rest, c_decode c (bs ++ rest)%list = OK (e, rest)) l)
    as [bss Hbss].
  { intros e He. rewrite forallb_forall in Hall.
    destruct (is_ok_OK _ _ (Hall e He)) as [bs Hbs].
    exists bs. split; [exact Hbs | intros rest; apply Hlaw; exact Hbs]. }
  destruct (elements_roundtrip _ _ _ _ Hbss) as [Henc Hdec].
  exists (count ++ List.concat bss)%list. split.
  - intros eo eb. cbn. rewrite Hc. cbn. rewrite Hget. cbn. rewrite Hcnt. cbn.
    rewrite Henc. reflexivity.
  - intros t rest Hp.
    pose proof (setter_keeps_plain o m (get_member reg o m) Hacc) as Hkeep.
    destruct (store_decoded ext reg o t0 t m Hkeep Hin Hp) as [t' [Hset Hadv]].
    exists t'. split; [| exact Hadv].
    intros d_o d_b nw. cbn. rewrite Hc. cbn. unfold decodeArray.
    rewrite <- app_assoc, (law_count ext laws _ _ _ Hcnt). cbn.
    rewrite Hdec. cbn. rewrite <- Hget, Hset. reflexivity.
Qed.

Lemma object_roundtrip :
  forall n bindings schema o t0 m F o' t0',
    objects_roundtrip ext reg n ->
    get_member reg o m = VObj o' ->
    instance_ok ext reg n F o' = true ->
    get_member reg t0 m = VObj t0' ->
    target reg n F t0' = true ->
    in_progress o t0 t0 ->
    In (member_slot reg o m) (keys o) ->
    exists bytes,
      (forall fuel eb,
          (n <= fuel)%nat ->
          exec_enc_stmt ext reg (fun x => encode_method ext reg fuel (obj_class x) x) eb
            bindings o (EncObj m) = OK bytes)
      /\ forall t rest,
           in_progress o t0 t ->
           exists t',
             (forall fuel d_b nw,
                 (n <= fuel)%nat ->
                 exec_dec_stmt ext reg
                   (fun x s0 => decode_method ext reg fuel (obj_class x) x s0) d_b nw
                   schema bindings (DecObj m) (t, (bytes ++ rest)%list) = OK (t', rest))
             /\ advances o t0 t t' [member_slot reg o m].
Proof.
  intros n bindings schema o t0 m F o' t0' IH Hget Hok Hget0 Htgt0 Hp0 Hin.
  destruct (IH F o' Hok) as [bytes [Henc Hdec]].
  assert (Hcls : obj_class o' = F).
  { unfold instance_ok in Hok. apply andb_prop in Hok. destruct Hok as [Hs _].
    eapply shaped_class; exact Hs. }
  exists bytes. split.
  - intros fuel eb Hfuel. cbn. rewrite Hget. cbn. rewrite Hcls. apply Henc. exact Hfuel.
  - intros t rest Hp.
    assert (Hslot : assoc (member_slot reg o m) (obj_props o) = Some (VObj o')).
    { rewrite <- Hget. apply get_member_slot. exact Hin. }
    assert (Ht : exists tt, get_member reg t m = VObj tt /\ target reg n F tt = true).
    { destruct Hp as [Hc [Hk Hs]]. destruct Hp0 as [Hc0 [Hk0 _]].
      assert (Hint : In (member_slot reg t m) (keys t)).
      { rewrite (member_slot_class reg o t m Hc), Hk. exact Hin. }
      pose proof (get_member_slot reg t m Hint) as Hgt.
      rewrite (member_slot_class reg o t m Hc) in Hgt.
      destruct (Hs (member_slot reg o m)) as [E | E]; rewrite E in Hgt.
      - rewrite Hslot in Hgt. inversion Hgt as [Hv].
        exists o'. split; [reflexivity | eapply instance_ok_target; exact Hok].
      - assert (Hin0 : In (member_slot reg t0 m) (keys t0)).
        { rewrite (member_slot_class reg o t0 m Hc0), Hk0. exact Hin. }
        pose proof (get_member_slot reg t0 m Hin0) as Hg0.
        rewrite (member_slot_class reg o t0 m Hc0), Hget0 in Hg0.
        rewrite Hg0 in Hgt. inversion Hgt as [Hv].
        exists t0'. split; [reflexivity | exact Htgt0]. }
    destruct Ht as [tt [Hgt Htt]].
    exists (raw_set t (member_slot reg o m) (VObj o')). split.
    + intros fuel d_b nw Hfuel. cbn. rewrite Hgt.
      assert (Hct : obj_class tt = F).
      { unfold target in Htt. apply andb_prop in Htt. destruct Htt as [Hs _].
        eapply shaped_class; exact Hs. }
      rewrite Hct, (Hdec tt fuel rest Htt Hfuel). cbn.
      rewrite (member_slot_class reg o t m (proj1 Hp)). reflexivity.
    + apply store_advances; [exact Hp | exact Hin | exact Hslot].
Qed.

Lemma array_object_roundtrip :
  forall n bindings schema o t0 m F l,
    objects_roundtrip ext reg n ->
    get_member reg o m = VArr l ->
    accessor_of reg o m = None ->
    is_ok (writeCount ext (List.length l)) = true ->
    forallb (fun e => match e with
                      | VObj o' => instance_ok ext reg n F o'
                      | _ => false
                      end) l = true ->
    match l with [] => true | _ => fresh ext reg n F end = true ->
    In (member_slot reg o m) (keys o) ->
    exists bytes,
      (forall fuel eb,
          (n <= fuel)%nat ->
          exec_enc_stmt ext reg (fun x => encode_method ext reg fuel (obj_class x) x) eb
            bindings o (EncArrayObj m) = OK bytes)
      /\ forall t rest,
           in_progress o t0 t ->
           exists t',
             (forall fuel d_b,
                 (n <= fuel)%nat ->
                 exec_dec_stmt ext reg
                   (fun x s0 => decode_method ext reg fuel (obj_class x) x s0) d_b
                   (fun T => construct ext reg fuel T (Obj T []) VUndefined)
                   schema bindings (DecArrayObj m F) (t, (bytes ++ rest)%list)
                 = OK (t', rest))
             /\ advances o t0 t t' [member_slot reg o m].
Proof.
  intros n bindings schema o t0 m F l IH Hget Hacc Hcount Hall Hfresh Hin.
  destruct (is_ok_OK _ _ Hcount) as [count Hcnt].
  set (R := fun (e : value) (bs : stream) =>
              forall fuel, (n <= fuel)%nat ->
                call_encode (fun x => encode_method ext reg fuel (obj_class x) x) e = OK bs
                /\ forall rest,
                     (o0 <- construct ext reg fuel F (Obj F []) VUndefined ;;
                      '(o1, s1) <- decode_method ext reg fuel (obj_class o0) o0
                                     (bs ++ rest)%list ;;
                      OK (VObj o1, s1)) = OK (e, rest)).
  destruct (Forall2_exists _ _ R l) as [bss Hbss].
  { intros e He. rewrite forallb_forall in Hall. specialize (Hall e He).
    destruct e as [| | | | | | o']; try discriminate.
    assert (Hf : fresh ext reg n F = true).
    { destruct l; [contradiction | exact Hfresh]. }
    unfold fresh in Hf.
    destruct (construct ext reg n F (Obj F []) VUndefined) as [tn |] eqn:Hnew;
      [| discriminate].
    destruct (IH F o' Hall) as [bs [Henc Hdec]].
    assert (Hco : obj_class o' = F).
    { unfold instance_ok in Hall. apply andb_prop in Hall. destruct Hall as [Hs _].
      eapply shaped_class; exact Hs. }
    assert (Hct : obj_class tn = F).
    { unfold target in Hf. apply andb_prop in Hf. destruct Hf as [Hs _].
      eapply shaped_class; exact Hs. }
    exists bs. intros fuel Hfuel. split.
    - cbn. rewrite Hco. apply Henc. exact Hfuel.
    - intros rest. rewrite (construct_more_fuel _ _ _ _ _ _ _ Hnew fuel Hfuel). cbn.
      rewrite Hct, (Hdec tn fuel rest Hf Hfuel). reflexivity. }
  assert (Hfuel : forall fuel, (n <= fuel)%nat ->
            concatM (call_encode (fun x => encode_method ext reg fuel (obj_class x) x)) l
            = OK (List.concat bss)
            /\ forall rest,
                 decode_elements
                   (fun s0 =>
                      o0 <- construct ext reg fuel F (Obj F []) VUndefined ;;
                      '(o1, s1) <- decode_method ext reg fuel (obj_class o0) o0 s0 ;;
                      OK (VObj o1, s1))
                   (List.length l) (List.concat bss ++ rest)%list = OK (l, rest)).
  { intros fuel Hf. apply elements_roundtrip.
    eapply Forall2_impl; [| exact Hbss].
    intros e bs HR. exact (HR fuel Hf). }
  exists (count ++ List.concat bss)%list. split.
  - intros fuel eb Hf. cbn. rewrite Hget. cbn. rewrite Hcnt. cbn.
    rewrite (proj1 (Hfuel fuel Hf)). reflexivity.
  - intros t rest Hp.
    pose proof (setter_keeps_plain o m (get_member reg o m) Hacc) as Hkeep.
    destruct (store_decoded ext reg o t0 t m Hkeep Hin Hp) as [t' [Hset Hadv]].
    exists t'. split; [| exact Hadv].
    intros fuel d_b Hf. cbn. unfold decodeArray.
    rewrite <- app_assoc, (law_count ext laws _ _ _ Hcnt). cbn.
    rewrite (proj2 (Hfuel fuel Hf) rest). cbn. rewrite <- Hget, Hset. reflexivity.
Qed.

Lemma field_roundtrip :
  forall n bindings schema o t0 f i,
    objects_roundtrip ext reg n ->
    field_conforms ext reg (instance_ok ext reg n) (fresh ext reg n) bindings o f = true ->
    field_target reg n t0 f = true ->
    is_some (f_decode f) = false ->
    in_progress o t0 t0 ->
    In (member_slot reg o (f_name f)) (keys o) ->
    exists bytes,
      (forall fuel eb,
          (n <= fuel)%nat ->
          exec_enc_stmt ext reg (fun x => encode_method ext reg fuel (obj_class x) x) eb
            bindings o (encode_stmt_of f) = OK bytes)
      /\ forall t rest,
           in_progress o t0 t ->
           exists t',
             (forall fuel d_b,
                 (n <= fuel)%nat ->
                 exec_dec_stmt ext reg
                   (fun x s0 => decode_method ext reg fuel (obj_class x) x s0) d_b
                   (fun T => construct ext reg fuel T (Obj T []) VUndefined)
                   schema bindings (decode_stmt_of i f) (t, (bytes ++ rest)%list)
                 = OK (t', rest))
             /\ advances o t0 t t' [member_slot reg o (f_name f)].
Proof.
  intros n bindings schema o t0 f i IH Hconf Htgt Hhook Hp0 Hin.
  assert (Hplain :
    category f <> complex ->
    exists bytes,
      (forall fuel eb,
          (n <= fuel)%nat ->
          exec_enc_stmt ext reg (fun x => encode_method ext reg fuel (obj_class x) x) eb
            bindings o
            (if isArray f then EncArray (f_name f) (fieldType f)
             else EncField (f_name f) (fieldType f)) = OK bytes)
      /\ forall t rest,
           in_progress o t0 t ->
           exists t',
             (forall fuel d_b,
                 (n <= fuel)%nat ->
                 exec_dec_stmt ext reg
                   (fun x s0 => decode_method ext reg fuel (obj_class x) x s0) d_b
                   (fun T => construct ext reg fuel T (Obj T []) VUndefined)
                   schema bindings
                   (if isArray f then DecArray (f_name f) (fieldType f)
                    else DecField (f_name f) (fieldType f)) (t, (bytes ++ rest)%list)
                 = OK (t', rest))
             /\ advances o t0 t t' [member_slot reg o (f_name f)]).
  { intros Hcat.
    assert (Hc : match bound_codec ext bindings (fieldType f) with
                 | OK c =>
                     if isArray f then
                       match get_member reg o (f_name f), accessor_of reg o (f_name f) with
                       | VArr l, None =>
                           is_ok (writeCount ext (List.length l))
                           && forallb (fun e => is_ok (c_encode c e)) l
                       | _, _ => false
                       end
                     else is_ok (c_encode c (get_member reg o (f_name f)))
                          && setter_keeps ext reg o (f_name f) (get_member reg o (f_name f))
                 | Err _ => false
                 end = true).
    { unfold field_conforms in Hconf. destruct (category f); [exact Hconf | | exact Hconf].
      congruence. }
    destruct (bound_codec ext bindings (fieldType f)) as [c |] eqn:Hcodec; [| discriminate].
    destruct (isArray f).
    - destruct (get_member reg o (f_name f)) as [| | | | | l |] eqn:Hget; try discriminate.
      destruct (accessor_of reg o (f_name f)) eqn:Hacc; [discriminate |].
      apply andb_prop in Hc. destruct Hc as [Hcount Hall].
      destruct (array_roundtrip bindings schema o t0 (f_name f) (fieldType f) c l
                  Hcodec Hget Hacc Hcount Hall Hin) as [bytes [He Hd]].
      exists bytes. split; [intros; apply He |].
      intros t rest Hp. destruct (Hd t rest Hp) as [t' [Hd' Ha]].
      exists t'. split; [intros; apply Hd' | exact Ha].
    - apply andb_prop in Hc. destruct Hc as [Hok Hkeep].
      destruct (scalar_roundtrip bindings schema o t0 (f_name f) (fieldType f) c
                  Hcodec Hok Hkeep Hin) as [bytes [He Hd]].
      exists bytes. split; [intros; apply He |].
      intros t rest Hp. destruct (Hd t rest Hp) as [t' [Hd' Ha]].
      exists t'. split; [intros; apply Hd' | exact Ha]. }
  unfold encode_stmt_of, decode_stmt_of, is_complex_type. rewrite Hhook.
  destruct (category f) eqn:Hcat.
  - apply Hplain. discriminate.
  - unfold field_conforms in Hconf. unfold field_target in Htgt. rewrite Hcat in *.
    destruct (isArray f).
    + destruct (get_member reg o (f_name f)) as [| | | | | l |] eqn:Hget; try discriminate.
      destruct (accessor_of reg o (f_name f)) eqn:Hacc; [discriminate |].
      apply andb_prop in Hconf. destruct Hconf as [Hconf Hfresh].
      apply andb_prop in Hconf. destruct Hconf as [Hcount Hall].
      exact (array_object_roundtrip n bindings schema o t0 (f_name f) (fieldType f) l
               IH Hget Hacc Hcount Hall Hfresh Hin).
    + destruct (get_member reg o (f_name f)) as [| | | | | | o'] eqn:Hget;
        try discriminate.
      destruct (get_member reg t0 (f_name f)) as [| | | | | | t0'] eqn:Hget0;
        try discriminate.
      destruct (object_roundtrip n bindings schema o t0 (f_name f) (fieldType f) o' t0'
                  IH Hget Hconf Hget0 Htgt Hp0 Hin) as [bytes [He Hd]].
      exists bytes. split; [exact He |].
      intros t rest Hp. destruct (Hd t rest Hp) as [t' [Hd' Ha]].
      exists t'. split; [intros; apply Hd'; assumption | exact Ha].
  - apply Hplain. discriminate.
Qed.

Lemma fields_roundtrip :
  forall n bindings schema o t0,
    objects_roundtrip ext reg n ->
    in_progress o t0 t0 ->
    forall fs i,
      forallb (field_conforms ext reg (instance_ok ext reg n) (fresh ext reg n) bindings o)
              fs = true ->
      forallb (field_target reg n t0) fs = true ->
      forallb (fun field => negb (is_some (f_decode field))) fs = true ->
      (forall f, In f fs -> In (member_slot reg o (f_name f)) (keys o)) ->
      exists bytes,
        (forall fuel eb,
            (n <= fuel)%nat ->
            concatM (exec_enc_stmt ext reg
                       (fun x => encode_method ext reg fuel (obj_class x) x) eb bindings o)
                    (map encode_stmt_of fs) = OK bytes)
        /\ forall t rest,
             in_progress o t0 t ->
             exists t',
               (forall fuel d_b,
                   (n <= fuel)%nat ->
                   foldM (fun state st =>
                            exec_dec_stmt ext reg
                              (fun x s0 => decode_method ext reg fuel (obj_class x) x s0)
                              d_b
                              (fun T => construct ext reg fuel T (Obj T []) VUndefined)
                              schema bindings st state)
                         (decode_stmts i fs) (t, (bytes ++ rest)%list)
                   = OK (t', rest))
               /\ advances o t0 t t' (map (fun f => member_slot reg o (f_name f)) fs).
Proof.
  intros n bindings schema o t0 IH Hp0.
  induction fs as [| f fs IHfs]; intros i Hconf Htgt Hhooks Hin.
  - exists []. split; [reflexivity |].
    intros t rest Hp. exists t. split; [reflexivity | apply advances_refl; exact Hp].
  - cbn in Hconf, Htgt, Hhooks.
    apply andb_prop in Hconf. destruct Hconf as [Hc1 Hc2].
    apply andb_prop in Htgt. destruct Htgt as [Ht1 Ht2].
    apply andb_prop in Hhooks. destruct Hhooks as [Hh1 Hh2].
    apply negb_true_iff in Hh1.
    destruct (field_roundtrip n bindings schema o t0 f i IH Hc1 Ht1 Hh1 Hp0
                (Hin f (or_introl eq_refl))) as [b1 [He1 Hd1]].
    destruct (IHfs (S i) Hc2 Ht2 Hh2 (fun f' H' => Hin f' (or_intror H')))
      as [b2 [He2 Hd2]].
    exists (b1 ++ b2)%list. split.
    + intros fuel eb Hf. cbn. rewrite (He1 fuel eb Hf). cbn.
      rewrite (He2 fuel eb Hf). reflexivity.
    + intros t rest Hp.
      destruct (Hd1 t (b2 ++ rest)%list Hp) as [t1 [Hd1' Ha1]].
      destruct (Hd2 t1 rest (proj1 Ha1)) as [t2 [Hd2' Ha2]].
      exists t2. split.
      * intros fuel d_b Hf. cbn [decode_stmts foldM].
        rewrite <- app_assoc, (Hd1' fuel d_b Hf). cbn [bind].
        apply Hd2'. exact Hf.
      * exact (advances_trans _ _ _ _ _ _ _ Ha1 Ha2).
Qed.

Hypothesis generated : forall cls lc, assoc cls reg = Some lc -> generated_codec lc.

Lemma encode_method_generated :
  forall fuel cls lc this,
    is_root cls = false ->
    assoc cls reg = Some lc ->
    encode_method ext reg (S fuel) cls this
    = (b <- encode_method ext reg fuel (gm_baseclass (lc_module lc)) this ;;
       r <- concatM (exec_enc_stmt ext reg
                       (fun x => encode_method ext reg fuel (obj_class x) x)
                       (fun b0 => encode_method ext reg fuel b0 this)
                       (gm_bindings (lc_module lc)) this)
                    (map encode_stmt_of (fields (gm_schema (lc_module lc)))) ;;
       OK (b ++ r)%list).
Proof.
  intros fuel cls lc this Hb Hlc. destruct (generated cls lc Hlc) as [He _].
  cbn. rewrite Hb. unfold class_of. rewrite Hlc. cbn. rewrite He. reflexivity.
Qed.

Lemma decode_method_generated :
  forall fuel cls lc this s,
    is_root cls = false ->
    assoc cls reg = Some lc ->
    decode_method ext reg (S fuel) cls this s
    = (state <- decode_method ext reg fuel (gm_baseclass (lc_module lc)) this s ;;
       foldM (fun state st =>
                exec_dec_stmt ext reg
                  (fun x s0 => decode_method ext reg fuel (obj_class x) x s0)
                  (fun b x s0 => decode_method ext reg fuel b x s0)
                  (fun T => construct ext reg fuel T (Obj T []) VUndefined)
                  (gm_schema (lc_module lc)) (gm_bindings (lc_module lc)) st state)
             (decode_stmts 0 (fields (gm_schema (lc_module lc)))) state).
Proof.
  intros fuel cls lc this s Hb Hlc. destruct (generated cls lc Hlc) as [_ [Hd _]].
  cbn. rewrite Hb. unfold class_of. rewrite Hlc. cbn. rewrite Hd. reflexivity.
Qed.

Lemma chain_slots_S :
  forall n cls o,
    chain_slots reg (S n) cls o
    = if is_root cls then []
      else match assoc cls reg with
           | None => []
           | Some lc =>
               (chain_slots reg n (gm_baseclass (lc_module lc)) o
                ++ map (fun f => member_slot reg o (f_name f))
                       (fields (gm_schema (lc_module lc))))%list
           end.
Proof. reflexivity. Qed.

Lemma chain_roundtrip_step :
  forall n,
    objects_roundtrip ext reg n -> chain_roundtrip ext reg n ->
    chain_roundtrip ext reg (S n).
Proof.
  intros n IHo IHc cls o t0 Hconf Hskel Hp0 Hcov.
  rewrite conforms_S in Hconf. rewrite skeleton_S in Hskel.
  rewrite chain_slots_S in Hcov |- *.
  destruct (is_root cls) eqn:Hb.
  - exists []. split.
    + intros [| fuel] Hf; [lia |]. cbn. rewrite Hb. reflexivity.
    + intros t rest Hp. exists t. split; [| apply advances_refl; exact Hp].
      intros [| fuel] Hf; [lia |]. cbn. rewrite Hb. reflexivity.
  - destruct (assoc cls reg) as [lc |] eqn:Hlc; [| discriminate].
    apply andb_prop in Hconf. destruct Hconf as [Hcb Hcf].
    apply andb_prop in Hskel. destruct Hskel as [Hsb Hsf].
    destruct (generated cls lc Hlc) as [_ [_ Hhooks]].
    destruct (IHc (gm_baseclass (lc_module lc)) o t0 Hcb Hsb Hp0) as [b1 [He1 Hd1]].
    { intros s Hs. apply Hcov. apply in_or_app. left. exact Hs. }
    destruct (fields_roundtrip n (gm_bindings (lc_module lc)) (gm_schema (lc_module lc))
                o t0 IHo Hp0 (fields (gm_schema (lc_module lc))) 0 Hcf Hsf Hhooks)
      as [b2 [He2 Hd2]].
    { intros f Hf. apply Hcov. apply in_or_app. right.
      apply in_map_iff. exists f. split; [reflexivity | exact Hf]. }
    exists (b1 ++ b2)%list. split.
    + intros [| fuel] Hf; [lia |].
      rewrite (encode_method_generated fuel cls lc o Hb Hlc).
      rewrite (He1 fuel) by lia. cbn [bind]. rewrite (He2 fuel _) by lia. reflexivity.
    + intros t rest Hp.
      destruct (Hd1 t (b2 ++ rest)%list Hp) as [t1 [Hd1' Ha1]].
      destruct (Hd2 t1 rest (proj1 Ha1)) as [t2 [Hd2' Ha2]].
      exists t2. split.
      * intros [| fuel] Hf; [lia |].
        rewrite (decode_method_generated fuel cls lc t _ Hb Hlc).
        rewrite <- app_assoc, (Hd1' fuel) by lia. cbn [bind]. apply Hd2'. lia.
      * exact (advances_trans _ _ _ _ _ _ _ Ha1 Ha2).
Qed.

Lemma chain_slots_class :
  forall n cls a b,
    obj_class a = obj_class b -> chain_slots reg n cls a = chain_slots reg n cls b.
Proof.
  induction n as [| n IH]; intros cls a b H.
  - reflexivity.
  - rewrite !chain_slots_S. destruct (is_root cls); [reflexivity |].
    destruct (assoc cls reg) as [lc |]; [| reflexivity].
    rewrite (IH _ a b H). f_equal. apply map_ext.
    intros f. apply member_slot_class. exact H.
Qed.

Lemma in_progress_start :
  forall o t0, obj_class t0 = obj_class o -> keys t0 = keys o -> in_progress o t0 t0.
Proof.
  intros o t0 Hc Hk. split; [exact Hc | split; [exact Hk | intros s; right; reflexivity]].
Qed.

Lemma objects_from_chain :
  forall n, chain_roundtrip ext reg n -> objects_roundtrip ext reg n.
Proof.
  intros n Hchain F o Hok.
  pose proof (instance_ok_target _ _ _ _ _ Hok) as Htgt_o.
  unfold instance_ok in Hok. apply andb_prop in Hok. destruct Hok as [Hshape Hconf].
  pose proof (shaped_class _ _ _ _ Hshape) as Hclass.
  assert (Hkeys : keys o = dedup (chain_slots reg n F o)).
  { unfold shaped in Hshape. apply andb_prop in Hshape. destruct Hshape as [_ Hs].
    apply same_names_eq. exact Hs. }
  assert (Hcov : forall s, In s (chain_slots reg n F o) -> In s (keys o)).
  { intros s Hs. rewrite Hkeys. exact (proj2 (dedup_In _ _) Hs). }
  destruct (Hchain F o o Hconf (conforms_skeleton _ _ _ _ _ Hconf)
              (in_progress_start o o eq_refl eq_refl) Hcov) as [bytes [Henc _]].
  exists bytes. split; [exact Henc |].
  intros t fuel rest Htgt Hfuel.
  unfold target in Htgt. apply andb_prop in Htgt. destruct Htgt as [Hshape_t Hskel_t].
  pose proof (shaped_class _ _ _ _ Hshape_t) as Hclass_t.
  assert (Hkeys_t : keys t = keys o).
  { unfold shaped in Hshape_t. apply andb_prop in Hshape_t.
    destruct Hshape_t as [_ Hs]. apply same_names_eq in Hs.
    rewrite Hs, Hkeys. f_equal. apply chain_slots_class. congruence. }
  assert (Hp : in_progress o t t).
  { apply in_progress_start; [congruence | exact Hkeys_t]. }
  destruct (Hchain F o t Hconf Hskel_t Hp Hcov) as [bytes' [Henc' Hdec]].
  assert (Hb : bytes' = bytes).
  { pose proof (Henc n (le_n n)) as H1. pose proof (Henc' n (le_n n)) as H2.
    rewrite H1 in H2. inversion H2. reflexivity. }
  subst bytes'.
  destruct (Hdec t rest Hp) as [t' [Hd [[Hc' [Hk' _]] [_ Hdone]]]].
  rewrite (Hd fuel Hfuel). f_equal. f_equal.
  destruct t' as [c' p'], o as [c p]. cbn in Hc', Hk', Hdone, Hkeys.
  unfold keys in Hk', Hkeys. cbn in Hk', Hkeys. f_equal; [exact Hc' |].
  apply props_equal.
  - exact Hk'.
  - rewrite Hk', Hkeys. apply dedup_NoDup.
  - intros k Hin. apply Hdone. rewrite Hk', Hkeys in Hin.
    exact (proj1 (dedup_In _ _) Hin).
Qed.

Lemma roundtrip_at_every_budget :
  forall n, chain_roundtrip ext reg n /\ objects_roundtrip ext reg n.
Proof.
  induction n as [| n [IHc IHo]].
  - assert (Hc : chain_roundtrip ext reg 0).
    { intros cls o t0 H. discriminate. }
    split; [exact Hc | apply objects_from_chain; exact Hc].
  - pose proof (chain_roundtrip_step n IHo IHc) as Hc.
    split; [exact Hc | apply objects_from_chain; exact Hc].
Qed.

End RoundTrip.



(** *** The sample installation meets the assumptions *)

Lemma sample_byte_codec_law : codec_law Sample.byte_codec.
Proof.
  intros v bs rest H. cbn in *. unfold Sample.byte_encode in H.
  destruct v as [| | n | | | |]; try discriminate.
  destruct (n <? 0) eqn:Hn; [discriminate |].
  destruct (Byte.of_N (Z.to_N n)) as [b |] eqn:Hb; [| discriminate].
  inversion H; subst bs. cbn.
  rewrite (Byte.to_of_N _ Hb). apply Z.ltb_ge in Hn.
  rewrite Z2N.id by exact Hn. reflexivity.
Qed.

Lemma sample_enum_codec_law :
  forall table,
    codec_law {| c_encode := Sample.enum_encode table;
                 c_decode := Sample.enum_decode table |}.
Proof.
  intros table v bs rest H. cbn in *. unfold Sample.enum_encode in H.
  destruct v as [| | | | k n | |]; try discriminate.
  destruct (typedEnum_get table (VEnum k n)) as [[k1 n1] |] eqn:H1; [| discriminate].
  destruct (typedEnum_get table (VNum n)) as [[k2 n2] |] eqn:H2; [| discriminate].
  destruct (String.eqb k1 k2) eqn:Hk; [| discriminate].
  apply String.eqb_eq in Hk. subst k2.
  pose proof (sample_byte_codec_law (VNum n) bs rest H) as Hd. cbn in Hd.
  unfold Sample.byte_decode in Hd. unfold Sample.enum_decode.
  destruct (bs ++ rest)%list as [| b tl]; [discriminate |].
  inversion Hd as [[Hv Ht]]. rewrite Hv, H2.
  cbn in H1, H2. apply find_some in H1. apply find_some in H2.
  destruct H1 as [_ H1]. destruct H2 as [_ H2]. cbn in H1, H2.
  apply andb_prop in H1. destruct H1 as [Hk1 Hn1].
  apply String.eqb_eq in Hk1. apply Z.eqb_eq in H2. subst. reflexivity.
Qed.

Lemma sample_laws : ExternalsLaws Sample.ext.
Proof.
  constructor.
  - intros T c H. cbn in H.
    destruct (String.eqb T "Byte"); [inversion H; apply sample_byte_codec_law |].
    destruct (String.eqb T "Boolean"); [inversion H; apply sample_byte_codec_law |].
    discriminate.
  - intros T d H. cbn in H.
    destruct (String.eqb T "Color"); [| discriminate].
    inversion H. apply sample_enum_codec_law.
  - intros n bs rest H. cbn in *. unfold Sample.sample_writeCount in H.
    pose proof (sample_byte_codec_law (VNum (Z.of_nat n)) bs rest H) as Hd. cbn in Hd.
    unfold Sample.byte_decode in Hd. unfold Sample.sample_readCount.
    destruct (bs ++ rest)%list as [| b tl]; [discriminate |].
    inversion Hd as [[Hv Ht]]. f_equal. f_equal. lia.
Qed.

Lemma assoc_Some_In :
  forall (A : Type) k (a : A) l, assoc k l = Some a -> In (k, a) l.
Proof.
  intros A k a l. induction l as [| [k' a'] l IH]; cbn; intros H.
  - discriminate.
  - destruct (String.eqb k k') eqn:E.
    + apply String.eqb_eq in E. inversion H. subst. left. reflexivity.
    + right. auto.
Qed.

Lemma sample_registry_generated :
  forall cls lc, assoc cls Sample.reg = Some lc -> generated_codec lc.
Proof.
  intros cls lc H. apply assoc_Some_In in H.
  assert (Hall : Forall (fun p => generated_codec (snd p)) Sample.reg).
  { let r := eval vm_compute in Sample.reg in
    assert (E : Sample.reg = r) by (vm_compute; reflexivity).
    rewrite E.
    repeat (constructor; [split; [reflexivity | split; reflexivity] |]).
    constructor. }
  rewrite Forall_forall in Hall. exact (Hall _ H).
Qed.

(* ================================================================== *)
(** ** What the constructor makes *)
(* ================================================================== *)

Lemma assoc_set_keys_add :
  forall (A : Type) k (a : A) l, map fst (assoc_set k a l) = add_key (map fst l) k.
Proof.
  intros A k a l. unfold add_key. induction l as [| [k' a'] l IH]; cbn.
  - reflexivity.
  - destruct (String.eqb k k') eqn:E; cbn.
    + apply String.eqb_eq in E. subst. reflexivity.
    + rewrite IH. destruct (existsb (String.eqb k) (map fst l)); reflexivity.
Qed.

Lemma add_key_twice : forall ks k, add_key (add_key ks k) k = add_key ks k.
Proof.
  intros ks k. unfold add_key at 2 3.
  destruct (existsb (String.eqb k) ks) eqn:E.
  - unfold add_key. rewrite E. reflexivity.
  - unfold add_key. rewrite existsb_app. cbn. rewrite String.eqb_refl.
    rewrite orb_true_r. reflexivity.
Qed.

Lemma filter_filter_and :
  forall (A : Type) (p q : A -> bool) l,
    filter p (filter q l) = filter (fun y => q y && p y) l.
Proof.
  intros A p q. induction l as [| x l IH]; cbn.
  - reflexivity.
  - destruct (q x); cbn; [destruct (p x) |]; rewrite IH; reflexivity.
Qed.

Lemma fold_add_key :
  forall l acc,
    fold_left add_key l acc
    = (acc ++ filter (fun y => negb (existsb (String.eqb y) acc)) (dedup l))%list.
Proof.
  induction l as [| x l IH]; intros acc; cbn.
  - rewrite app_nil_r. reflexivity.
  - rewrite IH. unfold add_key. rewrite filter_filter_and.
    destruct (existsb (String.eqb x) acc) eqn:E; cbn.
    + f_equal. apply filter_ext_in. intros y Hy.
      destruct (String.eqb y x) eqn:Eyx; cbn; [| reflexivity].
      apply String.eqb_eq in Eyx. subst y. rewrite E. reflexivity.
    + rewrite <- app_assoc. cbn. f_equal. f_equal. apply filter_ext.
      intros y. rewrite existsb_app. cbn. rewrite orb_false_r, negb_orb.
      apply andb_comm.
Qed.

Lemma fold_add_key_dedup : forall l, fold_left add_key l [] = dedup l.
Proof.
  intros l. rewrite fold_add_key. cbn. clear. induction (dedup l) as [| x r IH]; cbn.
  - reflexivity.
  - rewrite IH. reflexivity.
Qed.

Lemma set_member_raw :
  forall ext reg o m v o',
    set_member ext reg o m v = OK o' ->
    exists v', o' = raw_set o (member_slot reg o m) v'.
Proof.
  intros ext reg o m v o' H. unfold set_member, member_slot in *.
  destruct (accessor_of reg o m) as [T |].
  - destruct (_enumerations ext T) as [d |]; [| discriminate].
    destruct (typedEnum_get (members d) v) as [[k n] |]; [| discriminate].
    inversion H. eauto.
  - inversion H. eauto.
Qed.

Lemma assigns_nil : forall self, assigns self self [].
Proof.
  intros self. split; [reflexivity | split; [reflexivity | reflexivity]].
Qed.

Lemma assigns_trans :
  forall a b c s1 s2, assigns a b s1 -> assigns b c s2 -> assigns a c (s1 ++ s2).
Proof.
  intros a b c s1 s2 [C1 [K1 F1]] [C2 [K2 F2]]. split; [congruence | split].
  - rewrite K2, K1, fold_left_app. reflexivity.
  - intros k Hk. rewrite F2, F1; [reflexivity | |];
      intros Hin; apply Hk; apply in_or_app; auto.
Qed.

Lemma raw_set_assigns : forall o s v, assigns o (raw_set o s v) [s].
Proof.
  intros o s v. split; [reflexivity | split].
  - unfold keys. cbn. apply assoc_set_keys_add.
  - intros k Hk. cbn. apply assoc_set_other. intros E. apply Hk. left. exact E.
Qed.

Lemma set_member_assigns :
  forall ext reg o m v o',
    set_member ext reg o m v = OK o' -> assigns o o' [member_slot reg o m].
Proof.
  intros ext reg o m v o' H. destruct (set_member_raw _ _ _ _ _ _ H) as [v' ->].
  apply raw_set_assigns.
Qed.

Lemma assigns_twice :
  forall a b c s, assigns a b [s] -> assigns b c [s] -> assigns a c [s].
Proof.
  intros a b c s [C1 [K1 F1]] [C2 [K2 F2]]. split; [congruence | split].
  - rewrite K2, K1. cbn. apply add_key_twice.
  - intros k Hk. rewrite F2, F1; auto.
Qed.

Lemma exec_ctor_stmt_assigns :
  forall ext reg new schema options self st self',
    exec_ctor_stmt ext reg new schema options self st = OK self' ->
    assigns self self' [member_slot reg self (ctor_member st)].
Proof.
  intros ext reg new schema options self st self' H.
  destruct st; cbn [exec_ctor_stmt ctor_member] in *.
  - bind_inv H as field Hfield. bind_inv H as opt Hopt. bind_inv H as v Hv.
    eapply set_member_assigns; exact H.
  - bind_inv H as field Hfield. bind_inv H as opt Hopt. bind_inv H as v Hv.
    eapply set_member_assigns; exact H.
  - bind_inv H as self1 Hself1. bind_inv H as opt Hopt.
    pose proof (set_member_assigns _ _ _ _ _ _ Hself1) as H1.
    destruct (truthy opt).
    + destruct opt; try discriminate. bind_inv H as els Hels.
      pose proof (set_member_assigns _ _ _ _ _ _ H) as H2.
      rewrite (member_slot_class reg self self1 member (proj1 H1)) in H2.
      eapply assigns_twice; eassumption.
    + inversion H; subst. exact H1.
  - bind_inv H as opt Hopt. bind_inv H as v Hv.
    eapply set_member_assigns; exact H.
  - bind_inv H as opt Hopt. bind_inv H as o Ho.
    eapply set_member_assigns; exact H.
Qed.

Lemma ctor_stmt_of_member :
  forall schema i field st,
    ctor_stmt_of schema i field = OK st -> ctor_member st = f_name field.
Proof.
  intros schema i field st H.
  unfold ctor_stmt_of, write_enumeration, write_complex, write_basic in H.
  destruct (category field); destruct (isArray field); try discriminate;
    try (inversion H; reflexivity).
  destruct (defaultValue_is_null field || String.eqb (fieldType field) (name schema));
    inversion H; reflexivity.
Qed.

Lemma ctor_stmts_assign :
  forall ext reg new schema options fs i stmts self self',
    for_fields (ctor_stmt_of schema) i fs = OK stmts ->
    foldM (exec_ctor_stmt ext reg new schema options) stmts self = OK self' ->
    assigns self self' (map (fun f => member_slot reg self (f_name f)) fs).
Proof.
  intros ext reg new schema options.
  induction fs as [| f fs IH]; intros i stmts self self' Hs H; cbn in Hs.
  - inversion Hs; subst. cbn in H. inversion H; subst. apply assigns_nil.
  - bind_inv Hs as st Hst. bind_inv Hs as rest Hrest. inversion Hs; subst stmts.
    cbn in H. bind_inv H as self1 Hself1.
    pose proof (exec_ctor_stmt_assigns _ _ _ _ _ _ _ _ Hself1) as H1.
    rewrite (ctor_stmt_of_member _ _ _ _ Hst) in H1.
    pose proof (IH _ _ _ _ Hrest H) as H2.
    rewrite (map_ext _ (fun f0 => member_slot reg self (f_name f0))) in H2
      by (intros f0; apply member_slot_class; apply H1).
    exact (assigns_trans _ _ _ [_] _ H1 H2).
Qed.


Lemma class_of_assoc :
  forall reg cls lc, class_of reg cls = OK lc -> assoc cls reg = Some lc.
Proof.
  intros reg cls lc H. unfold class_of in H.
  destruct (assoc cls reg); [inversion H; reflexivity | discriminate].
Qed.

Section Constructor.

Variable ext : Externals.
Variable reg : registry.
Hypothesis generated : forall cls lc, assoc cls reg = Some lc -> generated_ctor lc.

(** The constructor assigns the slots of the chain, base first. *)
Lemma construct_assigns :
  forall n cls this options t,
    construct ext reg n cls this options = OK t ->
    assigns this t (chain_slots reg n cls this).
Proof.
  induction n as [| n IH]; intros cls this options t H.
  - discriminate.
  - rewrite construct_S in H. rewrite chain_slots_S.
    destruct (is_root cls).
    + inversion H; subst. apply assigns_nil.
    + bind_inv H as lc Hlc. cbv zeta in H. bind_inv H as u Hu. bind_inv H as u' Hu'.
      bind_inv H as options1 Hopt. bind_inv H as this1 Hthis1.
      apply class_of_assoc in Hlc. rewrite Hlc.
      pose proof (IH _ _ _ _ Hthis1) as H1.
      pose proof (ctor_stmts_assign _ _ _ _ _ _ _ _ _ _ (generated cls lc Hlc) H) as H2.
      rewrite (map_ext _ (fun f0 => member_slot reg this (f_name f0))) in H2
        by (intros f0; apply member_slot_class; apply H1).
      exact (assigns_trans _ _ _ _ _ H1 H2).
Qed.

Lemma same_names_refl : forall a, same_names a a = true.
Proof.
  intros a. unfold same_names. destruct (list_eq_dec string_dec a a); congruence.
Qed.

(** An object made by [new] has the own properties of its class. *)
Lemma new_instance_shaped :
  forall n T options t,
    new_instance ext reg n T options = OK t -> shaped reg n T t = true.
Proof.
  intros n T options t H. unfold new_instance in H.
  destruct (construct_assigns _ _ _ _ _ H) as [Hc [Hk _]]. cbn in Hc, Hk.
  unfold shaped. rewrite Hc, String.eqb_refl. cbn.
  rewrite Hk, fold_add_key_dedup.
  rewrite (chain_slots_class reg n T t (Obj T []) Hc). apply same_names_refl.
Qed.









End Constructor.

(* ================================================================== *)
(** ** Round trip through a new instance *)
(* ================================================================== *)

Lemma sample_registry_generated_ctor :
  forall cls lc, assoc cls Sample.reg = Some lc -> generated_ctor lc.
Proof.
  intros cls lc H. apply assoc_Some_In in H.
  assert (Hall : Forall (fun p => generated_ctor (snd p)) Sample.reg).
  { let r := eval vm_compute in Sample.reg in
    assert (E : Sample.reg = r) by (vm_compute; reflexivity).
    rewrite E.
    repeat (constructor; [vm_compute; reflexivity |]).
    constructor. }
  rewrite Forall_forall in Hall. exact (Hall _ H).
Qed.



(* ================================================================== *)
(** ** Subscription: the queues *)
(* ================================================================== *)

Section Queues.
Import Publishing.

Lemma find_index_none :
  forall n l i acc,
    (forall x, In x l -> sequenceNumber x <> n) ->
    find_index n l i acc = acc.
Proof.
  intros n l; induction l as [| a l IH]; intros i acc H; cbn; [reflexivity |].
  rewrite IH by (intros x Hx; apply H; right; exact Hx).
  destruct (sequenceNumber a =? n) eqn:E; [| reflexivity].
  apply Z.eqb_eq in E. exfalso. apply (H a); [left; reflexivity | exact E].
Qed.

Lemma find_index_last :
  forall n l1 e l2 i acc,
    sequenceNumber e = n ->
    (forall x, In x l2 -> sequenceNumber x <> n) ->
    find_index n (l1 ++ e :: l2) i acc = Some (i + List.length l1)%nat.
Proof.
  intros n l1; induction l1 as [| a l1 IH]; intros e l2 i acc He H; cbn.
  - rewrite find_index_none by exact H.
    rewrite He, Z.eqb_refl. f_equal. lia.
  - rewrite (IH e l2 (S i) _ He H). f_equal. lia.
Qed.

Lemma splice1_middle :
  forall (A : Type) (l1 : list A) (e : A) (l2 : list A),
    splice1 (List.length l1) (l1 ++ e :: l2) = (l1 ++ l2)%list.
Proof.
  intros A l1 e l2. unfold splice1.
  rewrite firstn_app, firstn_all, Nat.sub_diag. cbn [firstn].
  rewrite app_nil_r. f_equal.
  replace (S (List.length l1)) with (List.length l1 + 1)%nat by lia.
  rewrite skipn_app, skipn_all2 by lia.
  replace (List.length l1 + 1 - List.length l1)%nat with 1%nat by lia.
  reflexivity.
Qed.

(** The last entry with a given sequence number, when there is one. *)
Lemma last_match :
  forall n l,
    (exists x, In x l /\ sequenceNumber x = n) ->
    exists l1 e l2,
      l = (l1 ++ e :: l2)%list /\ sequenceNumber e = n
      /\ forall x, In x l2 -> sequenceNumber x <> n.
Proof.
  intros n l; induction l as [| a l IH]; intros [x [Hin Hx]]; [destruct Hin |].
  destruct (existsb (fun y => sequenceNumber y =? n) l) eqn:E.
  - apply existsb_exists in E. destruct E as [y [Hy Ey]]. apply Z.eqb_eq in Ey.
    destruct (IH (ex_intro _ y (conj Hy Ey))) as [l1 [e [l2 [Hl [He H2]]]]].
    exists (a :: l1), e, l2. rewrite Hl. repeat split; assumption.
  - assert (Hno : forall y, In y l -> sequenceNumber y <> n).
    { intros y Hy Ey.
      assert (existsb (fun y => sequenceNumber y =? n) l = true)
        by (apply existsb_exists; exists y; split; [exact Hy | apply Z.eqb_eq; exact Ey]).
      congruence. }
    destruct Hin as [Ha | Hin].
    + subst a. exists [], x, l. repeat split; assumption.
    + exfalso. exact (Hno x Hin Hx).
Qed.

Lemma acknowledge_last :
  forall s n l1 e l2,
    _sent_notifications s = (l1 ++ e :: l2)%list ->
    sequenceNumber e = n ->
    (forall x, In x l2 -> sequenceNumber x <> n) ->
    acknowledgeNotification s n = (OK tt, set_sent s (l1 ++ l2)).
Proof.
  intros s n l1 e l2 Hs He H2. unfold acknowledgeNotification.
  rewrite Hs, (find_index_last n l1 e l2 0 None He H2). cbn [Nat.add].
  rewrite splice1_middle. reflexivity.
Qed.

(** X1.  [acknowledgeNotification] removes one entry of the sent queue: the
    last one that carries the sequence number.  The entries before and after
    it keep their order, and nothing else of the subscription changes. *)
Theorem acknowledge_removes_last_match :
  forall s n before e behind,
    _sent_notifications s = (before ++ e :: behind)%list ->
    sequenceNumber e = n ->
    (forall x, In x behind -> sequenceNumber x <> n) ->
    acknowledgeNotification s n = (OK tt, set_sent s (before ++ behind))
    /\ S (sentNotificationsCount (set_sent s (before ++ behind)))
       = sentNotificationsCount s.
Proof.
  intros s n l1 e l2 Hs He H2. split.
  - exact (acknowledge_last s n l1 e l2 Hs He H2).
  - unfold sentNotificationsCount. cbn. rewrite Hs, !length_app. cbn. lia.
Qed.

Lemma acknowledge_removes_last_match_witness :
  acknowledgeNotification two_sevens 7
  = (OK tt,
     set_sent two_sevens
       [ mk_entry (a_message 7) 0 7; mk_entry (a_message 8) 1 8;
         mk_entry (a_message 9) 3 9 ]).
Proof.
  refine (proj1 (acknowledge_removes_last_match two_sevens 7
                   [ mk_entry (a_message 7) 0 7; mk_entry (a_message 8) 1 8 ]
                   (mk_entry (a_message 7) 2 7)
                   [ mk_entry (a_message 9) 3 9 ] eq_refl eq_refl _)).
  intros x [Hx | []]. subst x. cbn. lia.
Defined.

(** X2.  [acknowledgeNotification] of a sequence number that no sent
    entry carries throws an assertion error and leaves the subscription as
    it was. *)
Theorem acknowledge_unknown_throws :
  forall s n,
    (forall x, In x (_sent_notifications s) -> sequenceNumber x <> n) ->
    acknowledgeNotification s n = (Err (AssertionError "foundIndex != -1"), s).
Proof.
  intros s n H. unfold acknowledgeNotification.
  rewrite find_index_none by exact H. reflexivity.
Qed.

Lemma acknowledge_unknown_throws_witness :
  acknowledgeNotification two_sevens 5
  = (Err (AssertionError "foundIndex != -1"), two_sevens).
Proof.
  apply (acknowledge_unknown_throws two_sevens 5).
  intros x Hx. cbn in Hx.
  destruct Hx as [Hx | [Hx | [Hx | [Hx | []]]]]; subst x; cbn; lia.
Defined.

(** *** Discarding what has expired *)

Lemma seq_count_app :
  forall n l1 l2, seq_count n (l1 ++ l2) = (seq_count n l1 + seq_count n l2)%nat.
Proof.
  intros n l1 l2. unfold seq_count. rewrite map_app, count_occ_app. reflexivity.
Qed.

Lemma seq_count_cons :
  forall n a l,
    seq_count n (a :: l)
    = ((if (sequenceNumber a =? n)%Z then 1 else 0) + seq_count n l)%nat.
Proof.
  intros n a l. unfold seq_count. cbn.
  destruct (Z.eq_dec (sequenceNumber a) n) as [E | E].
  - rewrite (proj2 (Z.eqb_eq _ _) E). reflexivity.
  - rewrite (proj2 (Z.eqb_neq _ _) E). reflexivity.
Qed.

Lemma seq_count_pos :
  forall n l, (0 < seq_count n l)%nat -> exists x, In x l /\ sequenceNumber x = n.
Proof.
  intros n l H. unfold seq_count in H.
  apply (count_occ_In Z.eq_dec) in H. apply in_map_iff in H.
  destruct H as [x [Hx Hin]]. exists x. split; assumption.
Qed.

Lemma seq_count_filter :
  forall p n l, (seq_count n (filter p l) <= seq_count n l)%nat.
Proof.
  intros p n l; induction l as [| a l IH]; [apply le_n |].
  cbn [filter]. destruct (p a); rewrite !seq_count_cons; lia.
Qed.

Lemma acknowledge_each_total :
  forall arr s,
    (forall n, seq_count n arr <= seq_count n (_sent_notifications s))%nat ->
    exists s',
      acknowledge_each arr s = (OK tt, s')
      /\ same_but_sent s s'
      /\ (List.length (_sent_notifications s') + List.length arr
          = List.length (_sent_notifications s))%nat.
Proof.
  intros arr; induction arr as [| a arr IH]; intros s H.
  - exists s. cbn. repeat split; lia.
  - assert (Hpos : (0 < seq_count (sequenceNumber a) (_sent_notifications s))%nat).
    { specialize (H (sequenceNumber a)).
      rewrite seq_count_cons, Z.eqb_refl in H. lia. }
    destruct (last_match _ _ (seq_count_pos _ _ Hpos)) as [l1 [e [l2 [Hl [He H2]]]]].
    cbn [acknowledge_each].
    rewrite (acknowledge_last s (sequenceNumber a) l1 e l2 Hl He H2).
    destruct (IH (set_sent s (l1 ++ l2))) as [s' [Hrun [Hframe Hlen]]].
    { intros n. cbn [_sent_notifications set_sent]. specialize (H n).
      rewrite Hl in H.
      rewrite seq_count_app in *. rewrite !seq_count_cons, He in H.
      destruct (sequenceNumber a =? n); lia. }
    exists s'. split; [exact Hrun | split].
    + destruct Hframe as [H1 [H3 [H4 H5]]]. cbn in H1, H3, H4, H5.
      repeat split; assumption.
    + cbn in Hlen. rewrite Hl. rewrite length_app in *. cbn. lia.
Qed.

Lemma discard_total :
  forall s,
    exists s',
      discardOldSentNotifications s = (OK tt, s')
      /\ (sentNotificationsCount s'
          + List.length (filter (notificationHasExpired s) (_sent_notifications s))
          = sentNotificationsCount s)%nat
      /\ counters s' = counters s /\ timerId s' = timerId s
      /\ _pending_notifications s' = _pending_notifications s.
Proof.
  intros s. unfold discardOldSentNotifications.
  destruct (acknowledge_each_total
              (filter (notificationHasExpired s) (_sent_notifications s)) s
              (fun n => seq_count_filter _ n _)) as [s' [Hrun [[_ [Hc [Ht Hp]]] Hlen]]].
  exists s'. repeat split; assumption.
Qed.

(** X3.  [discardOldSentNotifications] never throws, whatever the sent
    queue holds: after it the queue is shorter by the number of entries that
    had expired, and the counters, the timer and the pending queue are as
    before. *)
Theorem discard_never_throws :
  forall s,
    exists s',
      discardOldSentNotifications s = (OK tt, s')
      /\ (sentNotificationsCount s'
          + List.length (filter (notificationHasExpired s) (_sent_notifications s))
          = sentNotificationsCount s)%nat
      /\ counters s' = counters s /\ timerId s' = timerId s
      /\ _pending_notifications s' = _pending_notifications s.
Proof.
  intros s. unfold discardOldSentNotifications.
  destruct (acknowledge_each_total
              (filter (notificationHasExpired s) (_sent_notifications s)) s
              (fun n => seq_count_filter _ n _)) as [s' [Hrun [[_ [Hc [Ht Hp]]] Hlen]]].
  exists s'. unfold sentNotificationsCount. repeat split; assumption.
Qed.

Lemma filter_app_cons_out :
  forall (A : Type) (p : A -> bool) l1 e l2,
    p e = false ->
    filter p (l1 ++ e :: l2) = filter p (l1 ++ l2).
Proof.
  intros A p l1 e l2 H. rewrite !filter_app. cbn. rewrite H. reflexivity.
Qed.

Lemma filter_all :
  forall (A : Type) (p : A -> bool) l,
    (forall x, In x l -> p x = true) -> filter p l = l.
Proof.
  intros A p l; induction l as [| a l IH]; intros H; [reflexivity |].
  cbn. rewrite (H a (or_introl eq_refl)). f_equal. apply IH.
  intros x Hx. apply H. right. exact Hx.
Qed.

(** With distinct sequence numbers, acknowledging takes out the entries
    that carry the number. *)
Lemma acknowledge_distinct :
  forall s a,
    NoDup (map sequenceNumber (_sent_notifications s)) ->
    In a (_sent_notifications s) ->
    acknowledgeNotification s (sequenceNumber a)
    = (OK tt,
       set_sent s
         (filter (fun x => negb (sequenceNumber x =? sequenceNumber a))
                 (_sent_notifications s))).
Proof.
  intros s a Hnd Hin.
  destruct (in_split _ _ Hin) as [l1 [l2 Hl]].
  rewrite Hl in Hnd. rewrite map_app in Hnd. cbn in Hnd.
  pose proof (NoDup_remove_2 _ _ _ Hnd) as Hout.
  assert (H1 : forall x, In x l1 -> sequenceNumber x <> sequenceNumber a).
  { intros x Hx E. apply Hout. apply in_or_app. left.
    rewrite <- E. apply in_map. exact Hx. }
  assert (H2 : forall x, In x l2 -> sequenceNumber x <> sequenceNumber a).
  { intros x Hx E. apply Hout. apply in_or_app. right.
    rewrite <- E. apply in_map. exact Hx. }
  rewrite (acknowledge_last s (sequenceNumber a) l1 a l2 Hl eq_refl H2).
  f_equal. f_equal. rewrite Hl.
  rewrite filter_app_cons_out by (rewrite Z.eqb_refl; reflexivity).
  symmetry. apply filter_all. intros x Hx.
  apply in_app_or in Hx. apply negb_true_iff, Z.eqb_neq.
  destruct Hx as [Hx | Hx]; [exact (H1 x Hx) | exact (H2 x Hx)].
Qed.

Lemma NoDup_map_filter :
  forall (A B : Type) (f : A -> B) (p : A -> bool) (l : list A),
    NoDup (map f l) -> NoDup (map f (filter p l)).
Proof.
  intros A B f p l; induction l as [| a l IH]; intros H; [exact H |].
  cbn in *. inversion H as [| x xs Hx Hxs]; subst.
  destruct (p a); [| exact (IH Hxs)].
  cbn. constructor; [| exact (IH Hxs)].
  intros Hin. apply Hx. apply in_map_iff in Hin.
  destruct Hin as [y [Hy Hin]]. apply filter_In in Hin.
  rewrite <- Hy. apply in_map. exact (proj1 Hin).
Qed.

Lemma acknowledge_each_distinct :
  forall arr s,
    NoDup (map sequenceNumber (_sent_notifications s)) ->
    NoDup (map sequenceNumber arr) ->
    (forall x, In x arr -> In x (_sent_notifications s)) ->
    acknowledge_each arr s
    = (OK tt,
       set_sent s
         (filter (fun x => negb (existsb (fun a => sequenceNumber x =? sequenceNumber a) arr))
                 (_sent_notifications s))).
Proof.
  intros arr; induction arr as [| a arr IH]; intros s Hnd Harr Hsub.
  - cbn. rewrite filter_all by reflexivity. destruct s; reflexivity.
  - cbn [acknowledge_each].
    rewrite (acknowledge_distinct s a Hnd (Hsub a (or_introl eq_refl))).
    inversion Harr as [| x xs Ha Harr']; subst.
    rewrite IH.
    + unfold set_sent.
      cbn [_sent_notifications sub_id counters timerId _pending_notifications].
      f_equal. f_equal. rewrite filter_filter_and. apply filter_ext.
      intros x. cbn [existsb]. rewrite negb_orb. reflexivity.
    + cbn. apply NoDup_map_filter. exact Hnd.
    + exact Harr'.
    + intros x Hx. cbn. apply filter_In. split; [apply Hsub; right; exact Hx |].
      apply negb_true_iff, Z.eqb_neq. intros E. apply Ha. rewrite <- E.
      apply in_map. exact Hx.
Qed.

(** X4.  When the sent entries carry distinct sequence numbers,
    [discardOldSentNotifications] leaves exactly the entries that have not
    expired, in their order. *)
Theorem discard_keeps_unexpired :
  forall s,
    NoDup (map sequenceNumber (_sent_notifications s)) ->
    discardOldSentNotifications s
    = (OK tt,
       set_sent s (filter (fun n => negb (notificationHasExpired s n))
                          (_sent_notifications s))).
Proof.
  intros s Hnd. unfold discardOldSentNotifications.
  rewrite acknowledge_each_distinct.
  - f_equal. f_equal. apply filter_ext_in. intros x Hx. f_equal.
    destruct (notificationHasExpired s x) eqn:E.
    + apply existsb_exists. exists x. split; [| apply Z.eqb_refl].
      apply filter_In. split; assumption.
    + destruct (existsb _ _) eqn:E'; [| reflexivity].
      apply existsb_exists in E'. destruct E' as [y [Hy Ey]].
      apply filter_In in Hy. destruct Hy as [Hy Hexp]. apply Z.eqb_eq in Ey.
      assert (x = y); [| congruence].
      clear E Hexp. revert Hnd Hx Hy Ey.
      generalize (_sent_notifications s) as l.
      induction l as [| a l IH]; intros Hnd Hx Hy Ey; [destruct Hx |].
      cbn in Hnd. inversion Hnd as [| z zs Hz Hzs]; subst.
      destruct Hx as [Hx | Hx], Hy as [Hy | Hy].
      * congruence.
      * subst a. exfalso. apply Hz. rewrite Ey. apply in_map. exact Hy.
      * subst a. exfalso. apply Hz. rewrite <- Ey. apply in_map. exact Hx.
      * exact (IH Hzs Hx Hy Ey).
  - exact Hnd.
  - apply NoDup_map_filter. exact Hnd.
  - intros x Hx. apply filter_In in Hx. exact (proj1 Hx).
Qed.

Lemma discard_keeps_unexpired_witness :
  discardOldSentNotifications aged
  = (OK tt, set_sent aged [ mk_entry (a_message 3) 3 3; mk_entry (a_message 4) 9 4 ]).
Proof.
  refine (eq_trans (discard_keeps_unexpired aged _) _).
  - cbn. repeat constructor; cbn; intuition lia.
  - reflexivity.
Defined.

End Queues.

(* ================================================================== *)
(** ** Subscription: ticks *)
(* ================================================================== *)

Section Ticks.
Import Publishing.

Lemma observers_keep_counters :
  forall listeners, observers listeners -> keeps_counters listeners.
Proof.
  intros listeners H e s. rewrite H. split; reflexivity.
Qed.

Lemma nobody_observes : observers nobody.
Proof.
  intros e s. reflexivity.
Qed.

(** The subscription when [_tick] reaches [lifeTimeHasExpired]. *)
Lemma tick_until_discard :
  forall listeners s,
    keeps_counters listeners ->
    exists s4,
      discardOldSentNotifications
        (increaseLifeTimeCounter
           (emit listeners perform_update
              (set_counters s (increaseCurrentTick (counters s)))))
      = (OK tt, s4)
      /\ counters s4
         = Subscription.increaseLifeTimeCounter (increaseCurrentTick (counters s))
      /\ timerId s4 = timerId s
      /\ _pending_notifications s4
         = _pending_notifications
             (listeners perform_update
                (set_counters s (increaseCurrentTick (counters s)))).
Proof.
  intros listeners s Hk.
  destruct (discard_total
              (increaseLifeTimeCounter
                 (emit listeners perform_update
                    (set_counters s (increaseCurrentTick (counters s))))))
    as [s4 [Hd [_ [Hc [Ht Hp]]]]].
  exists s4. split; [exact Hd |].
  unfold emit in *. cbn in Hc, Ht, Hp.
  destruct (Hk perform_update (set_counters s (increaseCurrentTick (counters s))))
    as [Hc' Ht'].
  rewrite Hc' in Hc. rewrite Ht' in Ht. cbn in Hc, Ht.
  split; [exact Hc | split; [exact Ht | exact Hp]].
Qed.

Lemma pop_nonempty :
  forall s e r,
    _pending_notifications s = e :: r ->
    popNotificationToSend s
    = (OK e,
       {| sub_id := sub_id s;
          counters := counters s;
          timerId := timerId s;
          _pending_notifications := r;
          _sent_notifications := (_sent_notifications s ++ [e])%list |}).
Proof.
  intros s e r H. unfold popNotificationToSend, hasPendingNotification,
    pendingNotificationsCount. rewrite H. reflexivity.
Qed.

Lemma has_pending_cases :
  forall s,
    (hasPendingNotification s = false /\ _pending_notifications s = [])
    \/ (hasPendingNotification s = true
        /\ exists e r, _pending_notifications s = e :: r).
Proof.
  intros s. unfold hasPendingNotification, pendingNotificationsCount.
  destruct (_pending_notifications s) as [| e r]; [left | right]; cbn.
  - split; reflexivity.
  - split; [reflexivity | eauto].
Qed.

(** X5.  A tick never draws a sequence number: after [_tick] the counter
    [__next_sequence_number] is what it was, also when the tick sent a
    notification or threw.  The tick counter is one higher, and the number
    that a [keepalive] event announces is the number that the next
    [_get_next_sequence_number] gives.  This holds with listeners that leave
    the counters alone. *)
Theorem tick_draws_no_sequence_number :
  forall listeners s,
    keeps_counters listeners ->
    Subscription.__next_sequence_number (counters (after (_tick listeners s)))
    = Subscription.__next_sequence_number (counters s)
    /\ Subscription.currentTick (counters (after (_tick listeners s)))
       = Subscription.currentTick (counters s) + 1
    /\ forall n,
         In (keepalive n) (events (_tick listeners s)) ->
         n = fst (Subscription._get_next_sequence_number
                    (counters (after (_tick listeners s)))).
Proof.
  intros listeners s Hk. unfold _tick.
  destruct (tick_until_discard listeners s Hk) as [s4 [Hd [Hc [Ht Hp]]]].
  rewrite Hd. unfold lifeTimeHasExpired.
  destruct (Subscription.maxLifeTimeCount (counters s4) >? 0).
  2:{ cbn. rewrite Hc. cbn. repeat split.
      intros n [H | []]. discriminate. }
  destruct (Subscription._life_time_counter (counters s4)
              >=? Subscription.maxLifeTimeCount (counters s4)).
  { cbn. unfold emit. rewrite (proj1 (Hk expired s4)), Hc. cbn. repeat split.
    intros n [H | [H | []]]; discriminate. }
  destruct (has_pending_cases s4) as [[Hh Hnil] | [Hh [e [r Hcons]]]]; rewrite Hh.
  - destruct (keepAliveCounterHasExpired (increaseKeepAliveCounter s4)).
    + cbn. unfold emit. rewrite (proj1 (Hk _ _)). cbn. rewrite Hc. cbn.
      repeat split. intros n [H | [H | []]]; [discriminate |].
      injection H as H. subst n.
      destruct (Subscription.__next_sequence_number (counters s) + 1 >? 4000000000);
        reflexivity.
    + cbn. rewrite Hc. cbn. repeat split. intros n [H | []]. discriminate.
  - rewrite (pop_nonempty s4 e r Hcons).
    cbn. unfold emit. rewrite (proj1 (Hk _ _)). cbn. rewrite Hc. cbn.
    repeat split. intros n [H | [H | []]]; discriminate.
Qed.

Lemma tick_draws_no_sequence_number_witness :
  Subscription.__next_sequence_number
    (counters (after (_tick nobody (new defaults None 1)))) = 0
  /\ In (keepalive 1) (events (_tick nobody (new defaults None 1))).
Proof.
  split.
  - exact (proj1 (tick_draws_no_sequence_number nobody (new defaults None 1)
                    (observers_keep_counters nobody nobody_observes))).
  - vm_compute. right. left. reflexivity.
Defined.

(** X6.  [_tick] throws exactly when [maxLifeTimeCount] is not positive,
    and then it is the assertion of [lifeTimeHasExpired] that fails, after
    [perform_update] was emitted and with the timer still set. *)
Theorem tick_throws_without_life_time :
  forall listeners s,
    keeps_counters listeners ->
    (0 < Subscription.maxLifeTimeCount (counters s) ->
     thrown (_tick listeners s) = None)
    /\ (Subscription.maxLifeTimeCount (counters s) <= 0 ->
        thrown (_tick listeners s) = Some (AssertionError "self.maxLifeTimeCount>0")
        /\ events (_tick listeners s) = [perform_update]
        /\ timerId (after (_tick listeners s)) = timerId s).
Proof.
  intros listeners s Hk. unfold _tick.
  destruct (tick_until_discard listeners s Hk) as [s4 [Hd [Hc [Ht Hp]]]].
  rewrite Hd. unfold lifeTimeHasExpired. rewrite Hc.
  cbn [Subscription.maxLifeTimeCount Subscription.increaseLifeTimeCounter
       increaseCurrentTick].
  destruct (Subscription.maxLifeTimeCount (counters s) >? 0) eqn:E.
  - apply Z.gtb_lt in E. split; [intros _ | lia].
    destruct (_ >=? _); [reflexivity |].
    destruct (has_pending_cases s4) as [[Hh Hnil] | [Hh [e [r Hcons]]]]; rewrite Hh.
    + destruct (keepAliveCounterHasExpired _); reflexivity.
    + rewrite (pop_nonempty s4 e r Hcons). reflexivity.
  - pose proof (Zgt_cases (Subscription.maxLifeTimeCount (counters s)) 0) as G.
    rewrite E in G. split; [lia | intros _].
    cbn. repeat split. exact Ht.
Qed.

Lemma tick_throws_without_life_time_witness :
  thrown (_tick nobody (new no_life_time None 1))
  = Some (AssertionError "self.maxLifeTimeCount>0")
  /\ thrown (_tick nobody (new defaults None 1)) = None.
Proof.
  split.
  - apply (proj2 (tick_throws_without_life_time nobody (new no_life_time None 1)
                    (observers_keep_counters nobody nobody_observes))).
    cbn. lia.
  - apply (proj1 (tick_throws_without_life_time nobody (new defaults None 1)
                    (observers_keep_counters nobody nobody_observes))).
    cbn. lia.
Defined.

(** *** The life time *)

Lemma run_S :
  forall listeners n s,
    run listeners (S n) s
    = if timerId s =? 0 then mk_outcome None s []
      else
        match thrown (_tick listeners s) with
        | Some e => _tick listeners s
        | None =>
            mk_outcome (thrown (run listeners n (after (_tick listeners s))))
                       (after (run listeners n (after (_tick listeners s))))
                       (events (_tick listeners s)
                          ++ events (run listeners n (after (_tick listeners s))))%list
        end.
Proof.
  reflexivity.
Qed.

Lemma run_stopped :
  forall listeners n s, timerId s = 0 -> run listeners n s = mk_outcome None s [].
Proof.
  intros listeners [| n] s H; [reflexivity |]. rewrite run_S, H. reflexivity.
Qed.

Lemma tick_life :
  forall listeners s,
    keeps_counters listeners ->
    0 < Subscription.maxLifeTimeCount (counters s) ->
    thrown (_tick listeners s) = None
    /\ Subscription._life_time_counter (counters (after (_tick listeners s)))
       = Subscription._life_time_counter (counters s) + 1
    /\ Subscription.maxLifeTimeCount (counters (after (_tick listeners s)))
       = Subscription.maxLifeTimeCount (counters s)
    /\ Subscription.currentTick (counters (after (_tick listeners s)))
       = Subscription.currentTick (counters s) + 1
    /\ (Subscription._life_time_counter (counters s) + 1
          < Subscription.maxLifeTimeCount (counters s) ->
        timerId (after (_tick listeners s)) = timerId s
        /\ ~ In expired (events (_tick listeners s)))
    /\ (Subscription.maxLifeTimeCount (counters s)
          <= Subscription._life_time_counter (counters s) + 1 ->
        timerId (after (_tick listeners s)) = 0
        /\ events (_tick listeners s) = [perform_update; expired]).
Proof.
  intros listeners s Hk Hpos. unfold _tick.
  destruct (tick_until_discard listeners s Hk) as [s4 [Hd [Hc [Ht Hp]]]].
  rewrite Hd. unfold lifeTimeHasExpired. rewrite Hc.
  cbn [Subscription.maxLifeTimeCount Subscription.increaseLifeTimeCounter
       Subscription._life_time_counter increaseCurrentTick].
  rewrite (proj2 (Z.gtb_lt _ _) Hpos).
  destruct (_ >=? _) eqn:E.
  - apply Z.geb_le in E. cbn. unfold emit. rewrite (proj1 (Hk _ _)), Hc. cbn.
    repeat split; try lia.
  - pose proof (Zge_cases (Subscription._life_time_counter (counters s) + 1)
                  (Subscription.maxLifeTimeCount (counters s))) as G.
    rewrite E in G.
    destruct (has_pending_cases s4) as [[Hh Hnil] | [Hh [e [r Hcons]]]]; rewrite Hh.
    + destruct (keepAliveCounterHasExpired _); cbn; unfold emit;
        rewrite ?(proj1 (Hk _ _)), ?(proj2 (Hk _ _)); cbn; rewrite Hc; cbn;
        repeat split; try lia; try exact Ht;
        intros Hin; cbn in Hin; intuition discriminate.
    + rewrite (pop_nonempty s4 e r Hcons). cbn. unfold emit.
      rewrite ?(proj1 (Hk _ _)), ?(proj2 (Hk _ _)). cbn. rewrite Hc. cbn.
      repeat split; try lia; try exact Ht.
      intros Hin; cbn in Hin; intuition discriminate.
Qed.

(** X7.  A subscription that nobody pings expires on time: with the life
    time counter at [c] and listeners that leave the counters alone, the
    tick number [maxLifeTimeCount - c] emits [expired] and clears the
    timer, no tick before it emits [expired], no tick throws, and the timer
    calls [_tick] no more after it. *)
Theorem expires_when_not_pinged :
  forall listeners k m s,
    keeps_counters listeners ->
    timerId s <> 0 ->
    0 <= Subscription._life_time_counter (counters s) ->
    Subscription.maxLifeTimeCount (counters s)
    = Subscription._life_time_counter (counters s) + Z.of_nat (S k) ->
    thrown (run listeners (S k + m) s) = None
    /\ timerId (after (run listeners (S k + m) s)) = 0
    /\ Subscription.currentTick (counters (after (run listeners (S k + m) s)))
       = Subscription.currentTick (counters s) + Z.of_nat (S k)
    /\ exists evs,
         events (run listeners (S k + m) s) = (evs ++ [expired])%list
         /\ ~ In expired evs.
Proof.
  intros listeners k m; induction k as [| k IH]; intros s Hk Hrun Hlife Hmax.
  - destruct (tick_life listeners s Hk) as [Hthrown [_ [_ [Htick [_ Hexp]]]]]; [lia |].
    destruct Hexp as [Htimer Hev]; [lia |].
    cbn [Nat.add]. rewrite run_S.
    rewrite (proj2 (Z.eqb_neq _ _) Hrun), Hthrown.
    rewrite (run_stopped listeners m _ Htimer). cbn [thrown after events].
    repeat split; [exact Htimer | rewrite Htick; lia |].
    exists [perform_update]. rewrite Hev. split; [reflexivity |].
    intros [H | []]. discriminate.
  - destruct (tick_life listeners s Hk)
      as [Hthrown [Hl [Hm [Htick [Hnot _]]]]]; [lia |].
    destruct Hnot as [Htimer Hev]; [lia |].
    destruct (IH (after (_tick listeners s)) Hk) as [H1 [H2 [H3 [evs [H4 H5]]]]].
    + rewrite Htimer. exact Hrun.
    + lia.
    + rewrite Hl, Hm, Hmax. lia.
    + change (S (S k) + m)%nat with (S (S k + m)). rewrite run_S.
      rewrite (proj2 (Z.eqb_neq _ _) Hrun), Hthrown. cbn [thrown after events].
      repeat split; [exact H1 | exact H2 | rewrite H3, Htick; lia |].
      exists (events (_tick listeners s) ++ evs)%list. rewrite H4.
      split; [rewrite app_assoc; reflexivity |].
      intros Hin. apply in_app_or in Hin. destruct Hin as [Hin | Hin];
        [exact (Hev Hin) | exact (H5 Hin)].
Qed.

Lemma expires_when_not_pinged_witness :
  timerId (after (run nobody 10 (new three_ticks None 1))) = 0
  /\ Subscription.currentTick (counters (after (run nobody 10 (new three_ticks None 1))))
     = 3.
Proof.
  destruct (expires_when_not_pinged nobody 2 7 (new three_ticks None 1)
              (observers_keep_counters nobody nobody_observes))
    as [_ [H2 [H3 _]]].
  - cbn. lia.
  - cbn. lia.
  - reflexivity.
  - split; [exact H2 | exact H3].
Defined.

(** *** Ticks that nobody interferes with *)

(** A tick before the life time is over, with listeners that only look. *)
Lemma tick_observed :
  forall listeners s,
    observers listeners ->
    0 < Subscription.maxLifeTimeCount (counters s) ->
    Subscription._life_time_counter (counters s) + 1
      < Subscription.maxLifeTimeCount (counters s) ->
    exists s4,
      counters s4
      = Subscription.increaseLifeTimeCounter (increaseCurrentTick (counters s))
      /\ timerId s4 = timerId s
      /\ _pending_notifications s4 = _pending_notifications s
      /\ sub_id s4 = sub_id s
      /\ _tick listeners s
         = if hasPendingNotification s4
           then
             match popNotificationToSend s4 with
             | (Err e, s5) => mk_outcome (Some e) s5 [perform_update]
             | (OK n, s5) =>
                 mk_outcome None (resetKeepAliveCounter s5)
                   [perform_update; notification_event n]
             end
           else
             if keepAliveCounterHasExpired (increaseKeepAliveCounter s4)
             then
               mk_outcome None
                 (resetKeepAliveCounter (increaseKeepAliveCounter s4))
                 [perform_update;
                  keepalive (fst (Subscription._get_future_sequence_number
                                    (counters (increaseKeepAliveCounter s4))))]
             else mk_outcome None (increaseKeepAliveCounter s4) [perform_update].
Proof.
  intros listeners s Ho Hpos Hlt. unfold _tick, emit. rewrite Ho.
  destruct (acknowledge_each_total
              (filter (notificationHasExpired
                         (increaseLifeTimeCounter
                            (set_counters s (increaseCurrentTick (counters s)))))
                      (_sent_notifications s))
              (increaseLifeTimeCounter
                 (set_counters s (increaseCurrentTick (counters s))))
              (fun n => seq_count_filter _ n _))
    as [s4 [Hd [[Hi [Hc [Ht Hp]]] _]]].
  cbn in Hi, Hc, Ht, Hp.
  exists s4. split; [exact Hc | split; [exact Ht | split; [exact Hp | split; [exact Hi |]]]].
  unfold discardOldSentNotifications.
  cbn [_sent_notifications increaseLifeTimeCounter set_counters].
  cbn [_sent_notifications increaseLifeTimeCounter set_counters] in Hd.
  rewrite Hd. unfold lifeTimeHasExpired. rewrite Hc.
  cbn [Subscription.maxLifeTimeCount Subscription.increaseLifeTimeCounter
       Subscription._life_time_counter increaseCurrentTick].
  rewrite (proj2 (Z.gtb_lt _ _) Hpos).
  destruct (_ >=? _) eqn:E; [apply Z.geb_le in E; lia |].
  destruct (hasPendingNotification s4).
  - destruct (popNotificationToSend s4) as [[n | e] s5]; rewrite ?Ho; reflexivity.
  - rewrite !Ho. reflexivity.
Qed.

Lemma tick_delivers :
  forall listeners s e r,
    observers listeners ->
    0 < Subscription.maxLifeTimeCount (counters s) ->
    Subscription._life_time_counter (counters s) + 1
      < Subscription.maxLifeTimeCount (counters s) ->
    _pending_notifications s = e :: r ->
    exists s',
      _tick listeners s
      = mk_outcome None s' [perform_update; notification_event e]
      /\ counters s'
         = Subscription.resetKeepAliveCounter
             (Subscription.increaseLifeTimeCounter (increaseCurrentTick (counters s)))
      /\ timerId s' = timerId s
      /\ _pending_notifications s' = r
      /\ exists kept, _sent_notifications s' = (kept ++ [e])%list.
Proof.
  intros listeners s e r Ho Hpos Hlt Hpend.
  destruct (tick_observed listeners s Ho Hpos Hlt) as [s4 [Hc [Ht [Hp [_ Htick]]]]].
  rewrite Hpend in Hp.
  rewrite (pop_nonempty s4 e r Hp) in Htick.
  assert (Hh : hasPendingNotification s4 = true)
    by (unfold hasPendingNotification, pendingNotificationsCount; rewrite Hp; reflexivity).
  rewrite Hh in Htick. eexists. split; [exact Htick |].
  cbn. rewrite Hc. repeat split; [exact Ht |].
  exists (_sent_notifications s4). reflexivity.
Qed.

Lemma tick_quiet :
  forall listeners s,
    observers listeners ->
    0 < Subscription.maxLifeTimeCount (counters s) ->
    Subscription._life_time_counter (counters s) + 1
      < Subscription.maxLifeTimeCount (counters s) ->
    _pending_notifications s = [] ->
    exists s',
      _tick listeners s
      = mk_outcome None s'
          (if Subscription._keep_alive_counter (counters s) + 1
                >=? Subscription.maxKeepAliveCount (counters s)
           then [perform_update;
                 keepalive (fst (Subscription._get_future_sequence_number (counters s)))]
           else [perform_update])
      /\ counters s'
         = (if Subscription._keep_alive_counter (counters s) + 1
                 >=? Subscription.maxKeepAliveCount (counters s)
            then Subscription.resetKeepAliveCounter
                   (Subscription.increaseLifeTimeCounter
                      (increaseCurrentTick (counters s)))
            else Subscription.increaseKeepAliveCounter
                   (Subscription.increaseLifeTimeCounter
                      (increaseCurrentTick (counters s))))
      /\ timerId s' = timerId s
      /\ _pending_notifications s' = [].
Proof.
  intros listeners s Ho Hpos Hlt Hpend.
  destruct (tick_observed listeners s Ho Hpos Hlt) as [s4 [Hc [Ht [Hp [_ Htick]]]]].
  rewrite Hpend in Hp.
  assert (Hh : hasPendingNotification s4 = false)
    by (unfold hasPendingNotification, pendingNotificationsCount; rewrite Hp; reflexivity).
  rewrite Hh in Htick. rewrite Htick.
  unfold keepAliveCounterHasExpired.
  cbn [counters increaseKeepAliveCounter set_counters]. rewrite Hc.
  cbn [Subscription._keep_alive_counter Subscription.maxKeepAliveCount
       Subscription.increaseKeepAliveCounter Subscription.increaseLifeTimeCounter
       increaseCurrentTick].
  destruct (_ >=? _); eexists; (split; [reflexivity |]); cbn; rewrite Hc;
    repeat split; assumption.
Qed.

(** X8.  A new subscription announces itself at its first tick: whatever
    the options, as long as the life time is more than one tick and the
    listeners only look, the first [_tick] emits [perform_update] and then
    [keepalive] with sequence number 1, and throws nothing. *)
Theorem first_tick_sends_keepalive :
  forall listeners o id interval,
    observers listeners ->
    1 < Subscription.maxLifeTimeCount (Subscription.new o) ->
    thrown (_tick listeners (new o id interval)) = None
    /\ events (_tick listeners (new o id interval)) = [perform_update; keepalive 1]
    /\ Subscription._keep_alive_counter
         (counters (after (_tick listeners (new o id interval)))) = 0.
Proof.
  intros listeners o id interval Ho Hlife.
  destruct (tick_quiet listeners (new o id interval) Ho) as [s' [Htick [Hc _]]].
  - cbn [counters new]. lia.
  - cbn. cbn in Hlife. lia.
  - reflexivity.
  - rewrite Htick. cbn [thrown events after]. rewrite Hc.
    cbn [counters new Subscription.new Subscription._keep_alive_counter
         Subscription.maxKeepAliveCount].
    rewrite (proj2 (Z.geb_le _ _)) by lia.
    repeat split.
Qed.

Lemma first_tick_sends_keepalive_witness :
  events (_tick nobody (new three_ticks (Some "sub") 1))
  = [perform_update; keepalive 1].
Proof.
  apply (first_tick_sends_keepalive nobody three_ticks (Some "sub") 1 nobody_observes).
  cbn. lia.
Defined.

Lemma notifications_app :
  forall l1 l2,
    notifications (l1 ++ l2) = (notifications l1 ++ notifications l2)%list.
Proof.
  intros l1 l2; induction l1 as [| [| | n | n] l1 IH]; cbn; rewrite ?IH; reflexivity.
Qed.

(** X9.  Pending notifications go out one per tick, oldest first: with
    listeners that only look and a life time that does not run out, [k]
    ticks of the timer emit the first [k] pending entries as [notification]
    events, in the order of the queue, and leave the others pending. *)
Theorem ticks_deliver_in_order :
  forall listeners k s,
    observers listeners ->
    timerId s <> 0 ->
    (k <= pendingNotificationsCount s)%nat ->
    0 < Subscription.maxLifeTimeCount (counters s) ->
    Subscription._life_time_counter (counters s) + Z.of_nat k
      < Subscription.maxLifeTimeCount (counters s) ->
    thrown (run listeners k s) = None
    /\ notifications (events (run listeners k s)) = firstn k (_pending_notifications s)
    /\ _pending_notifications (after (run listeners k s))
       = skipn k (_pending_notifications s).
Proof.
  intros listeners k; induction k as [| k IH]; intros s Ho Hrun Hk Hpos Hlt.
  - cbn. repeat split.
  - unfold pendingNotificationsCount in Hk.
    destruct (_pending_notifications s) as [| e r] eqn:Hpend; [cbn in Hk; lia |].
    destruct (tick_delivers listeners s e r Ho Hpos) as [s' [Htick [Hc [Ht [Hp _]]]]];
      [lia | exact Hpend |].
    destruct (IH s' Ho) as [H1 [H2 H3]].
    + rewrite Ht. exact Hrun.
    + unfold pendingNotificationsCount. rewrite Hp. cbn in Hk. lia.
    + rewrite Hc. cbn. exact Hpos.
    + rewrite Hc. cbn. lia.
    + rewrite run_S, (proj2 (Z.eqb_neq _ _) Hrun), Htick.
      cbn [thrown after events].
      split; [exact H1 | split].
      * rewrite notifications_app, H2, Hp. reflexivity.
      * rewrite H3, Hp. reflexivity.
Qed.

Lemma ticks_deliver_in_order_witness :
  notifications (events (run nobody 2 backlog))
  = [ mk_entry (a_message 5) 0 5; mk_entry (a_message 6) 0 6 ].
Proof.
  refine (proj1 (proj2 (ticks_deliver_in_order nobody 2 backlog nobody_observes _ _ _ _))).
  - cbn. lia.
  - cbn. lia.
  - cbn. lia.
  - cbn. lia.
Defined.

(** X10.  Silence is broken by a keep-alive every [maxKeepAliveCount]
    ticks: with nothing pending, listeners that only look and a life time
    that does not run out, a subscription whose keep-alive counter is [k + 1]
    below [maxKeepAliveCount] emits nothing but [perform_update] for [k]
    ticks and [keepalive] at the next, with the sequence number of the next
    notification, and the counter starts again from 0. *)
Theorem keepalive_after_silence :
  forall listeners k s,
    observers listeners ->
    timerId s <> 0 ->
    _pending_notifications s = [] ->
    Subscription._keep_alive_counter (counters s) + Z.of_nat (S k)
    = Subscription.maxKeepAliveCount (counters s) ->
    0 < Subscription.maxLifeTimeCount (counters s) ->
    Subscription._life_time_counter (counters s) + Z.of_nat (S k)
      < Subscription.maxLifeTimeCount (counters s) ->
    thrown (run listeners (S k) s) = None
    /\ events (run listeners (S k) s)
       = (repeat perform_update (S k)
            ++ [keepalive (fst (Subscription._get_next_sequence_number (counters s)))])%list
    /\ Subscription._keep_alive_counter (counters (after (run listeners (S k) s))) = 0.
Proof.
  intros listeners k; induction k as [| k IH]; intros s Ho Hrun Hpend Hkeep Hpos Hlt.
  - destruct (tick_quiet listeners s Ho Hpos) as [s' [Htick [Hc [Ht Hp]]]];
      [lia | exact Hpend |].
    rewrite (proj2 (Z.geb_le _ _)) in Htick, Hc by lia.
    rewrite run_S, (proj2 (Z.eqb_neq _ _) Hrun), Htick. cbn [thrown after events run].
    rewrite Hc. cbn. repeat split.
    unfold Subscription._get_next_sequence_number. cbn.
    destruct (_ >? _); reflexivity.
  - destruct (tick_quiet listeners s Ho Hpos) as [s' [Htick [Hc [Ht Hp]]]];
      [lia | exact Hpend |].
    destruct (Subscription._keep_alive_counter (counters s) + 1
                >=? Subscription.maxKeepAliveCount (counters s)) eqn:E;
      [apply Z.geb_le in E; lia |].
    destruct (IH s' Ho) as [H1 [H2 H3]].
    + rewrite Ht. exact Hrun.
    + exact Hp.
    + rewrite Hc. cbn. lia.
    + rewrite Hc. cbn. exact Hpos.
    + rewrite Hc. cbn. lia.
    + rewrite run_S, (proj2 (Z.eqb_neq _ _) Hrun), Htick.
      cbn [thrown after events].
      split; [exact H1 | split; [| exact H3]].
      rewrite H2, Hc. unfold Subscription._get_next_sequence_number. cbn.
      destruct (_ >? _); reflexivity.
Qed.

Lemma keepalive_after_silence_witness :
  events (run nobody 3 rested)
  = [perform_update; perform_update; perform_update; keepalive 1].
Proof.
  refine (proj1 (proj2 (keepalive_after_silence nobody 2 rested nobody_observes
                          _ _ _ _ _))).
  - cbn. lia.
  - reflexivity.
  - reflexivity.
  - cbn. lia.
  - cbn. lia.
Defined.

(** X11.  A message handed to [addNotificationMessage] while nothing is
    pending goes out at the next tick: the tick emits it as a
    [notification] event, stamped with the tick at which it was added and
    with its own sequence number, puts it last in the sent queue and resets
    the keep-alive counter.  Listeners only look; the life time has not run
    out. *)
Theorem added_message_goes_out_next :
  forall listeners s m n,
    observers listeners ->
    _pending_notifications s = [] ->
    instanceof_NotificationMessage m = true ->
    msg_sequenceNumber m = Some n ->
    0 < Subscription.maxLifeTimeCount (counters s) ->
    Subscription._life_time_counter (counters s) + 1
      < Subscription.maxLifeTimeCount (counters s) ->
    exists s1 s2 kept,
      addNotificationMessage s m = (OK tt, s1)
      /\ _tick listeners s1
         = mk_outcome None s2
             [perform_update;
              notification_event
                (mk_entry m (Subscription.currentTick (counters s)) n)]
      /\ _pending_notifications s2 = []
      /\ _sent_notifications s2
         = (kept ++ [mk_entry m (Subscription.currentTick (counters s)) n])%list
      /\ Subscription._keep_alive_counter (counters s2) = 0.
Proof.
  intros listeners s m n Ho Hpend Hm Hn Hpos Hlt.
  unfold addNotificationMessage. rewrite Hm, Hn, Hpend. cbn [negb app].
  eexists.
  destruct (tick_delivers listeners
              {| sub_id := sub_id s;
                 counters := counters s;
                 timerId := timerId s;
                 _pending_notifications :=
                   [ {| notification := m;
                        start_tick := Subscription.currentTick (counters s);
                        sequenceNumber := n |} ];
                 _sent_notifications := _sent_notifications s |}
              (mk_entry m (Subscription.currentTick (counters s)) n) [] Ho Hpos Hlt
              eq_refl) as [s2 [Htick [Hc [_ [Hp [kept Hs]]]]]].
  exists s2, kept. split; [reflexivity |].
  split; [exact Htick | split; [exact Hp | split; [exact Hs |]]].
  rewrite Hc. reflexivity.
Qed.

Lemma added_message_goes_out_next_witness :
  exists s1 s2 kept,
    addNotificationMessage rested (a_message 1) = (OK tt, s1)
    /\ _tick nobody s1
       = mk_outcome None s2 [perform_update; notification_event (mk_entry (a_message 1) 0 1)]
    /\ _pending_notifications s2 = []
    /\ _sent_notifications s2 = (kept ++ [mk_entry (a_message 1) 0 1])%list
    /\ Subscription._keep_alive_counter (counters s2) = 0.
Proof.
  refine (added_message_goes_out_next nobody rested (a_message 1) 1 nobody_observes
            eq_refl eq_refl eq_refl _ _).
  - cbn. lia.
  - cbn. lia.
Defined.

(** X12.  A client that is heard from before every tick keeps its
    subscription: when [ping_from_client] runs before each [_tick], no tick
    emits [expired] or throws and the timer stays set, however many ticks
    go by.  The life time is more than one tick and the listeners leave the
    counters alone. *)
Theorem pings_keep_alive :
  forall listeners n s,
    keeps_counters listeners ->
    1 < Subscription.maxLifeTimeCount (counters s) ->
    timerId (Nat.iter n (pinged_tick listeners) s) = timerId s
    /\ Subscription.maxLifeTimeCount (counters (Nat.iter n (pinged_tick listeners) s))
       = Subscription.maxLifeTimeCount (counters s)
    /\ thrown (_tick listeners (ping_from_client (Nat.iter n (pinged_tick listeners) s)))
       = None
    /\ ~ In expired
           (events (_tick listeners
                      (ping_from_client (Nat.iter n (pinged_tick listeners) s)))).
Proof.
  intros listeners n s Hk Hlife.
  assert (Hinv : timerId (Nat.iter n (pinged_tick listeners) s) = timerId s
                 /\ Subscription.maxLifeTimeCount
                      (counters (Nat.iter n (pinged_tick listeners) s))
                    = Subscription.maxLifeTimeCount (counters s)).
  { induction n as [| n [IH1 IH2]]; [split; reflexivity |].
    rewrite Nat.iter_succ.
    change (pinged_tick listeners (Nat.iter n (pinged_tick listeners) s))
      with (after (_tick listeners
                     (ping_from_client (Nat.iter n (pinged_tick listeners) s)))).
    destruct (tick_life listeners
                (ping_from_client (Nat.iter n (pinged_tick listeners) s)) Hk)
      as [_ [_ [Hm [_ [Hnot _]]]]].
    - cbn. rewrite IH2. lia.
    - destruct Hnot as [Ht _]; [cbn; rewrite IH2; lia |].
      rewrite Ht, Hm. cbn. split; assumption. }
  destruct Hinv as [H1 H2].
  destruct (tick_life listeners
              (ping_from_client (Nat.iter n (pinged_tick listeners) s)) Hk)
    as [Hthrown [_ [_ [_ [Hnot _]]]]].
  - cbn. rewrite H2. lia.
  - destruct Hnot as [Ht Hev]; [cbn; rewrite H2; lia |].
    repeat split; assumption.
Qed.

Lemma pings_keep_alive_witness :
  timerId (Nat.iter 20 (pinged_tick nobody) (new three_ticks None 1)) = 1.
Proof.
  refine (proj1 (pings_keep_alive nobody 20 (new three_ticks None 1)
                   (observers_keep_counters nobody nobody_observes) _)).
  cbn. lia.
Defined.

End Ticks.

(* ================================================================== *)
(** ** The generator: what a file holds, and what stops it *)
(* ================================================================== *)

(** X13.  An id of 0 counts as no id: a schema that passes the schema check
    and brings [id: 0], or brings none while the catalog lists 0 for it,
    makes [produce_code] throw the missing-id error, and nothing is saved. *)
Theorem zero_id_rejected :
  forall ext schema schema_name source_file w,
    check_schema_correctness ext (Some schema) = OK tt ->
    schema_id schema = Some 0
    \/ (schema_id schema = None
        /\ objectNodeIds ext (name schema ++ "_Encoding_DefaultBinary") = Some 0) ->
    produce_code ext (Some schema) schema_name source_file w
    = (Err (NoEncodingDefaultBinary (name schema)), w).
Proof.
  intros ext schema schema_name source_file w Hc Hid.
  apply produce_code_fails_unchanged.
  unfold produce_code_file, produce_code_head. rewrite Hc. cbn.
  unfold resolve_encoding_ids.
  destruct Hid as [Hid | [Hid Hcat]]; rewrite Hid; [| rewrite Hcat]; reflexivity.
Qed.

Lemma zero_id_rejected_witness :
  produce_code Sample.ext (Some Cases.Zero_Schema) "Zero_Schema" "Zero.js" Sample.world
  = (Err (NoEncodingDefaultBinary "Zero"), Sample.world).
Proof.
  apply (zero_id_rejected Sample.ext Cases.Zero_Schema "Zero_Schema" "Zero.js"
           Sample.world eq_refl).
  left. reflexivity.
Defined.

(** X14.  The identifiers of a produced file.  A schema with an id of its
    own gets that id in namespace 0, or the runtime assignment when the id
    is the sentinel -1, and never an xml id, whatever the catalog lists.  A
    schema without one gets the binary id of the catalog, which is then not
    0, and the xml id of the catalog when the catalog has one that is not
    0. *)
Theorem identifiers_of_a_file :
  forall ext reg schema schema_name f,
    produce_code_file ext reg (Some schema) schema_name = OK f ->
    match schema_id schema with
    | Some i =>
        i <> 0
        /\ gm_id f = (if i =? RUNTIME_GENERATED_ID then IdRuntime else IdFixed i 0)
        /\ gm_xml_id f = None
    | None =>
        exists b,
          objectNodeIds ext (name schema ++ "_Encoding_DefaultBinary") = Some b
          /\ b <> 0
          /\ gm_id f = (if b =? RUNTIME_GENERATED_ID then IdRuntime else IdFixed b 0)
          /\ gm_xml_id f
             = match objectNodeIds ext (name schema ++ "_Encoding_DefaultXml") with
               | Some x => if x =? 0 then None else Some (makeExpandedNodeId x 0)
               | None => None
               end
    end.
Proof.
  intros ext reg schema schema_name f H.
  unfold produce_code_file in H. bind_inv H as h Hh.
  unfold produce_code_tail in H. bind_inv H as dec Hdec.
  inversion H; subst f; clear H. cbn [gm_id gm_xml_id].
  unfold produce_code_head in Hh. bind_inv Hh as u Hu.
  bind_inv Hh as ids Hids. destruct ids as [b x].
  bind_inv Hh as u1 Hu1. bind_inv Hh as rq Hrq. bind_inv Hh as brq Hbrq.
  bind_inv Hh as ep Hep. bind_inv Hh as ct Hct.
  inversion Hh; subst h; clear Hh. cbn [h_encoding_BinaryId h_encodingXmlNodeId].
  unfold resolve_encoding_ids in Hids.
  destruct (schema_id schema) as [i |].
  - destruct (i =? 0) eqn:E; [discriminate |].
    inversion Hids; subst b x. apply Z.eqb_neq in E. repeat split. exact E.
  - destruct (objectNodeIds ext (name schema ++ "_Encoding_DefaultBinary"))
      as [b' |]; [| discriminate].
    destruct (b' =? 0) eqn:E; [discriminate |].
    inversion Hids; subst b x. apply Z.eqb_neq in E.
    exists b'. repeat split. exact E.
Qed.

Lemma identifiers_of_a_file_witness :
  exists f,
    produce_code_file Sample.ext [] (Some Sample.Point_Schema) "Point_Schema" = OK f
    /\ gm_id f = IdFixed 100 0
    /\ gm_xml_id f = Some (makeExpandedNodeId 101 0).
Proof.
  destruct (produce_code_file Sample.ext [] (Some Sample.Point_Schema) "Point_Schema")
    as [f | e] eqn:E; [| vm_compute in E; discriminate].
  exists f. split; [reflexivity |].
  destruct (identifiers_of_a_file Sample.ext [] Sample.Point_Schema "Point_Schema" f E)
    as [b [Hb [_ [Hid Hxml]]]].
  vm_compute in Hb. inversion Hb; subst b.
  split; [exact Hid | exact Hxml].
Defined.

Lemma enum_properties_array :
  forall l field,
    In field l -> category field = enumeration -> isArray field = true ->
    enum_properties l = Err (AssertionError "!field.isArray").
Proof.
  intros l field; induction l as [| a l IH]; intros Hin Hc Ha; [destruct Hin |].
  cbn [enum_properties]. destruct Hin as [Hin | Hin].
  - subst a. rewrite Hc. unfold write_enumeration_define. rewrite Ha. reflexivity.
  - rewrite (IH Hin Hc Ha).
    destruct (category a); try reflexivity.
    unfold write_enumeration_define. destruct (isArray a); reflexivity.
Qed.

(** X15.  No file is ever produced for a schema with an enumeration field
    that is an array: [produce_code] throws, whatever the rest of the schema
    and the installation, and saves nothing. *)
Theorem enumeration_array_never_compiles :
  forall ext schema schema_name source_file w field,
    In field (fields schema) ->
    category field = enumeration ->
    isArray field = true ->
    exists e,
      produce_code ext (Some schema) schema_name source_file w = (Err e, w)
      /\ (forall r,
            complex_requires ext (w_registry w) []
              (complexTypes (set_baseType schema (baseType_or_default schema))) = OK r ->
            check_schema_correctness ext (Some schema) = OK tt ->
            is_ok (resolve_encoding_ids ext schema) = true ->
            resolve_schema_field_types ext
              (set_baseType schema (baseType_or_default schema)) = OK tt ->
            is_root (baseType_or_default schema) = true ->
            e = AssertionError "!field.isArray").
Proof.
  intros ext schema schema_name source_file w field Hin Hc Ha.
  pose proof (enum_properties_array (fields schema) field Hin Hc Ha) as He.
  destruct (produce_code_file ext (w_registry w) (Some schema) schema_name)
    as [f | e] eqn:Hf.
  - exfalso. unfold produce_code_file in Hf. bind_inv Hf as h Hh.
    unfold produce_code_head in Hh. bind_inv Hh as u Hu.
    bind_inv Hh as ids Hids. destruct ids as [b x].
    bind_inv Hh as u1 Hu1. bind_inv Hh as rq Hrq. bind_inv Hh as brq Hbrq.
    bind_inv Hh as ep Hep. cbn in Hep. rewrite He in Hep. discriminate.
  - exists e. split; [apply produce_code_fails_unchanged; exact Hf |].
    intros r Hr Hcheck Hids Hres Hroot.
    unfold produce_code_file, produce_code_head in Hf.
    rewrite Hcheck in Hf. cbn [bind] in Hf.
    destruct (resolve_encoding_ids ext schema) as [[b x] |]; [| discriminate].
    cbn [bind] in Hf. rewrite Hres in Hf. cbn [bind] in Hf.
    rewrite Hr in Hf. cbn [bind] in Hf.
    unfold is_root in Hroot. rewrite Hroot in Hf. cbn [bind] in Hf.
    cbn [fields set_baseType] in Hf. rewrite He in Hf. cbn in Hf. congruence.
Qed.

Lemma enumeration_array_never_compiles_witness :
  produce_code Sample.ext (Some Cases.Palette_Schema) "Palette_Schema" "Palette.js"
    Sample.world
  = (Err (AssertionError "!field.isArray"), Sample.world).
Proof.
  destruct (enumeration_array_never_compiles Sample.ext Cases.Palette_Schema
              "Palette_Schema" "Palette.js" Sample.world
              (Sample.field "colors" "Color" enumeration true))
    as [e [He Hwhich]].
  - right. left. reflexivity.
  - reflexivity.
  - reflexivity.
  - rewrite He. f_equal. f_equal.
    apply (Hwhich []); reflexivity.
Defined.

(** *** The codec variables *)

Lemma codec_bindings_first :
  forall l done T,
    assoc T (codec_bindings done l)
    = if existsb (String.eqb T) done then None else first_binding T l.
Proof.
  induction l as [| field l IH]; intros done T.
  - cbn. destruct (existsb _ done); reflexivity.
  - cbn [codec_bindings]. unfold first_binding. cbn [find]. fold (first_binding T l).
    destruct (existsb (String.eqb (fieldType field)) done) eqn:Edone.
    + rewrite IH. destruct (existsb (String.eqb T) done) eqn:ET; [reflexivity |].
      destruct (String.eqb (fieldType field) T) eqn:E; [| reflexivity].
      apply String.eqb_eq in E. rewrite E in Edone. congruence.
    + assert (Hdone' : existsb (String.eqb T) (fieldType field :: done)
                       = String.eqb T (fieldType field) || existsb (String.eqb T) done)
        by reflexivity.
      rewrite (String.eqb_sym T (fieldType field)) in Hdone'.
      destruct (String.eqb (fieldType field) T) eqn:E.
      * apply String.eqb_eq in E. subst T. rewrite Edone.
        destruct (category field); cbn [assoc]; rewrite ?String.eqb_refl; try reflexivity.
        rewrite IH, Hdone'. reflexivity.
      * cbn [orb] in Hdone'.
        destruct (category field); cbn [assoc];
          rewrite ?(String.eqb_sym T (fieldType field)), ?E, IH, Hdone'; reflexivity.
Qed.

(** X16.  One codec per field type, chosen by the first field of that type:
    in a produced file the variables [encode_T] and [decode_T] come from the
    enumeration registry when the first field of type [T] is an enumeration,
    from the built-in type table when it is basic, and do not exist when it
    is complex or when no field has the type; later fields of the type do
    not change this.  [T] is not a name that every object inherits. *)
Theorem codec_of_first_field :
  forall ext reg schema schema_name f T,
    produce_code_file ext reg (Some schema) schema_name = OK f ->
    ~ In T Object_prototype ->
    assoc T (gm_bindings f) = first_binding T (fields schema).
Proof.
  intros ext reg schema schema_name f T H _.
  unfold produce_code_file in H. bind_inv H as h Hh.
  destruct (head_hooks _ _ _ _ _ Hh) as [_ [Hfields _]].
  unfold produce_code_tail in H. bind_inv H as dec Hdec.
  inversion H; subst f; clear H. cbn [gm_bindings].
  rewrite Hfields, codec_bindings_first. reflexivity.
Qed.

Lemma codec_of_first_field_witness :
  exists f,
    produce_code_file Sample.ext Sample.reg (Some Cases.Mixed_Schema) "Mixed_Schema" = OK f
    /\ assoc "Color" (gm_bindings f) = Some FromEnumerations
    /\ assoc "Point" (gm_bindings f) = None
    /\ assoc "Byte" (gm_bindings f) = Some FromDefaultTypeMap.
Proof.
  destruct (produce_code_file Sample.ext Sample.reg (Some Cases.Mixed_Schema)
              "Mixed_Schema") as [f | e] eqn:E; [| vm_compute in E; discriminate].
  exists f. split; [reflexivity |].
  assert (Hnot : forall T, existsb (String.eqb T) Object_prototype = false ->
                            ~ In T Object_prototype).
  { intros T HT Hin.
    assert (existsb (String.eqb T) Object_prototype = true); [| congruence].
    apply existsb_exists. exists T. split; [exact Hin | apply String.eqb_refl]. }
  rewrite (codec_of_first_field Sample.ext Sample.reg Cases.Mixed_Schema
             "Mixed_Schema" f "Color" E (Hnot "Color" eq_refl)).
  rewrite (codec_of_first_field Sample.ext Sample.reg Cases.Mixed_Schema
             "Mixed_Schema" f "Point" E (Hnot "Point" eq_refl)).
  rewrite (codec_of_first_field Sample.ext Sample.reg Cases.Mixed_Schema
             "Mixed_Schema" f "Byte" E (Hnot "Byte" eq_refl)).
  repeat split.
Defined.


(** *** The files a class requires *)

Lemma complex_requires_spec :
  forall ext reg l tmp_map r,
    complex_requires ext reg tmp_map l = OK r ->
    NoDup (map snd r)
    /\ (forall T file, In (T, file) r ->
          ~ In file tmp_map
          /\ get_class_javascript_filename_local ext reg T = OK file
          /\ exists field, In field l /\ fieldType field = T)
    /\ (forall field, In field l ->
          exists file,
            get_class_javascript_filename_local ext reg (fieldType field) = OK file
            /\ (In file tmp_map \/ In file (map snd r))).
Proof.
  intros ext reg; induction l as [| field l IH]; intros tmp_map r H.
  - cbn in H. inversion H; subst r. cbn. split; [constructor |].
    split; [intros T file [] | intros field []].
  - cbn [complex_requires] in H. bind_inv H as filename Hfile.
    destruct (existsb (String.eqb filename) tmp_map) eqn:E.
    + destruct (IH tmp_map r H) as [Hnd [Hsound Hcomplete]].
      split; [exact Hnd | split].
      * intros T file Hin. destruct (Hsound T file Hin) as [H1 [H2 [fd [H3 H4]]]].
        split; [exact H1 | split; [exact H2 |]]. exists fd. split; [right |]; assumption.
      * intros fd [Hfd | Hfd].
        -- subst fd. exists filename. split; [exact Hfile | left].
           apply existsb_exists in E. destruct E as [x [Hx Ex]].
           apply String.eqb_eq in Ex. subst x. exact Hx.
        -- exact (Hcomplete fd Hfd).
    + bind_inv H as rest Hrest. inversion H; subst r; clear H.
      destruct (IH (filename :: tmp_map) rest Hrest) as [Hnd [Hsound Hcomplete]].
      assert (Hnew : ~ In filename tmp_map).
      { intros Hin.
        assert (existsb (String.eqb filename) tmp_map = true); [| congruence].
        apply existsb_exists. exists filename. split; [exact Hin | apply String.eqb_refl]. }
      split; [| split].
      * cbn. constructor; [| exact Hnd].
        intros Hin. apply in_map_iff in Hin. destruct Hin as [[T file] [Hf Hin]].
        cbn in Hf. subst file.
        destruct (Hsound T filename Hin) as [H1 _]. apply H1. left. reflexivity.
      * intros T file [Hin | Hin].
        -- inversion Hin; subst T file.
           split; [exact Hnew | split; [exact Hfile |]].
           exists field. split; [left |]; reflexivity.
        -- destruct (Hsound T file Hin) as [H1 [H2 [fd [H3 H4]]]].
           split; [intros Hx; apply H1; right; exact Hx | split; [exact H2 |]].
           exists fd. split; [right |]; assumption.
      * intros fd [Hfd | Hfd].
        -- subst fd. exists filename. split; [exact Hfile | right; left; reflexivity].
        -- destruct (Hcomplete fd Hfd) as [file [H1 [[H2 | H2] | H2]]].
           ++ subst file. exists filename. split; [exact H1 | right; left; reflexivity].
           ++ exists file. split; [exact H1 | left; exact H2].
           ++ exists file. split; [exact H1 | right; right; exact H2].
Qed.

(** X18.  The [require]s of the complex field types.  When the loop over
    the complex fields returns, no file is required twice; every required
    file is the file of the type of a complex field, and that type is never
    the schema's own; and the file of every complex field of another type
    than the schema's own is among the required ones. *)
Theorem complex_types_required_once :
  forall ext reg schema r,
    complex_requires ext reg [] (complexTypes schema) = OK r ->
    NoDup (map snd r)
    /\ (forall T file, In (T, file) r ->
          T <> name schema
          /\ get_class_javascript_filename_local ext reg T = OK file
          /\ exists field,
               In field (fields schema) /\ category field = complex
               /\ fieldType field = T)
    /\ (forall field,
          In field (fields schema) -> category field = complex ->
          fieldType field <> name schema ->
          exists file,
            get_class_javascript_filename_local ext reg (fieldType field) = OK file
            /\ In file (map snd r)).
Proof.
  intros ext reg schema r H.
  destruct (complex_requires_spec ext reg _ _ _ H) as [Hnd [Hsound Hcomplete]].
  split; [exact Hnd | split].
  - intros T file Hin. destruct (Hsound T file Hin) as [_ [H2 [fd [H3 H4]]]].
    unfold complexTypes in H3. apply filter_In in H3. destruct H3 as [H3 H5].
    destruct (category fd) eqn:Ec; try discriminate.
    apply negb_true_iff, String.eqb_neq in H5.
    split; [congruence | split; [exact H2 |]].
    exists fd. repeat split; assumption.
  - intros fd Hfd Hc Hne.
    destruct (Hcomplete fd) as [file [H1 [[] | H2]]].
    + unfold complexTypes. apply filter_In. split; [exact Hfd |].
      rewrite Hc. apply negb_true_iff, String.eqb_neq. exact Hne.
    + exists file. split; assumption.
Qed.

Lemma complex_types_required_once_witness :
  complex_requires Sample.ext Sample.reg [] (complexTypes Cases.Segment_Schema)
  = OK [("Point", "_generated_/_auto_generated_Point.js")]
  /\ NoDup (map snd [("Point", "_generated_/_auto_generated_Point.js")]).
Proof.
  assert (H : complex_requires Sample.ext Sample.reg []
                (complexTypes Cases.Segment_Schema)
              = OK [("Point", "_generated_/_auto_generated_Point.js")])
    by (vm_compute; reflexivity).
  split; [exact H |].
  exact (proj1 (complex_types_required_once Sample.ext Sample.reg
                  Cases.Segment_Schema _ H)).
Defined.

(** *** The constructor of a produced file *)

Lemma for_fields_nth :
  forall (A : Type) (body : nat -> FieldDescriptor -> result A) l k stmts,
    for_fields body k l = OK stmts ->
    List.length stmts = List.length l
    /\ forall j field,
         nth_error l j = Some field ->
         exists st, nth_error stmts j = Some st /\ body (k + j)%nat field = OK st.
Proof.
  intros A body; induction l as [| a l IH]; intros k stmts H; cbn in H.
  - inversion H; subst stmts. split; [reflexivity |].
    intros [| j] field Hj; discriminate.
  - bind_inv H as st Hst. bind_inv H as rest Hrest. inversion H; subst stmts.
    destruct (IH (S k) rest Hrest) as [Hlen Hnth].
    split; [cbn; rewrite Hlen; reflexivity |].
    intros [| j] field Hj; cbn in Hj.
    + inversion Hj; subst a. exists st. rewrite Nat.add_0_r. split; [reflexivity | exact Hst].
    + destruct (Hnth j field Hj) as [st' [H1 H2]].
      exists st'. split; [exact H1 |].
      replace (k + S j)%nat with (S k + j)%nat by lia. exact H2.
Qed.

(** X19.  The constructor of a produced file has one statement per field
    of the schema, in the order of the fields, and statement [i] assigns the
    member named after field [i].  For a basic or enumeration field the
    statement hands [schema.fields[i]], with that same [i], and the option
    of the field's name to [initialize_field], or to
    [initialize_field_array] when the field is an array. *)
Theorem constructor_follows_the_fields :
  forall ext reg schema schema_name f,
    produce_code_file ext reg (Some schema) schema_name = OK f ->
    map ctor_member (gm_ctor f) = map f_name (fields schema)
    /\ forall i field,
         nth_error (fields schema) i = Some field ->
         category field <> complex ->
         nth_error (gm_ctor f) i
         = Some (if isArray field
                 then CtorInitFieldArray (f_name field) i (f_name field)
                 else CtorInitField (f_name field) i (f_name field)).
Proof.
  intros ext reg schema schema_name f H.
  unfold produce_code_file in H. bind_inv H as h Hh.
  unfold produce_code_tail in H. bind_inv H as dec Hdec.
  inversion H; subst f; clear H. cbn [gm_ctor].
  unfold produce_code_head in Hh. bind_inv Hh as u Hu.
  bind_inv Hh as ids Hids. destruct ids as [b x].
  bind_inv Hh as u1 Hu1. bind_inv Hh as rq Hrq. bind_inv Hh as brq Hbrq.
  bind_inv Hh as ep Hep. bind_inv Hh as ct Hct.
  inversion Hh; subst h; clear Hh. cbn [h_ctor].
  cbn [fields set_baseType] in Hct.
  destruct (for_fields_nth _ _ _ _ _ Hct) as [Hlen Hnth]. split.
  - apply nth_error_ext. intros i. rewrite !nth_error_map.
    destruct (nth_error (fields schema) i) as [field |] eqn:Hi.
    + destruct (Hnth i field Hi) as [st [H1 H2]]. rewrite H1. cbn.
      f_equal. exact (ctor_stmt_of_member _ _ _ _ H2).
    + apply nth_error_None in Hi. rewrite <- Hlen in Hi.
      apply nth_error_None in Hi. rewrite Hi. reflexivity.
  - intros i field Hi Hc. destruct (Hnth i field Hi) as [st [H1 H2]].
    rewrite H1. f_equal. cbn [Nat.add] in H2.
    unfold ctor_stmt_of, write_enumeration, write_basic in H2.
    destruct (category field); [| congruence |];
      destruct (isArray field); inversion H2; reflexivity.
Qed.

Lemma constructor_follows_the_fields_witness :
  exists f,
    produce_code_file Sample.ext Sample.reg (Some Sample.Shape_Schema) "Shape_Schema"
    = OK f
    /\ map ctor_member (gm_ctor f) = ["color"; "origin"; "tags"; "outline"]
    /\ nth_error (gm_ctor f) 2 = Some (CtorInitFieldArray "tags" 2 "tags").
Proof.
  destruct (produce_code_file Sample.ext Sample.reg (Some Sample.Shape_Schema)
              "Shape_Schema") as [f | e] eqn:E; [| vm_compute in E; discriminate].
  exists f. split; [reflexivity |].
  destruct (constructor_follows_the_fields Sample.ext Sample.reg Sample.Shape_Schema
              "Shape_Schema" f E) as [H1 H2].
  split; [exact H1 |].
  apply (H2 2%nat (Sample.field "tags" "Byte" basic true)); [reflexivity | discriminate].
Defined.

(* ================================================================== *)
(** ** Loading and running a produced file *)
(* ================================================================== *)

(** X20.  A class with an id of its own draws nothing from the id counter:
    the file produced for a schema whose id is not the sentinel puts that
    id, in namespace 0, on the prototype when it is loaded, and the counter
    of [generate_new_id] is what it was, whether the load returns or
    throws. *)
Theorem fixed_id_draws_nothing :
  forall ext schema schema_name w f i r w',
    schema_id schema = Some i ->
    i <> RUNTIME_GENERATED_ID ->
    produce_code_file ext (w_registry w) (Some schema) schema_name = OK f ->
    load_module ext f w = (r, w') ->
    w_next_id w' = w_next_id w
    /\ (r = OK tt ->
        assoc (name schema) (w_registry w) = None ->
        exists lc,
          assoc (name schema) (w_registry w') = Some lc
          /\ lc_encodingDefaultBinary lc = makeExpandedNodeId i 0
          /\ schema_id (gm_schema (lc_module lc)) = Some i).
Proof.
  intros ext schema schema_name w f i r w' Hid Hne Hf Hload.
  unfold produce_code_file in Hf. bind_inv Hf as h Hh.
  pose proof (head_binary_id _ _ _ _ _ _ Hh Hid) as Hb.
  pose proof (head_schema _ _ _ _ _ Hh) as Hs.
  unfold produce_code_tail in Hf. bind_inv Hf as dec Hdec.
  assert (Hgid : gm_id f = IdFixed i 0).
  { inversion Hf; subst f. cbn. rewrite Hb.
    rewrite (proj2 (Z.eqb_neq _ _) Hne). reflexivity. }
  assert (Hname : gm_classname f = name schema)
    by (inversion Hf; subst f; cbn; rewrite Hs; reflexivity).
  assert (Hsch : schema_id (gm_schema f) = Some i)
    by (inversion Hf; subst f; cbn; rewrite Hs; exact Hid).
  clear Hf Hdec Hh.
  unfold load_module in Hload.
  destruct (if String.eqb (gm_baseclass f) "BaseUAObject" then OK []
            else bind (getFactory (w_registry w) (gm_baseclass f))
                      (fun lc0 => OK (lc_accessors lc0))) as [inh | e].
  2:{ inversion Hload; subst. split; [reflexivity | discriminate]. }
  rewrite Hgid in Hload. cbn iota beta zeta in Hload.
  destruct (forallb (binding_resolves ext) (gm_bindings f)).
  2:{ inversion Hload; subst. split; [reflexivity | discriminate]. }
  unfold register_class_definition in Hload. rewrite Hname in Hload.
  destruct (assoc (name schema) (w_registry w)) as [c' |] eqn:Hreg.
  - destruct (same_definition _ c'); inversion Hload; subst;
      (split; [reflexivity | discriminate]).
  - inversion Hload; subst; clear Hload. split; [reflexivity |]. intros _ _.
    eexists. split.
    + cbn [w_registry]. rewrite (assoc_app_None _ _ _ _ Hreg).
      cbn [assoc]. rewrite String.eqb_refl. reflexivity.
    + split; [reflexivity | exact Hsch].
Qed.

Lemma fixed_id_draws_nothing_witness :
  exists f w',
    produce_code_file Sample.ext (w_registry Sample.world)
      (Some Cases.Segment_Schema) "Segment_Schema" = OK f
    /\ load_module Sample.ext f Sample.world = (OK tt, w')
    /\ w_next_id w' = w_next_id Sample.world.
Proof.
  destruct (produce_code_file Sample.ext (w_registry Sample.world)
              (Some Cases.Segment_Schema) "Segment_Schema") as [f | e] eqn:E;
    [| vm_compute in E; discriminate].
  destruct (load_module Sample.ext f Sample.world) as [r w'] eqn:L.
  exists f, w'.
  assert (Hr : r = OK tt).
  { revert L. revert E. vm_compute. intros E. inversion E; subst f.
    vm_compute. intros L. inversion L. reflexivity. }
  subst r. split; [reflexivity | split; [exact L |]].
  refine (proj1 (fixed_id_draws_nothing Sample.ext Cases.Segment_Schema
                   "Segment_Schema" Sample.world f 312 (OK tt) w' eq_refl _ E L)).
  unfold RUNTIME_GENERATED_ID. lia.
Defined.

(** X21.  A load that fails on a codec variable registers nothing: when
    some [encode_T] of the file has no entry in its table, loading throws a
    TypeError and the type registry and the files are what they were.  The
    id counter has moved all the same when the class takes its id at load
    time, because the id is drawn before the codec variables are read. *)
Theorem failed_load_registers_nothing :
  forall ext f w,
    is_root (gm_baseclass f) = true
    \/ is_some (assoc (gm_baseclass f) (w_registry w)) = true ->
    forallb (binding_resolves ext) (gm_bindings f) = false ->
    exists what w',
      load_module ext f w = (Err (TypeError what), w')
      /\ w_registry w' = w_registry w
      /\ w_files w' = w_files w
      /\ w_next_id w'
         = match gm_id f with
           | IdRuntime => w_next_id w + 1
           | IdFixed _ _ => w_next_id w
           end.
Proof.
  intros ext f w Hbase Hbind. unfold load_module.
  assert (Hinh : exists inherited,
            (if String.eqb (gm_baseclass f) "BaseUAObject" then OK []
             else bind (getFactory (w_registry w) (gm_baseclass f))
                       (fun lc => OK (lc_accessors lc)))
            = OK inherited).
  { unfold is_root in Hbase.
    destruct (String.eqb (gm_baseclass f) "BaseUAObject"); [eauto |].
    destruct Hbase as [Hbase | Hbase]; [discriminate |].
    unfold getFactory.
    destruct (assoc (gm_baseclass f) (w_registry w)); [cbn; eauto | discriminate]. }
  destruct Hinh as [inherited Hinh]. rewrite Hinh.
  destruct (gm_id f); cbn; rewrite Hbind; eexists; eexists; repeat split.
Qed.

Lemma failed_load_registers_nothing_witness :
  exists what w',
    load_module Sample.ext Cases.unbound Sample.world = (Err (TypeError what), w')
    /\ w_registry w' = w_registry Sample.world
    /\ w_next_id w' = w_next_id Sample.world + 1.
Proof.
  destruct (failed_load_registers_nothing Sample.ext Cases.unbound Sample.world)
    as [what [w' [H1 [H2 [_ H4]]]]].
  - left. reflexivity.
  - reflexivity.
  - exists what, w'. split; [exact H1 | split; [exact H2 | exact H4]].
Defined.

(** X22.  The members of an instance depend on its class alone: two
    objects that [new T] makes, from whatever options, are of class [T] and
    have the same own properties in the same order, one for each slot that
    the constructors along the chain of [T] assign. *)
Theorem instances_share_members :
  forall ext reg n T options1 options2 t1 t2,
    (forall cls lc, assoc cls reg = Some lc -> generated_ctor lc) ->
    new_instance ext reg n T options1 = OK t1 ->
    new_instance ext reg n T options2 = OK t2 ->
    obj_class t1 = T
    /\ obj_class t2 = T
    /\ keys t1 = keys t2
    /\ keys t1 = dedup (chain_slots reg n T (Obj T [])).
Proof.
  intros ext reg n T options1 options2 t1 t2 generated H1 H2.
  pose proof (new_instance_shaped ext reg generated n T options1 t1 H1) as S1.
  pose proof (new_instance_shaped ext reg generated n T options2 t2 H2) as S2.
  pose proof (shaped_class _ _ _ _ S1) as C1.
  pose proof (shaped_class _ _ _ _ S2) as C2.
  unfold shaped in S1, S2.
  apply andb_prop in S1. destruct S1 as [_ S1]. apply same_names_eq in S1.
  apply andb_prop in S2. destruct S2 as [_ S2]. apply same_names_eq in S2.
  rewrite (chain_slots_class reg n T t1 (Obj T []) C1) in S1.
  rewrite (chain_slots_class reg n T t2 (Obj T []) C2) in S2.
  repeat split; try assumption. congruence.
Qed.

Lemma instances_share_members_witness :
  exists t1 t2,
    new_instance Sample.ext Sample.reg 5 "Badge" VUndefined = OK t1
    /\ new_instance Sample.ext Sample.reg 5 "Badge"
         (Sample.options [("rank", VNum 9); ("color", VStr "GREEN")]) = OK t2
    /\ keys t1 = keys t2
    /\ keys t1 = ["$color"; "origin"; "tags"; "outline"; "visible"; "rank"].
Proof.
  destruct (new_instance Sample.ext Sample.reg 5 "Badge" VUndefined)
    as [t1 | e] eqn:E1; [| vm_compute in E1; discriminate].
  destruct (new_instance Sample.ext Sample.reg 5 "Badge"
              (Sample.options [("rank", VNum 9); ("color", VStr "GREEN")]))
    as [t2 | e] eqn:E2; [| vm_compute in E2; discriminate].
  exists t1, t2. split; [reflexivity | split; [reflexivity |]].
  destruct (instances_share_members Sample.ext Sample.reg 5 "Badge" _ _ t1 t2
              sample_registry_generated_ctor E1 E2) as [_ [_ [H3 H4]]].
  split; [exact H3 |]. rewrite H4. vm_compute. reflexivity.
Defined.

(** *** A complex array handed to the constructor *)

Lemma mapM_map :
  forall (A B C : Type) (f : A -> result B) (g : B -> C) (l : list A),
    mapM (fun a => b <- f a ;; OK (g b)) l
    = (bs <- mapM f l ;; OK (map g bs)).
Proof.
  intros A B C f g; induction l as [| a l IH]; [reflexivity |].
  cbn [mapM]. destruct (f a) as [b | e]; [| reflexivity].
  cbn [bind]. rewrite IH. destruct (mapM f l); reflexivity.
Qed.

Lemma assoc_set_twice :
  forall (A : Type) k (a b : A) l,
    assoc_set k b (assoc_set k a l) = assoc_set k b l.
Proof.
  intros A k a b l; induction l as [| [k' a'] l IH]; cbn.
  - rewrite String.eqb_refl. reflexivity.
  - destruct (String.eqb k k') eqn:E; cbn.
    + rewrite String.eqb_refl. reflexivity.
    + rewrite E, IH. reflexivity.
Qed.

(** X23.  The statement that the generator emits for a complex array
    field, run with an option for the member.  When the option is an array,
    each element is handed to [new T], in order, and the member is the
    array of the results, whether or not the field declares a default; the
    statement throws what the first failing [new T] throws.  Any other
    truthy option fails the assertion. *)
Theorem complex_array_option_is_mapped :
  forall ext reg new schema field options opt self,
    category field = complex ->
    isArray field = true ->
    accessor_of reg self (f_name field) = None ->
    get_prop reg options (f_name field) = OK opt ->
    truthy opt = true ->
    ctor_stmt_of schema 0 field
    = OK (CtorComplexArray (f_name field) (fieldType field)
            (is_some (defaultValue field)))
    /\ exec_ctor_stmt ext reg new schema options self
         (CtorComplexArray (f_name field) (fieldType field)
            (is_some (defaultValue field)))
       = match opt with
         | VArr l =>
             objs <- mapM (new (fieldType field)) l ;;
             OK (raw_set self (f_name field) (VArr (map VObj objs)))
         | _ => Err (AssertionError "_.isArray(options.member)")
         end.
Proof.
  intros ext reg new schema field options opt self Hc Ha Hacc Hopt Ht. split.
  - unfold ctor_stmt_of, write_complex. rewrite Hc, Ha. reflexivity.
  - cbn [exec_ctor_stmt]. unfold set_member at 1. rewrite Hacc. cbn [bind].
    rewrite Hopt. cbn [bind]. rewrite Ht.
    destruct opt; try reflexivity.
    rewrite mapM_map. destruct (mapM (new (fieldType field)) elements) as [objs | e];
      [| reflexivity].
    cbn [bind]. unfold set_member, accessor_of in *. cbn [obj_class raw_set].
    rewrite Hacc. unfold raw_set. cbn [obj_class obj_props].
    rewrite assoc_set_twice. reflexivity.
Qed.

Lemma complex_array_option_is_mapped_witness :
  exec_ctor_stmt Sample.ext Sample.reg
    (fun T o => new_instance Sample.ext Sample.reg 3 T o) Sample.Path_Schema
    (Sample.options [("points", VArr [Sample.options [("x", VNum 4)]; VUndefined])])
    (Obj "Path" [])
    (CtorComplexArray "points" "Point" true)
  = OK (Obj "Path"
          [("points",
            VArr [VObj (Obj "Point" [("x", VNum 4); ("y", VNum 0)]);
                  VObj (Obj "Point" [("x", VNum 0); ("y", VNum 0)])])]).
Proof.
  refine (eq_trans
            (proj2 (complex_array_option_is_mapped Sample.ext Sample.reg
                      (fun T o => new_instance Sample.ext Sample.reg 3 T o)
                      Sample.Path_Schema
                      (Sample.with_default (Sample.field "points" "Point" complex true)
                         (Generator (fun _ => VArr [])))
                      (Sample.options
                         [("points", VArr [Sample.options [("x", VNum 4)]; VUndefined])])
                      (VArr [Sample.options [("x", VNum 4)]; VUndefined])
                      (Obj "Path" []) eq_refl eq_refl _ _ eq_refl)) _).
  - vm_compute. reflexivity.
  - vm_compute. reflexivity.
  - vm_compute. reflexivity.
Defined.

(** X24.  [decode] overwrites: the bytes that [encode] wrote for a
    well-formed instance [o], decoded into any other well-formed instance
    of the same class, give [o] itself, member for member, and leave what
    follows on the stream.  Nothing that the target held before survives.
    The codecs read back what they wrote and the classes have the generated
    [encode] and [decode]. *)
Theorem decode_overwrites_its_target :
  forall ext reg n o t rest,
    ExternalsLaws ext ->
    (forall cls lc, assoc cls reg = Some lc -> generated_codec lc) ->
    instance_ok ext reg n (obj_class o) o = true ->
    instance_ok ext reg n (obj_class o) t = true ->
    exists bytes,
      forall fuel,
        (n <= fuel)%nat ->
        encode_instance ext reg fuel o = OK bytes
        /\ decode_instance ext reg fuel t (bytes ++ rest)%list = OK (o, rest).
Proof.
  intros ext reg n o t rest laws generated Ho Ht.
  destruct (roundtrip_at_every_budget ext reg laws generated n) as [_ Hobj].
  destruct (Hobj (obj_class o) o Ho) as [bytes [Henc Hdec]].
  exists bytes. intros fuel Hfuel. split.
  - apply Henc. exact Hfuel.
  - unfold decode_instance.
    pose proof (instance_ok_target _ _ _ _ _ Ht) as Htgt.
    assert (Hc : obj_class t = obj_class o).
    { unfold target in Htgt. apply andb_prop in Htgt. destruct Htgt as [Hs _].
      eapply shaped_class; exact Hs. }
    rewrite Hc. apply Hdec; assumption.
Qed.

Lemma decode_overwrites_its_target_witness :
  exists bytes,
    encode_instance Sample.ext Sample.reg 5 Sample.blank_badge = OK bytes
    /\ decode_instance Sample.ext Sample.reg 5 Sample.badge (bytes ++ [Byte.x07])%list
       = OK (Sample.blank_badge, [Byte.x07]).
Proof.
  destruct (decode_overwrites_its_target Sample.ext Sample.reg 5
              Sample.blank_badge Sample.badge [Byte.x07]
              sample_laws sample_registry_generated) as [bytes H].
  - vm_compute. reflexivity.
  - vm_compute. reflexivity.
  - exists bytes. exact (H 5%nat (le_n 5)).
Defined.

(** *** From a schema to a class that runs *)







